(** * go-structured-query: UPDATE statement rendering and the fetch protocol

    A shallow embedding of the Go package [sq] (PostgreSQL dialect):
    [FieldLiteral], [Fields], [FieldAssignment], [Assignments],
    [FunctionInfo] and [UpdateQuery] with its builders and its [ToSQL],
    [AppendSQL], [NestThis], [FetchContext] and [ExecContext] methods.

    Go values of type [interface{}] that are not SQL nodes are [scalar]s,
    [error] values are an inductive type, [*strings.Builder] together with
    [*[]interface{}] is a [Sink] that every renderer takes and returns, and
    user callbacks (closures over variables of the caller) are functions on
    a store [U] that either return or panic.  A nil interface value is a
    constructor of its own ([FieldNil], [TableNil], [AssignmentNil], [VNil]),
    a nil pointer is [None].

    [UpdateQuery] is the one statement type whose source is at hand, so it
    stands for the [Query] interface wherever a statement is nested.  The
    logger ([Log], [LogFlag], [logSkip]) only writes to a sink outside the
    program and gives nothing back to the rendering or the fetch; it is left
    out. *)

From Stdlib Require Import String Ascii List ZArith Bool Lia Arith.
From Stdlib Require Import DecimalString.
Import ListNotations.

Open Scope string_scope.
Open Scope list_scope.

(** String concatenation, written like Go's [+] on strings. *)
Infix "^^" := String.append (at level 60, right associativity).

(** ** Go values *)

(** Dynamic values other than SQL nodes, and the values of type [error].
    [ExitCode] is an integer type that implements [error];
    [Errorf_v r] is [fmt.Errorf("%#v", r)]; [Errorf_w msg e] is an
    [fmt.Errorf] whose format ends in [%w] wrapping [e]. *)
Inductive scalar : Type :=
| SInt (z : Z)
| SStr (s : string)
| SBool (b : bool)
| SErr (e : error)
with error : Type :=
| ExitCode (c : Z)
| ErrorString (msg : string)
| ErrNoRows
| RuntimeError (msg : string)
| Errorf_v (r : scalar)
| Errorf_w (msg : string) (e : error).

(** Modelled from the spec: the peaceful-stop sentinel, a constant of type
    [ExitCode] whose declaration is outside the available sources. *)
Definition ExitPeacefully : Z := 0.

(** ** Strings *)

Definition question : ascii := "?"%char.

Fixpoint countQuestion (s : string) : nat :=
  match s with
  | EmptyString => 0
  | String c r => (if Ascii.eqb c question then 1 else 0) + countQuestion r
  end.

Definition itoa (n : nat) : string := NilEmpty.string_of_uint (Nat.to_uint n).

(** strings.ContainsAny(s, " \t") *)
Fixpoint containsSpaceOrTab (s : string) : bool :=
  match s with
  | EmptyString => false
  | String c r =>
      Ascii.eqb c " "%char || Ascii.eqb c (ascii_of_nat 9)
      || containsSpaceOrTab r
  end.

(** strings.Repeat *)
Fixpoint repeatString (s : string) (n : nat) : string :=
  match n with
  | O => ""
  | S k => s ^^ repeatString s k
  end.

Definition isEmpty (s : string) : bool := String.eqb s "".

Fixpoint inStrings (x : string) (l : list string) : bool :=
  match l with
  | [] => false
  | y :: r => String.eqb x y || inStrings x r
  end.

(** ** The sink: the builder and the argument slice passed to every
    AppendSQL *)

Definition Sink : Type := (string * list scalar)%type.

Definition WriteString (t : string) (s : Sink) : Sink := (fst s ^^ t, snd s).
Definition appendArg (v : scalar) (s : Sink) : Sink := (fst s, snd s ++ [v]).
Definition emptySink : Sink := ("", []).

(** Modelled from the spec: questionToDollarPlaceholders, the dialect
    placeholder rewrite; the [i]-th [?] marker of the text becomes [$i]
    (sequential numbered markers, counted from 1). *)
Fixpoint questionToDollarFrom (i : nat) (query : string) : string :=
  match query with
  | EmptyString => ""
  | String c r =>
      if Ascii.eqb c question
      then "$" ^^ itoa (S i) ^^ questionToDollarFrom (S i) r
      else String c (questionToDollarFrom i r)
  end.

Definition questionToDollarPlaceholders (query : string) : string :=
  questionToDollarFrom 0 query.

(** ** Descriptors, cursors and connections *)

(** Modelled from the spec: a typed table descriptor, the value a
    [BaseTable] holds (the descriptors are emitted by the code generator,
    outside the available sources). *)
Record TableInfo : Type := Build_TableInfo
  { Schema : string; Name : string; Alias : string }.

(** Modelled from the spec: a typed column descriptor: its name, the
    qualifier of its owning table (the table's alias, or its name when it has
    none) and its own alias. *)
Record ColumnInfo : Type := Build_ColumnInfo
  { colQualifier : string; colName : string; colAlias : string }.

Inductive ColumnMode : Type := colmodeInsert | colmodeUpdate.

(** Modelled from the spec: the Column cursor handed to a column mapper;
    the typed setters ([SetString], [SetInt64], ...) append a column and a
    literal. *)
Record Column : Type := Build_Column
  { mode : ColumnMode; assignments : list (ColumnInfo * scalar) }.

(** Modelled from the spec: the Row cursor handed to a row mapper: the
    fields and destinations registered so far and the read index.  The
    destinations are represented by the values they currently hold.  The open
    cursor [r.rows] lives in the [World] of the fetch, out of reach of the
    mapper. *)
Record Row : Type := Build_Row
  { fields : list ColumnInfo; dest : list scalar; index : nat }.

(** database/sql's [*sql.Rows]: for each remaining result row what [Scan]
    does with the destinations, the error [Next] meets after the last row,
    the error of [Close], and whether the cursor has been closed. *)
Record Rows : Type := Build_Rows
  { remaining : list (list scalar -> error + list scalar);
    tailErr : option error;
    lasterr : option error;
    closeErr : option error;
    closed : bool }.

(** A [context.Context], live or past its deadline. *)
Inductive GoContext : Type := ctxBackground | ctxExpired.

(** Modelled from the spec: the [DB] interface (the connection contract of
    section 6), as far as [FetchContext] uses it. *)
Record DB : Type := Build_DB
  { Query : string -> list scalar -> error + Rows;
    QueryContext :
      GoContext -> string -> list scalar -> error + Rows }.

Section Model.

(** The caller's variables, which the callbacks read and write. *)
Context {U : Type}.

(** ** Calls that return or panic *)

Inductive Res (A : Type) : Type :=
| Ok (a : A) (u : U)
| Panic (p : scalar) (u : U).
Arguments Ok {A} a u.
Arguments Panic {A} p u.

Definition M (A : Type) : Type := U -> Res A.

Definition ret {A : Type} (a : A) : M A := fun u => Ok a u.

Definition bind {A B : Type} (m : M A) (k : A -> M B) : M B :=
  fun u => match m u with
           | Ok a u' => k a u'
           | Panic p u' => Panic p u'
           end.

Definition panic {A : Type} (p : scalar) : M A := fun u => Panic p u.

Notation "x <- c1 ;; c2" := (bind c1 (fun x => c2))
  (at level 100, c1 at next level, right associativity).

Definition write (t : string) (s : Sink) : M Sink := ret (WriteString t s).

(** Calling a method on a nil interface value. *)
Definition nilDereference : scalar :=
  SErr (RuntimeError "invalid memory address or nil pointer dereference").

(** ** The expression tree *)

(** Modelled from the spec: the interfaces [Field], [Table], [Predicate],
    [Assignment] and [Query] and the structs [VariadicPredicate],
    [JoinTable] and [CTE] are declared outside the available sources; their
    shape follows section 3 and the tests.  [FunctionInfo],
    [FieldLiteral], [FieldAssignment] and [UpdateQuery] follow the source.
    A [*FunctionInfo] is a Field ([FieldFunction]) and a Table
    ([TableFunction]); in both places the pointer may be nil.
    [value] is an [interface{}] handed to the value-dispatch rule. *)

Inductive value : Type :=
| VNil
| VLit (v : scalar)
| VField (f : Field)
| VQuery (q : UpdateQuery)
with Field : Type :=
| FieldNil
| FieldLiteral (s : string)
| FieldColumn (c : ColumnInfo)
| FieldFunction (f : option FunctionInfo)
with FunctionInfo : Type :=
| Build_FunctionInfo (schema name alias : string) (arguments : list value)
with Assignment : Type :=
| AssignmentNil
| FieldAssignment (field : Field) (val : value)
with Predicate : Type :=
| CustomPredicate (format : string) (values : list value)
| PVariadic (p : VariadicPredicate)
with VariadicPredicate : Type :=
| Build_VariadicPredicate (toplevel : bool) (operator : string)
    (predicates : list Predicate)
with Table : Type :=
| TableNil
| TableBase (t : TableInfo)
| TableQuery (q : UpdateQuery) (alias : string)
| TableCTE (c : CTE)
| TableFunction (f : option FunctionInfo)
with JoinTable : Type :=
| Build_JoinTable (joinType : string) (table : Table)
    (onPredicates : VariadicPredicate)
with CTE : Type :=
| Build_CTE (name : string) (query : UpdateQuery)
with UpdateQuery : Type :=
| Build_UpdateQuery
    (nested : bool)
    (ctes : list CTE)
    (updateTable : option TableInfo)
    (assigns : list Assignment)
    (fromTable : Table)
    (joinTables : list JoinTable)
    (wherePredicate : VariadicPredicate)
    (returningFields : list Field)
    (db : option DB)
    (columnMapper : option (Column -> M Column))
    (rowMapper : option (Row -> M Row))
    (accumulator : option (M unit)).

(** *** Struct fields *)

Definition fnSchema (f : FunctionInfo) : string :=
  match f with Build_FunctionInfo s _ _ _ => s end.
Definition fnName (f : FunctionInfo) : string :=
  match f with Build_FunctionInfo _ n _ _ => n end.
Definition fnAlias (f : FunctionInfo) : string :=
  match f with Build_FunctionInfo _ _ a _ => a end.
Definition Arguments_ (f : FunctionInfo) : list value :=
  match f with Build_FunctionInfo _ _ _ l => l end.

Definition toplevel (p : VariadicPredicate) : bool :=
  match p with Build_VariadicPredicate t _ _ => t end.
Definition Operator (p : VariadicPredicate) : string :=
  match p with Build_VariadicPredicate _ o _ => o end.
Definition Predicates (p : VariadicPredicate) : list Predicate :=
  match p with Build_VariadicPredicate _ _ l => l end.

Definition JoinType (j : JoinTable) : string :=
  match j with Build_JoinTable t _ _ => t end.
Definition JoinedTable (j : JoinTable) : Table :=
  match j with Build_JoinTable _ t _ => t end.
Definition OnPredicates (j : JoinTable) : VariadicPredicate :=
  match j with Build_JoinTable _ _ p => p end.

Definition cteName (c : CTE) : string :=
  match c with Build_CTE n _ => n end.
Definition cteQuery (c : CTE) : UpdateQuery :=
  match c with Build_CTE _ q => q end.

Definition nested (q : UpdateQuery) : bool :=
  match q with Build_UpdateQuery x _ _ _ _ _ _ _ _ _ _ _ => x end.
Definition CTEs (q : UpdateQuery) : list CTE :=
  match q with Build_UpdateQuery _ x _ _ _ _ _ _ _ _ _ _ => x end.
Definition UpdateTable (q : UpdateQuery) : option TableInfo :=
  match q with Build_UpdateQuery _ _ x _ _ _ _ _ _ _ _ _ => x end.
Definition Assignments (q : UpdateQuery) : list Assignment :=
  match q with Build_UpdateQuery _ _ _ x _ _ _ _ _ _ _ _ => x end.
Definition FromTable (q : UpdateQuery) : Table :=
  match q with Build_UpdateQuery _ _ _ _ x _ _ _ _ _ _ _ => x end.
Definition JoinTables (q : UpdateQuery) : list JoinTable :=
  match q with Build_UpdateQuery _ _ _ _ _ x _ _ _ _ _ _ => x end.
Definition WherePredicate (q : UpdateQuery) : VariadicPredicate :=
  match q with Build_UpdateQuery _ _ _ _ _ _ x _ _ _ _ _ => x end.
Definition ReturningFields (q : UpdateQuery) : list Field :=
  match q with Build_UpdateQuery _ _ _ _ _ _ _ x _ _ _ _ => x end.
Definition QueryDB (q : UpdateQuery) : option DB :=
  match q with Build_UpdateQuery _ _ _ _ _ _ _ _ x _ _ _ => x end.
Definition ColumnMapper (q : UpdateQuery) : option (Column -> M Column) :=
  match q with Build_UpdateQuery _ _ _ _ _ _ _ _ _ x _ _ => x end.
Definition RowMapper (q : UpdateQuery) : option (Row -> M Row) :=
  match q with Build_UpdateQuery _ _ _ _ _ _ _ _ _ _ x _ => x end.
Definition Accumulator (q : UpdateQuery) : option (M unit) :=
  match q with Build_UpdateQuery _ _ _ _ _ _ _ _ _ _ _ x => x end.

(** The empty statement, [UpdateQuery{}]. *)
Definition emptyVariadic : VariadicPredicate :=
  Build_VariadicPredicate false "" [].

Definition emptyUpdateQuery : UpdateQuery :=
  Build_UpdateQuery false [] None [] TableNil [] emptyVariadic [] None
    None None None.

(** *** Copies with one field changed (Go's assignment to a field of a
    value receiver) *)

Definition set_nested (b : bool) (q : UpdateQuery) : UpdateQuery :=
  match q with
  | Build_UpdateQuery _ c t a f j w r d cm rm ac =>
      Build_UpdateQuery b c t a f j w r d cm rm ac
  end.

Definition set_ReturningFields (r : list Field) (q : UpdateQuery)
  : UpdateQuery :=
  match q with
  | Build_UpdateQuery n c t a f j w _ d cm rm ac =>
      Build_UpdateQuery n c t a f j w r d cm rm ac
  end.

Definition set_toplevel (b : bool) (p : VariadicPredicate)
  : VariadicPredicate :=
  match p with
  | Build_VariadicPredicate _ o l => Build_VariadicPredicate b o l
  end.

(** NestThis indicates to the UpdateQuery that it is nested. *)
Definition NestThis (q : UpdateQuery) : UpdateQuery := set_nested true q.

(** ** Rendering *)

Definition dquote : string := String (ascii_of_nat 34) EmptyString.

(** [for i, x := range l { if i > 0 { buf.WriteString(sep) }; f(x) }] *)
Definition rangeJoin {A : Type} (sep : string) (f : A -> Sink -> M Sink)
  : nat -> list A -> Sink -> M Sink :=
  fix go (i : nat) (l : list A) (s : Sink) : M Sink :=
    match l with
    | [] => ret s
    | x :: r =>
        s1 <- f x (if Nat.eqb i 0 then s else WriteString sep s) ;;
        go (S i) r s1
    end.

Definition foldM {A S : Type} (f : A -> S -> M S) : list A -> S -> M S :=
  fix go (l : list A) (st : S) : M S :=
    match l with
    | [] => ret st
    | x :: r => st1 <- f x st ;; go r st1
    end.

(** strings.Index(format, "?"): the text before the first [?] marker and
    the text after it, or [None] when there is no marker. *)
Fixpoint splitAtQuestion (format : string) : option (string * string) :=
  match format with
  | EmptyString => None
  | String c r =>
      if Ascii.eqb c question then Some ("", r)
      else match splitAtQuestion r with
           | Some (pre, post) => Some (String c pre, post)
           | None => None
           end
  end.

(** Modelled from the spec: expandValues, the helper that substitutes the
    [?] markers of a format, left to right, by the renderings of the values
    (the value-dispatch rule [f]); the format that is left when either the
    markers or the values run out is written as it is. *)
Definition expandValues (f : value -> Sink -> M Sink)
  : list value -> string -> Sink -> M Sink :=
  fix go (values : list value) (format : string) (s : Sink) : M Sink :=
    match values with
    | [] => write format s
    | v :: vs =>
        match splitAtQuestion format with
        | None => write format s
        | Some (pre, post) =>
            s1 <- f v (WriteString pre s) ;; go vs post s1
        end
    end.

(** Modelled from the spec: a table descriptor renders as its
    schema-qualified name. *)
Definition TableInfo_text (t : TableInfo) : string :=
  if isEmpty (Schema t) then Name t else Schema t ^^ "." ^^ Name t.

(** Modelled from the spec: a column renders as [qualifier.name] unless its
    qualifier is in the exclusion set (or empty), in which case it renders
    unqualified. *)
Definition ColumnInfo_text (c : ColumnInfo) (excluded : list string)
  : string :=
  if isEmpty (colQualifier c) || inStrings (colQualifier c) excluded
  then colName c
  else colQualifier c ^^ "." ^^ colName c.

(** The assignment a typed setter of the Column cursor records,
    [FieldAssignment{Field: column, Value: literal}], rendered. *)
Definition ColumnAssignment_AppendSQLExclude (a : ColumnInfo * scalar)
    (excluded : list string) (s : Sink) : M Sink :=
  let s1 := WriteString (ColumnInfo_text (fst a) excluded) s in
  let s2 := WriteString " = " s1 in
  ret (appendArg (snd a) (WriteString "?" s2)).

(** GetAlias of a Field; on a nil [*FunctionInfo] the method reads
    [f.Alias] through the nil pointer. *)
Definition Field_GetAlias (f : Field) : M string :=
  match f with
  | FieldNil => panic nilDereference
  | FieldLiteral _ => ret ""
  | FieldColumn c => ret (colAlias c)
  | FieldFunction None => panic nilDereference
  | FieldFunction (Some fi) => ret (fnAlias fi)
  end.

(** GetAlias of a Table; on a nil [*FunctionInfo] the method reads
    [f.Alias] through the nil pointer. *)
Definition Table_GetAlias (t : Table) : M string :=
  match t with
  | TableNil => panic nilDereference
  | TableBase b => ret (Alias b)
  | TableQuery _ a => ret a
  | TableCTE _ => ret ""
  | TableFunction None => panic nilDereference
  | TableFunction (Some fi) => ret (fnAlias fi)
  end.

Definition writeAlias (alias : string) (s : Sink) : Sink :=
  if isEmpty alias then s else WriteString alias (WriteString " AS " s).

(** Modelled from the spec: one entry of the WITH list.  [st] holds the
    names already rendered and the sink; a name is rendered once, the first
    entry opens the list with [WITH], the body is rendered nested. *)
Definition appendCTE (render : UpdateQuery -> Sink -> M Sink) (c : CTE)
    (st : list string * Sink) : M (list string * Sink) :=
  if inStrings (cteName c) (fst st) then ret st
  else
    let s0 := WriteString (match fst st with [] => "WITH " | _ => ", " end)
                (snd st) in
    s1 <- render (cteQuery c) (WriteString (cteName c ^^ " AS (") s0) ;;
    ret (fst st ++ [cteName c], WriteString ")" s1).

Definition appendTableCTE (render : UpdateQuery -> Sink -> M Sink)
    (t : Table) (st : list string * Sink) : M (list string * Sink) :=
  match t with
  | TableCTE c => appendCTE render c st
  | _ => ret st
  end.

(** Modelled from the spec: [appendSQLValue], the value-dispatch rule of
    section 4.1 (nil as [NULL], a literal as a marker and an argument, a
    Field by its own renderer, a statement nested and in parentheses), and
    the predicate, table and join renderers (sections 4.1 and 4.2, and
    TestJoinTable_AppendSQL), whose sources are missing.  The other
    functions of the block follow the source: [Field_AppendSQLExclude] for
    [FieldLiteral] and [*FunctionInfo], [FunctionInfo_render],
    [Assignment_AppendSQLExclude] and [UpdateQuery_render].  Where the Go
    code renders a modified copy ([v.NestThis()],
    [q.WherePredicate.toplevel = true]) the worker takes the modified field
    as an argument. *)
Fixpoint appendSQLValue (v : value) (excluded : list string) (s : Sink)
  {struct v} : M Sink :=
  match v with
  | VNil => write "NULL" s
  | VLit x => ret (appendArg x (WriteString "?" s))
  | VField f =>
      match f with
      | FieldNil => write "NULL" s
      | _ => Field_AppendSQLExclude f excluded s
      end
  | VQuery q =>
      s1 <- UpdateQuery_render true q (WriteString "(" s) ;;
      write ")" s1
  end

with Field_AppendSQLExclude (f : Field) (excluded : list string) (s : Sink)
  {struct f} : M Sink :=
  match f with
  | FieldNil => panic nilDereference
  | FieldLiteral t => write t s
  | FieldColumn c => write (ColumnInfo_text c excluded) s
  | FieldFunction None => ret s
  | FieldFunction (Some fi) => FunctionInfo_render fi excluded s
  end

with FunctionInfo_render (f : FunctionInfo) (excluded : list string)
    (s : Sink) {struct f} : M Sink :=
  match f with
  | Build_FunctionInfo schema name _ arguments =>
      let format :=
        if isEmpty schema then ""
        else if containsSpaceOrTab schema then dquote ^^ schema ^^ dquote ^^ "."
             else schema ^^ "." in
      let format :=
        match length arguments with
        | O => format ^^ name ^^ "()"
        | S n => format ^^ name ^^ "(?" ^^ repeatString ", ?" n ^^ ")"
        end in
      expandValues (fun v => appendSQLValue v excluded) arguments format s
  end

with Assignment_AppendSQLExclude (a : Assignment) (excluded : list string)
    (s : Sink) {struct a} : M Sink :=
  match a with
  | AssignmentNil => panic nilDereference
  | FieldAssignment field val =>
      s1 <- match field with
            | FieldNil => write "NULL" s
            | _ => Field_AppendSQLExclude field excluded s
            end ;;
      appendSQLValue val excluded (WriteString " = " s1)
  end

with Predicate_AppendSQLExclude (p : Predicate) (excluded : list string)
    (s : Sink) {struct p} : M Sink :=
  match p with
  | CustomPredicate format values =>
      expandValues (fun v => appendSQLValue v excluded) values format s
  | PVariadic vp => VariadicPredicate_render false vp excluded s
  end

with VariadicPredicate_render (top : bool) (p : VariadicPredicate)
    (excluded : list string) (s : Sink) {struct p} : M Sink :=
  match p with
  | Build_VariadicPredicate _ operator predicates =>
      match predicates with
      | [] => ret s
      | [p1] => Predicate_AppendSQLExclude p1 excluded s
      | _ =>
          let op := if isEmpty operator then "AND" else operator in
          s1 <- rangeJoin (" " ^^ op ^^ " ")
                  (fun x => Predicate_AppendSQLExclude x excluded) 0
                  predicates (if top then s else WriteString "(" s) ;;
          ret (if top then s1 else WriteString ")" s1)
      end
  end

with Table_AppendSQL (t : Table) (s : Sink) {struct t} : M Sink :=
  match t with
  | TableNil => panic nilDereference
  | TableBase b => write (TableInfo_text b) s
  | TableQuery q _ => UpdateQuery_render (nested q) q s
  | TableCTE c => write (cteName c) s
  | TableFunction None => ret s
  | TableFunction (Some fi) => FunctionInfo_render fi [] s
  end

with JoinTable_AppendSQL (j : JoinTable) (s : Sink) {struct j} : M Sink :=
  match j with
  | Build_JoinTable joinType table onPredicates =>
      let s1 := WriteString (if isEmpty joinType then "JOIN" else joinType) s in
      let s2 := WriteString " " s1 in
      s3 <- match table with
            | TableNil => write "NULL" s2
            | TableQuery q alias =>
                s' <- UpdateQuery_render true q (WriteString "(" s2) ;;
                ret (writeAlias alias (WriteString ")" s'))
            | _ =>
                s' <- Table_AppendSQL table s2 ;;
                alias <- Table_GetAlias table ;;
                ret (writeAlias alias s')
            end ;;
      match Predicates onPredicates with
      | [] => ret s3
      | _ => VariadicPredicate_render true onPredicates []
               (WriteString " ON " s3)
      end
  end

with UpdateQuery_render (nest : bool) (q : UpdateQuery) (s : Sink)
  {struct q} : M Sink :=
  match q with
  | Build_UpdateQuery _ ctes updateTable assigns fromTable joinTables
      wherePredicate returningFields _ columnMapper _ _ =>
      (* ColumnMapper *)
      mapped <- match columnMapper with
                | Some mapper =>
                    col <- mapper (Build_Column colmodeUpdate []) ;;
                    ret (Some (assignments col))
                | None => ret None
                end ;;
      (* WITH *)
      s1 <- (if nest then ret s
             else
               st1 <- foldM (appendCTE (UpdateQuery_render true)) ctes
                        ([], s) ;;
               st2 <- appendTableCTE (UpdateQuery_render true) fromTable st1 ;;
               st3 <- foldM (fun j =>
                               appendTableCTE (UpdateQuery_render true)
                                 (JoinedTable j)) joinTables st2 ;;
               ret (match fst st3 with
                    | [] => snd st3
                    | _ => WriteString " " (snd st3)
                    end)) ;;
      (* UPDATE *)
      let s2 := WriteString "UPDATE " s1 in
      let s3 :=
        match updateTable with
        | None => WriteString "NULL" s2
        | Some t => writeAlias (Alias t) (WriteString (TableInfo_text t) s2)
        end in
      let excludedTableQualifiers :=
        match updateTable with
        | None => []
        | Some t => if isEmpty (Alias t) then [Name t] else [Alias t]
        end in
      (* SET *)
      s4 <- match mapped with
            | Some l =>
                match l with
                | [] => ret s3
                | _ => rangeJoin ", "
                         (fun a => ColumnAssignment_AppendSQLExclude a
                                     excludedTableQualifiers) 0 l
                         (WriteString " SET " s3)
                end
            | None =>
                match assigns with
                | [] => ret s3
                | _ => rangeJoin ", "
                         (fun a => Assignment_AppendSQLExclude a
                                     excludedTableQualifiers) 0 assigns
                         (WriteString " SET " s3)
                end
            end ;;
      (* FROM *)
      s5 <- match fromTable with
            | TableNil => ret s4
            | TableQuery v alias =>
                s' <- UpdateQuery_render true v
                        (WriteString "(" (WriteString " FROM " s4)) ;;
                ret (writeAlias alias (WriteString ")" s'))
            | _ =>
                s' <- Table_AppendSQL fromTable (WriteString " FROM " s4) ;;
                alias <- Table_GetAlias fromTable ;;
                ret (writeAlias alias s')
            end ;;
      (* JOIN *)
      s6 <- match joinTables with
            | [] => ret s5
            | _ => rangeJoin " " JoinTable_AppendSQL 0 joinTables
                     (WriteString " " s5)
            end ;;
      (* WHERE *)
      s7 <- match Predicates wherePredicate with
            | [] => ret s6
            | _ => VariadicPredicate_render true wherePredicate []
                     (WriteString " WHERE " s6)
            end ;;
      (* RETURNING *)
      s8 <- match returningFields with
            | [] => ret s7
            | _ => rangeJoin ", "
                     (fun field s0 =>
                        match field with
                        | FieldNil => write "NULL" s0
                        | _ =>
                            s' <- Field_AppendSQLExclude field [] s0 ;;
                            alias <- Field_GetAlias field ;;
                            ret (writeAlias alias s')
                        end) 0 returningFields
                     (WriteString " RETURNING " s7)
            end ;;
      if nest then ret s8
      else ret (questionToDollarPlaceholders (fst s8), snd s8)
  end.

(** *** The methods, under their Go names *)

(** UpdateQuery.AppendSQL: the receiver's own [nested] flag decides. *)
Definition UpdateQuery_AppendSQL (q : UpdateQuery) (s : Sink) : M Sink :=
  UpdateQuery_render (nested q) q s.

(** UpdateQuery.ToSQL: the deferred function recovers a panic of the
    rendering; [query] then still holds its zero value and [args] is the
    one-element slice of the recovered value. *)
Definition ToSQL (q : UpdateQuery) (u : U) : (string * list scalar) * U :=
  match UpdateQuery_AppendSQL q emptySink u with
  | Ok s u' => (s, u')
  | Panic r u' => (("", [r]), u')
  end.

(** VariadicPredicate.AppendSQLExclude *)
Definition VariadicPredicate_AppendSQLExclude (p : VariadicPredicate)
    (excluded : list string) (s : Sink) : M Sink :=
  VariadicPredicate_render (toplevel p) p excluded s.

(** (f *FunctionInfo) AppendSQLExclude, on a pointer that may be nil. *)
Definition FunctionInfo_AppendSQLExclude (f : option FunctionInfo)
    (excluded : list string) (s : Sink) : M Sink :=
  match f with
  | None => ret s
  | Some fi => FunctionInfo_render fi excluded s
  end.

(** (f *FunctionInfo) AppendSQL *)
Definition FunctionInfo_AppendSQL (f : option FunctionInfo) (s : Sink)
  : M Sink :=
  FunctionInfo_AppendSQLExclude f [] s.

(** Functionf creates a new FunctionInfo. *)
Definition Functionf (name : string) (args : list value)
  : option FunctionInfo :=
  Some (Build_FunctionInfo "" name "" args).

(** FieldLiteral.GetName *)
Definition FieldLiteral_GetName (s : string) : string := s.

(** Fields.AppendSQLExclude *)
Definition Fields_AppendSQLExclude (fs : list Field)
    (excluded : list string) (s : Sink) : M Sink :=
  rangeJoin ", "
    (fun field s0 =>
       match field with
       | FieldNil => write "NULL" s0
       | _ => Field_AppendSQLExclude field excluded s0
       end) 0 fs s.

(** Fields.AppendSQLExcludeWithAlias *)
Definition Fields_AppendSQLExcludeWithAlias (fs : list Field)
    (excluded : list string) (s : Sink) : M Sink :=
  rangeJoin ", "
    (fun field s0 =>
       match field with
       | FieldNil => write "NULL" s0
       | _ =>
           s' <- Field_AppendSQLExclude field excluded s0 ;;
           alias <- Field_GetAlias field ;;
           ret (writeAlias alias s')
       end) 0 fs s.

(** Assignments.AppendSQLExclude *)
Definition Assignments_AppendSQLExclude (l : list Assignment)
    (excluded : list string) (s : Sink) : M Sink :=
  rangeJoin ", " (fun a => Assignment_AppendSQLExclude a excluded) 0 l s.

(** The assignments a column mapper leaves in the Column cursor. *)
Definition ColumnAssignments (l : list (ColumnInfo * scalar))
  : list Assignment :=
  map (fun a => FieldAssignment (FieldColumn (fst a)) (VLit (snd a))) l.

(** Modelled from the spec: JoinTables.AppendSQL, the joins space-joined. *)
Definition JoinTables_AppendSQL (l : list JoinTable) (s : Sink) : M Sink :=
  rangeJoin " " JoinTable_AppendSQL 0 l s.

(** Modelled from the spec: appendCTEs, the WITH prefix: the statement's
    own CTEs in declaration order, then the CTEs used as FROM or JOIN tables,
    each name once, each body rendered nested. *)
Definition appendCTEs (ctes : list CTE) (fromTable : Table)
    (joinTables : list JoinTable) (s : Sink) : M Sink :=
  st1 <- foldM (appendCTE (UpdateQuery_render true)) ctes ([], s) ;;
  st2 <- appendTableCTE (UpdateQuery_render true) fromTable st1 ;;
  st3 <- foldM (fun j => appendTableCTE (UpdateQuery_render true)
                           (JoinedTable j)) joinTables st2 ;;
  ret (match fst st3 with
       | [] => snd st3
       | _ => WriteString " " (snd st3)
       end).

(** Lines 60-64: the column mapper, run on a fresh update-mode cursor. *)
Definition runColumnMapper (q : UpdateQuery)
  : M (option (list (ColumnInfo * scalar))) :=
  match ColumnMapper q with
  | Some mapper =>
      col <- mapper (Build_Column colmodeUpdate []) ;;
      ret (Some (assignments col))
  | None => ret None
  end.

(** The qualifier exclusion set of the SET clause (lines 71-84). *)
Definition excludedTableQualifiers (q : UpdateQuery) : list string :=
  match UpdateTable q with
  | None => []
  | Some t => if isEmpty (Alias t) then [Name t] else [Alias t]
  end.

(** ** Execution: FetchContext *)

(** What a fetch does to its surroundings, in order. *)
Inductive Event : Type :=
| EvMapper
| EvAccumulator
| EvQuery (sql : string) (args : list scalar)
| EvScan (rowcount : nat)
| EvClose.

(** The caller's variables, the cursor [r.rows] once the query has been
    issued, and the calls made so far. *)
Record World : Type := Build_World
  { store : U; cursor : option Rows; trace : list Event }.

Definition logEvent (e : Event) (w : World) : World :=
  Build_World (store w) (cursor w) (trace w ++ [e]).

Definition setStore (u : U) (w : World) : World :=
  Build_World u (cursor w) (trace w).

Definition setCursor (c : option Rows) (w : World) : World :=
  Build_World (store w) c (trace w).

Definition closeRows (rs : Rows) : Rows :=
  Build_Rows (remaining rs) (tailErr rs) (lasterr rs) (closeErr rs) true.

(** rows.Close() *)
Definition rowsClose (w : World) : option error * World :=
  match cursor w with
  | None => (None, logEvent EvClose w)
  | Some rs =>
      (closeErr rs, logEvent EvClose (setCursor (Some (closeRows rs)) w))
  end.

(** rows.Err() *)
Definition rowsErr (w : World) : option error :=
  match cursor w with
  | None => None
  | Some rs => lasterr rs
  end.

(** rows.Next() moving past one row, and rows.Next() finding no row. *)
Definition rowsAdvance (rest : list (list scalar -> error + list scalar))
    (w : World) : World :=
  match cursor w with
  | None => w
  | Some rs =>
      setCursor
        (Some (Build_Rows rest (tailErr rs) (lasterr rs) (closeErr rs)
                 (closed rs))) w
  end.

Definition rowsExhausted (w : World) : World :=
  match cursor w with
  | None => w
  | Some rs =>
      setCursor
        (Some (Build_Rows [] (tailErr rs) (tailErr rs) (closeErr rs)
                 (closed rs))) w
  end.

Definition cursorClosed (w : World) : bool :=
  match cursor w with
  | None => false
  | Some rs => closed rs
  end.

(** How the body of FetchContext ends: by a [return], or by a panic that
    unwinds while the named result [err] holds a value. *)
Inductive Outcome : Type :=
| Returned (err : option error) (w : World)
| Panicked (r : scalar) (err : option error) (w : World).

(** How the [for r.rows.Next()] loop ends: the loop is left (no row is
    left, or [break]), the function returns from inside it, or a callback
    panics. *)
Inductive LoopOutcome : Type :=
| LoopLeft (rowcount : nat) (w : World)
| LoopReturn (err : error) (w : World)
| LoopPanic (r : scalar) (w : World).

(** Lines 360-396.  [pending] are the rows the cursor still holds. *)
Fixpoint iterate (mapper : Row -> M Row) (acc : option (M unit))
    (pending : list (list scalar -> error + list scalar)) (r : Row)
    (rowcount : nat) (w : World) {struct pending} : LoopOutcome :=
  match pending with
  | [] => LoopLeft rowcount (rowsExhausted w)
  | scan :: rest =>
      let w := rowsAdvance rest w in
      let rowcount := S rowcount in
      let w := logEvent (EvScan rowcount) w in
      match scan (dest r) with
      | inl e =>
          LoopReturn
            (Errorf_w "Please check if your mapper function is correct" e) w
      | inr d =>
          let r := Build_Row (fields r) d 0 in
          let w := logEvent EvMapper w in
          match mapper r (store w) with
          | Panic p u => LoopPanic p (setStore u w)
          | Ok r u =>
              let w := setStore u w in
              match acc with
              | None => LoopLeft rowcount w
              | Some accumulate =>
                  let w := logEvent EvAccumulator w in
                  match accumulate (store w) with
                  | Panic p u => LoopPanic p (setStore u w)
                  | Ok _ u => iterate mapper acc rest r rowcount (setStore u w)
                  end
              end
          end
      end
  end.

(** Lines 357-403, between [defer r.rows.Close()] and the end. *)
Definition afterQuery (q : UpdateQuery) (mapper : Row -> M Row) (r : Row)
    (rs : Rows) (w : World) : Outcome :=
  match dest r with
  | [] => Returned None w
  | _ =>
      match iterate mapper (Accumulator q) (remaining rs) r 0 w with
      | LoopReturn e w => Returned (Some e) w
      | LoopPanic p w => Panicked p None w
      | LoopLeft rowcount w =>
          match rowcount, Accumulator q with
          | O, None => Returned (Some ErrNoRows) w
          | _, _ =>
              match rowsClose w with
              | (Some e, w) => Returned (Some e) w
              | (None, w) => Returned (rowsErr w) w
              end
          end
      end
  end.

(** [defer r.rows.Close()]: runs when the function returns or unwinds; its
    result is dropped. *)
Definition deferClose (o : Outcome) : Outcome :=
  match o with
  | Returned err w => Returned err (snd (rowsClose w))
  | Panicked p err w => Panicked p err (snd (rowsClose w))
  end.

(** Lines 348-352: [db.Query] or [db.QueryContext]. *)
Definition issueQuery (ctx : option GoContext) (db : DB) (sql : string)
    (args : list scalar) : error + Rows :=
  match ctx with
  | None => Query db sql args
  | Some c => QueryContext db c sql args
  end.

(** Lines 341-403.  While a callback or the rendering panics, [err] holds
    nil: nothing has assigned it, or the last assignment was a [Scan] that
    succeeded. *)
Definition fetchBody (q : UpdateQuery) (mapper : Row -> M Row)
    (ctx : option GoContext) (db : DB) (w : World) : Outcome :=
  let w := logEvent EvMapper w in
  match mapper (Build_Row [] [] 0) (store w) with
  | Panic p u => Panicked p None (setStore u w)
  | Ok r u =>
      let w := setStore u w in
      let q := set_ReturningFields (map FieldColumn (fields r)) q in
      match UpdateQuery_AppendSQL q emptySink (store w) with
      | Panic p u => Panicked p None (setStore u w)
      | Ok tmp u =>
          let w := logEvent (EvQuery (fst tmp) (snd tmp)) (setStore u w) in
          match issueQuery ctx db (fst tmp) (snd tmp) with
          | inl err => Returned (Some err) w
          | inr rs =>
              deferClose (afterQuery q mapper r rs (setCursor (Some rs) w))
          end
      end
  end.

(** The deferred function of lines 304-317. *)
Definition recoverFetch (o : Outcome) : option error * World :=
  match o with
  | Returned err w => (err, w)
  | Panicked r err w =>
      match r with
      | SErr (ExitCode v) =>
          if Z.eqb v ExitPeacefully then (err, w) else (Some (ExitCode v), w)
      | SErr v => (Some v, w)
      | _ => (Some (Errorf_v r), w)
      end
  end.

(** FetchContext will run UpdateQuery with the given DB and context. *)
Definition FetchContext (q : UpdateQuery) (ctx : option GoContext)
    (db : option DB) (w : World) : option error * World :=
  match match db with Some d => Some d | None => QueryDB q end with
  | None => (Some (ErrorString "DB cannot be nil"), w)
  | Some db =>
      match RowMapper q with
      | None =>
          (Some (ErrorString
                   "cannot call Fetch/FetchContext without a mapper"), w)
      | Some mapper => recoverFetch (fetchBody q mapper ctx db w)
      end
  end.

(** Fetch will run UpdateQuery with the given DB. *)
Definition Fetch (q : UpdateQuery) (db : option DB) (w : World)
  : option error * World :=
  FetchContext q None db w.

(** The fetch has got as far as an open cursor: there is a connection and a
    row mapper, the discovery invocation returned the Row [r], the statement
    rendered to [tmp], and the connection answered the query with the
    cursor [rs]. *)
Definition reachesCursor (q : UpdateQuery) (ctx : option GoContext)
    (db0 : option DB) (w : World) (mapper : Row -> M Row) (r : Row)
    (tmp : Sink) (rs : Rows) (u2 : U) : Prop :=
  exists db u1,
    match db0 with Some d => Some d | None => QueryDB q end = Some db /\
    RowMapper q = Some mapper /\
    mapper (Build_Row [] [] 0) (store w) = Ok r u1 /\
    UpdateQuery_AppendSQL
      (set_ReturningFields (map FieldColumn (fields r)) q) emptySink u1
    = Ok tmp u2 /\
    issueQuery ctx db (fst tmp) (snd tmp) = inr rs.

(** The world in which the row loop starts. *)
Definition cursorWorld (w : World) (tmp : Sink) (rs : Rows) (u2 : U)
  : World :=
  Build_World u2 (Some rs)
    (trace w ++ [EvMapper; EvQuery (fst tmp) (snd tmp)]).

Definition loopWorld (o : LoopOutcome) : World :=
  match o with
  | LoopLeft _ w => w
  | LoopReturn _ w => w
  | LoopPanic _ w => w
  end.

Definition outcomeWorld (o : Outcome) : World :=
  match o with
  | Returned _ w => w
  | Panicked _ _ w => w
  end.

Definition isMapperCall (e : Event) : bool :=
  match e with EvMapper => true | _ => false end.

Definition isQueryCall (e : Event) : bool :=
  match e with EvQuery _ _ => true | _ => false end.

Definition isAccumulatorCall (e : Event) : bool :=
  match e with EvAccumulator => true | _ => false end.

(** The calls of one row of an accumulating fetch, and of all [n] rows
    after row [k]. *)
Definition rowEvents (i : nat) : list Event :=
  [EvScan i; EvMapper; EvAccumulator].

Definition rowsEvents (k n : nat) : list Event :=
  flat_map rowEvents (seq (S k) n).

(** Every [Scan] of the cursor succeeds, and the callbacks return. *)
Definition scansSucceed (rs : Rows) : Prop :=
  forall scan, In scan (remaining rs) ->
  forall d, exists d', scan d = inr d'.

Definition mapperTotal (mapper : Row -> M Row) : Prop :=
  forall r u, exists r' u', mapper r u = Ok r' u'.

Definition accumulatorTotal (acc : option (M unit)) : Prop :=
  forall a, acc = Some a -> forall u, exists u', a u = Ok tt u'.

(** ** Properties of statement trees *)

Definition All {A : Type} (P : A -> Prop) (l : list A) : Prop :=
  fold_right (fun x acc => P x /\ acc) True l.

(** [everyQuery P q]: [P] holds of [q] and of every statement nested in it
    (as a value, a derived table or a CTE body). *)
Fixpoint everyQuery_value (P : UpdateQuery -> Prop) (v : value)
  {struct v} : Prop :=
  match v with
  | VNil => True
  | VLit _ => True
  | VField f => everyQuery_Field P f
  | VQuery q => everyQuery P q
  end
with everyQuery_Field (P : UpdateQuery -> Prop) (f : Field)
  {struct f} : Prop :=
  match f with
  | FieldFunction (Some fi) => everyQuery_FunctionInfo P fi
  | _ => True
  end
with everyQuery_FunctionInfo (P : UpdateQuery -> Prop) (f : FunctionInfo)
  {struct f} : Prop :=
  match f with
  | Build_FunctionInfo _ _ _ arguments => All (everyQuery_value P) arguments
  end
with everyQuery_Assignment (P : UpdateQuery -> Prop) (a : Assignment)
  {struct a} : Prop :=
  match a with
  | AssignmentNil => True
  | FieldAssignment field val =>
      everyQuery_Field P field /\ everyQuery_value P val
  end
with everyQuery_Predicate (P : UpdateQuery -> Prop) (p : Predicate)
  {struct p} : Prop :=
  match p with
  | CustomPredicate _ values => All (everyQuery_value P) values
  | PVariadic vp => everyQuery_VariadicPredicate P vp
  end
with everyQuery_VariadicPredicate (P : UpdateQuery -> Prop)
    (p : VariadicPredicate) {struct p} : Prop :=
  match p with
  | Build_VariadicPredicate _ _ predicates =>
      All (everyQuery_Predicate P) predicates
  end
with everyQuery_Table (P : UpdateQuery -> Prop) (t : Table)
  {struct t} : Prop :=
  match t with
  | TableQuery q _ => everyQuery P q
  | TableCTE c => everyQuery_CTE P c
  | TableFunction None => True
  | TableFunction (Some fi) => everyQuery_FunctionInfo P fi
  | _ => True
  end
with everyQuery_JoinTable (P : UpdateQuery -> Prop) (j : JoinTable)
  {struct j} : Prop :=
  match j with
  | Build_JoinTable _ table onPredicates =>
      everyQuery_Table P table /\ everyQuery_VariadicPredicate P onPredicates
  end
with everyQuery_CTE (P : UpdateQuery -> Prop) (c : CTE) {struct c} : Prop :=
  match c with
  | Build_CTE _ query => everyQuery P query
  end
with everyQuery (P : UpdateQuery -> Prop) (q : UpdateQuery)
  {struct q} : Prop :=
  match q with
  | Build_UpdateQuery _ ctes _ assigns fromTable joinTables wherePredicate
      returningFields _ _ _ _ =>
      P q /\
      All (everyQuery_CTE P) ctes /\
      All (everyQuery_Assignment P) assigns /\
      everyQuery_Table P fromTable /\
      All (everyQuery_JoinTable P) joinTables /\
      everyQuery_VariadicPredicate P wherePredicate /\
      All (everyQuery_Field P) returningFields
  end.

(** No entry of the SET list is a nil Assignment, no entry of the
    RETURNING list is a nil [*FunctionInfo], and neither the FROM table nor
    a JOIN table is a nil [*FunctionInfo]: the calls that dereference
    nil. *)
Definition isNilAssignment (a : Assignment) : bool :=
  match a with AssignmentNil => true | _ => false end.

Definition isNilFunction (f : Field) : bool :=
  match f with FieldFunction None => true | _ => false end.

Definition isNilTable (t : Table) : bool :=
  match t with TableFunction None => true | _ => false end.

Definition nilSafe (q : UpdateQuery) : Prop :=
  existsb isNilAssignment (Assignments q) = false /\
  existsb isNilFunction (ReturningFields q) = false /\
  isNilTable (FromTable q) = false /\
  existsb (fun j => isNilTable (JoinedTable j)) (JoinTables q) = false.

(** The declarative binding style: no column mapper is set. *)
Definition declarative (q : UpdateQuery) : Prop := ColumnMapper q = None.

(** The column mapper, if there is one, returns (it does not panic). *)
Definition mapperReturns (q : UpdateQuery) : Prop :=
  forall m, ColumnMapper q = Some m ->
  forall c u, exists c' u', m c u = Ok c' u'.

(** The column mapper, if there is one, leaves the caller's variables as
    they are. *)
Definition resStore {A : Type} (r : Res A) : U :=
  match r with Ok _ u => u | Panic _ u => u end.

Definition mapperKeepsStore (q : UpdateQuery) : Prop :=
  forall m, ColumnMapper q = Some m ->
  forall c u, resStore (m c u) = u.

(** ** The literal values of a statement, in rendering order

    A column mapper decides the literals of its SET clause when it is
    invoked, so the literal values of a statement are collected by a
    computation that invokes the column mappers where [AppendSQL] does. *)

Definition appendM (a b : M (list scalar)) : M (list scalar) :=
  l1 <- a ;; l2 <- b ;; ret (l1 ++ l2).

Definition concatM {A : Type} (lit : A -> M (list scalar))
  : list A -> M (list scalar) :=
  fix go (l : list A) : M (list scalar) :=
    match l with
    | [] => ret []
    | x :: r => appendM (lit x) (go r)
    end.

(** One entry of the WITH list: from the names rendered so far, the names
    after it and the literals it adds (none when its name has been rendered
    already). *)
Definition literals_CTE (lits : UpdateQuery -> M (list scalar)) (c : CTE)
    (names : list string) : M (list string * list scalar) :=
  if inStrings (cteName c) names then ret (names, [])
  else l <- lits (cteQuery c) ;; ret (names ++ [cteName c], l).

Definition literals_TableCTE (lits : UpdateQuery -> M (list scalar))
    (t : Table) (names : list string) : M (list string * list scalar) :=
  match t with
  | TableCTE c => literals_CTE lits c names
  | _ => ret (names, [])
  end.

Definition stepsM {A : Type}
    (step : A -> list string -> M (list string * list scalar))
  : list A -> list string -> M (list string * list scalar) :=
  fix go (l : list A) (names : list string) :=
    match l with
    | [] => ret (names, [])
    | x :: r =>
        st1 <- step x names ;;
        st2 <- go r (fst st1) ;;
        ret (fst st2, snd st1 ++ snd st2)
    end.

Fixpoint literals_value (v : value) {struct v} : M (list scalar) :=
  match v with
  | VNil => ret []
  | VLit x => ret [x]
  | VField f => literals_Field f
  | VQuery q => literals_render true q
  end
with literals_Field (f : Field) {struct f} : M (list scalar) :=
  match f with
  | FieldFunction (Some fi) => literals_FunctionInfo fi
  | _ => ret []
  end
with literals_FunctionInfo (f : FunctionInfo) {struct f}
  : M (list scalar) :=
  match f with
  | Build_FunctionInfo _ _ _ arguments => concatM literals_value arguments
  end
with literals_Assignment (a : Assignment) {struct a} : M (list scalar) :=
  match a with
  | AssignmentNil => ret []
  | FieldAssignment field val =>
      appendM (literals_Field field) (literals_value val)
  end
with literals_Predicate (p : Predicate) {struct p} : M (list scalar) :=
  match p with
  | CustomPredicate _ values => concatM literals_value values
  | PVariadic vp => literals_VariadicPredicate vp
  end
with literals_VariadicPredicate (p : VariadicPredicate) {struct p}
  : M (list scalar) :=
  match p with
  | Build_VariadicPredicate _ _ predicates =>
      concatM literals_Predicate predicates
  end
with literals_Table (t : Table) {struct t} : M (list scalar) :=
  match t with
  | TableQuery q _ => literals_render true q
  | TableFunction (Some fi) => literals_FunctionInfo fi
  | _ => ret []
  end
with literals_JoinTable (j : JoinTable) {struct j} : M (list scalar) :=
  match j with
  | Build_JoinTable _ table onPredicates =>
      appendM (literals_Table table)
        (literals_VariadicPredicate onPredicates)
  end
with literals_render (nest : bool) (q : UpdateQuery) {struct q}
  : M (list scalar) :=
  match q with
  | Build_UpdateQuery _ ctes _ assigns fromTable joinTables wherePredicate
      returningFields _ columnMapper _ _ =>
      mapped <- match columnMapper with
                | Some mapper =>
                    col <- mapper (Build_Column colmodeUpdate []) ;;
                    ret (Some (assignments col))
                | None => ret None
                end ;;
      appendM
        (if nest then ret []
         else
           st1 <- stepsM (literals_CTE (literals_render true)) ctes [] ;;
           st2 <- literals_TableCTE (literals_render true) fromTable
                    (fst st1) ;;
           st3 <- stepsM (fun j => literals_TableCTE (literals_render true)
                                     (JoinedTable j)) joinTables (fst st2) ;;
           ret (snd st1 ++ snd st2 ++ snd st3))
        (appendM
           match mapped with
           | Some l => ret (map snd l)
           | None => concatM literals_Assignment assigns
           end
           (appendM (literals_Table fromTable)
              (appendM (concatM literals_JoinTable joinTables)
                 (appendM (literals_VariadicPredicate wherePredicate)
                    (concatM literals_Field returningFields)))))
  end.


(** ** Text without stray markers *)

Definition noMarker (s : string) : bool := Nat.eqb (countQuestion s) 0.

Definition noMarker_TableInfo (t : TableInfo) : bool :=
  noMarker (Schema t) && noMarker (Name t) && noMarker (Alias t).

Definition noMarker_ColumnInfo (c : ColumnInfo) : bool :=
  noMarker (colQualifier c) && noMarker (colName c) && noMarker (colAlias c).

(** [hygienic]: the names, aliases, keywords and literal SQL text of the
    tree hold no [?], and the format of every predicate has one [?] marker
    per value. *)
Fixpoint hygienic_value (v : value) {struct v} : bool :=
  match v with
  | VNil => true
  | VLit _ => true
  | VField f => hygienic_Field f
  | VQuery q => hygienic q
  end
with hygienic_Field (f : Field) {struct f} : bool :=
  match f with
  | FieldNil => true
  | FieldLiteral t => noMarker t
  | FieldColumn c => noMarker_ColumnInfo c
  | FieldFunction None => true
  | FieldFunction (Some fi) => hygienic_FunctionInfo fi
  end
with hygienic_FunctionInfo (f : FunctionInfo) {struct f} : bool :=
  match f with
  | Build_FunctionInfo schema name alias arguments =>
      noMarker schema && noMarker name && noMarker alias
      && forallb hygienic_value arguments
  end
with hygienic_Assignment (a : Assignment) {struct a} : bool :=
  match a with
  | AssignmentNil => true
  | FieldAssignment field val => hygienic_Field field && hygienic_value val
  end
with hygienic_Predicate (p : Predicate) {struct p} : bool :=
  match p with
  | CustomPredicate format values =>
      Nat.eqb (countQuestion format) (length values)
      && forallb hygienic_value values
  | PVariadic vp => hygienic_VariadicPredicate vp
  end
with hygienic_VariadicPredicate (p : VariadicPredicate) {struct p} : bool :=
  match p with
  | Build_VariadicPredicate _ operator predicates =>
      noMarker operator && forallb hygienic_Predicate predicates
  end
with hygienic_Table (t : Table) {struct t} : bool :=
  match t with
  | TableNil => true
  | TableBase b => noMarker_TableInfo b
  | TableQuery q alias => noMarker alias && hygienic q
  | TableCTE c => hygienic_CTE c
  | TableFunction None => true
  | TableFunction (Some fi) => hygienic_FunctionInfo fi
  end
with hygienic_JoinTable (j : JoinTable) {struct j} : bool :=
  match j with
  | Build_JoinTable joinType table onPredicates =>
      noMarker joinType && hygienic_Table table
      && hygienic_VariadicPredicate onPredicates
  end
with hygienic_CTE (c : CTE) {struct c} : bool :=
  match c with
  | Build_CTE name query => noMarker name && hygienic query
  end
with hygienic (q : UpdateQuery) {struct q} : bool :=
  match q with
  | Build_UpdateQuery _ ctes updateTable assigns fromTable joinTables
      wherePredicate returningFields _ _ _ _ =>
      match updateTable with
      | None => true
      | Some t => noMarker_TableInfo t
      end
      && forallb hygienic_CTE ctes
      && forallb hygienic_Assignment assigns
      && hygienic_Table fromTable
      && forallb hygienic_JoinTable joinTables
      && hygienic_VariadicPredicate wherePredicate
      && forallb hygienic_Field returningFields
  end.

(** The table of a FROM or JOIN clause, as both render it: a nil table as
    [NULL] (JOIN only; FROM omits the clause), a statement nested and in
    parentheses, any other table by its own AppendSQL; then the alias. *)
Definition tableSource (t : Table) (s : Sink) : M Sink :=
  match t with
  | TableNil => write "NULL" s
  | TableQuery q alias =>
      s' <- UpdateQuery_render true q (WriteString "(" s) ;;
      ret (writeAlias alias (WriteString ")" s'))
  | _ =>
      s' <- Table_AppendSQL t s ;;
      alias <- Table_GetAlias t ;;
      ret (writeAlias alias s')
  end.

(** The columns the column mapper records on the Column that AppendSQL
    hands it (lines 61-62) hold no [?] in their names. *)
Definition mapperClean (q : UpdateQuery) : Prop :=
  forall m, ColumnMapper q = Some m ->
  forall u col u', m (Build_Column colmodeUpdate []) u = Ok col u' ->
  forallb (fun a => noMarker_ColumnInfo (fst a)) (assignments col) = true.

(** [Emits m lits]: whenever the collection [lits] returns the literals
    [l], the renderer [m] returns on every sink, changes the caller's
    variables as the collection does, appends some text to the buffer and
    the arguments [l] to the argument list, and the text holds one [?] per
    argument. *)
Definition Emits (m : Sink -> M Sink) (lits : M (list scalar)) : Prop :=
  forall s u l u', lits u = Ok l u' ->
  exists t,
    m s u = Ok (fst s ^^ t, snd s ++ l) u' /\
    countQuestion t = length l.

(** The same for one step of the WITH list, which also carries the names
    rendered so far; [F] is the step on the names. *)
Definition EmitsSt (m : list string * Sink -> M (list string * Sink))
    (F : list string -> M (list string * list scalar)) : Prop :=
  forall names s u st u', F names u = Ok st u' ->
  exists t,
    m (names, s) u = Ok (fst st, (fst s ^^ t, snd s ++ snd st)) u' /\
    countQuestion t = length (snd st).

(** Lines 69-84: UPDATE and the table. *)
Definition appendUpdate (q : UpdateQuery) (s : Sink) : M Sink :=
  let s2 := WriteString "UPDATE " s in
  ret match UpdateTable q with
      | None => WriteString "NULL" s2
      | Some t => writeAlias (Alias t) (WriteString (TableInfo_text t) s2)
      end.

(** Lines 85-89: SET; [mapped] is what the column mapper left, if there is
    one. *)
Definition appendSet (q : UpdateQuery)
    (mapped : option (list (ColumnInfo * scalar))) (s : Sink) : M Sink :=
  match mapped with
  | Some l =>
      match l with
      | [] => ret s
      | _ => rangeJoin ", "
               (fun a => ColumnAssignment_AppendSQLExclude a
                           (excludedTableQualifiers q)) 0 l
               (WriteString " SET " s)
      end
  | None =>
      match Assignments q with
      | [] => ret s
      | _ => Assignments_AppendSQLExclude (Assignments q)
               (excludedTableQualifiers q) (WriteString " SET " s)
      end
  end.

(** Lines 90-106: FROM. *)
Definition appendFrom (q : UpdateQuery) (s : Sink) : M Sink :=
  match FromTable q with
  | TableNil => ret s
  | TableQuery v alias =>
      s' <- UpdateQuery_AppendSQL (NestThis v)
              (WriteString "(" (WriteString " FROM " s)) ;;
      ret (writeAlias alias (WriteString ")" s'))
  | _ =>
      s' <- Table_AppendSQL (FromTable q) (WriteString " FROM " s) ;;
      alias <- Table_GetAlias (FromTable q) ;;
      ret (writeAlias alias s')
  end.

(** Lines 107-111: JOIN. *)
Definition appendJoins (q : UpdateQuery) (s : Sink) : M Sink :=
  match JoinTables q with
  | [] => ret s
  | _ => JoinTables_AppendSQL (JoinTables q) (WriteString " " s)
  end.

(** Lines 112-117: WHERE. *)
Definition appendWhere (q : UpdateQuery) (s : Sink) : M Sink :=
  match Predicates (WherePredicate q) with
  | [] => ret s
  | _ => VariadicPredicate_AppendSQLExclude
           (set_toplevel true (WherePredicate q)) []
           (WriteString " WHERE " s)
  end.

(** Lines 118-122: RETURNING. *)
Definition appendReturning (q : UpdateQuery) (s : Sink) : M Sink :=
  match ReturningFields q with
  | [] => ret s
  | _ => Fields_AppendSQLExcludeWithAlias (ReturningFields q) []
           (WriteString " RETURNING " s)
  end.

(** Lines 69-122: the clauses from UPDATE to RETURNING. *)
Definition appendClauses (q : UpdateQuery)
    (mapped : option (list (ColumnInfo * scalar))) (s : Sink) : M Sink :=
  s3 <- appendUpdate q s ;;
  s4 <- appendSet q mapped s3 ;;
  s5 <- appendFrom q s4 ;;
  s6 <- appendJoins q s5 ;;
  s7 <- appendWhere q s6 ;;
  appendReturning q s7.

(** ** The builders (lines 148-279)

    A slice is the list of its elements, and [append] is [++]: what a
    builder returns holds the elements of the receiver's slice followed by
    the new ones. *)

(** Modelled from the spec: the join keywords of section 4.2.  The constants
    are declared with [JoinTable], outside the available sources;
    TestSelectQuery_ToSQL shows the keyword each of them renders. *)
Definition JoinTypeInner : string := "JOIN".
Definition JoinTypeLeft : string := "LEFT JOIN".
Definition JoinTypeRight : string := "RIGHT JOIN".
Definition JoinTypeFull : string := "FULL JOIN".

(** Update creates a new UpdateQuery. *)
Definition Update (table : option TableInfo) : UpdateQuery :=
  Build_UpdateQuery false [] table [] TableNil [] emptyVariadic [] None
    None None None.

(** With appends a list of CTEs into the UpdateQuery. *)
Definition UpdateQuery_With (q : UpdateQuery) (ctes : list CTE)
  : UpdateQuery :=
  match q with
  | Build_UpdateQuery n c t a f j w r d cm rm ac =>
      Build_UpdateQuery n (c ++ ctes) t a f j w r d cm rm ac
  end.

(** Update sets the update table for the UpdateQuery. *)
Definition UpdateQuery_Update (q : UpdateQuery) (table : option TableInfo)
  : UpdateQuery :=
  match q with
  | Build_UpdateQuery n c _ a f j w r d cm rm ac =>
      Build_UpdateQuery n c table a f j w r d cm rm ac
  end.

(** Set appends the assignments to SET clause of the UpdateQuery. *)
Definition UpdateQuery_Set (q : UpdateQuery) (l : list Assignment)
  : UpdateQuery :=
  match q with
  | Build_UpdateQuery n c t a f j w r d cm rm ac =>
      Build_UpdateQuery n c t (a ++ l) f j w r d cm rm ac
  end.

(** Setx sets the column mapper function UpdateQuery. *)
Definition UpdateQuery_Setx (q : UpdateQuery) (mapper : Column -> M Column)
  : UpdateQuery :=
  match q with
  | Build_UpdateQuery n c t a f j w r d _ rm ac =>
      Build_UpdateQuery n c t a f j w r d (Some mapper) rm ac
  end.

(** From specifies a table to select from for the purposes of the
    UpdateQuery. *)
Definition UpdateQuery_From (q : UpdateQuery) (table : Table)
  : UpdateQuery :=
  match q with
  | Build_UpdateQuery n c t a _ j w r d cm rm ac =>
      Build_UpdateQuery n c t a table j w r d cm rm ac
  end.

(** CustomJoin custom joins a table to the UpdateQuery. *)
Definition UpdateQuery_CustomJoin (q : UpdateQuery) (joinType : string)
    (table : Table) (predicates : list Predicate) : UpdateQuery :=
  match q with
  | Build_UpdateQuery n c t a f j w r d cm rm ac =>
      Build_UpdateQuery n c t a f
        (j ++ [Build_JoinTable joinType table
                 (Build_VariadicPredicate false "" predicates)])
        w r d cm rm ac
  end.

(** Join joins a new table to the UpdateQuery based on the predicates. *)
Definition UpdateQuery_Join (q : UpdateQuery) (table : Table)
    (predicate : Predicate) (predicates : list Predicate) : UpdateQuery :=
  match q with
  | Build_UpdateQuery n c t a f j w r d cm rm ac =>
      Build_UpdateQuery n c t a f
        (j ++ [Build_JoinTable JoinTypeInner table
                 (Build_VariadicPredicate false ""
                    ([predicate] ++ predicates))])
        w r d cm rm ac
  end.

(** LeftJoin left joins a new table to the UpdateQuery. *)
Definition UpdateQuery_LeftJoin (q : UpdateQuery) (table : Table)
    (predicate : Predicate) (predicates : list Predicate) : UpdateQuery :=
  match q with
  | Build_UpdateQuery n c t a f j w r d cm rm ac =>
      Build_UpdateQuery n c t a f
        (j ++ [Build_JoinTable JoinTypeLeft table
                 (Build_VariadicPredicate false ""
                    ([predicate] ++ predicates))])
        w r d cm rm ac
  end.

(** RightJoin right joins a new table to the UpdateQuery. *)
Definition UpdateQuery_RightJoin (q : UpdateQuery) (table : Table)
    (predicate : Predicate) (predicates : list Predicate) : UpdateQuery :=
  match q with
  | Build_UpdateQuery n c t a f j w r d cm rm ac =>
      Build_UpdateQuery n c t a f
        (j ++ [Build_JoinTable JoinTypeRight table
                 (Build_VariadicPredicate false ""
                    ([predicate] ++ predicates))])
        w r d cm rm ac
  end.

(** FullJoin full joins a table to the UpdateQuery. *)
Definition UpdateQuery_FullJoin (q : UpdateQuery) (table : Table)
    (predicate : Predicate) (predicates : list Predicate) : UpdateQuery :=
  match q with
  | Build_UpdateQuery n c t a f j w r d cm rm ac =>
      Build_UpdateQuery n c t a f
        (j ++ [Build_JoinTable JoinTypeFull table
                 (Build_VariadicPredicate false ""
                    ([predicate] ++ predicates))])
        w r d cm rm ac
  end.

(** Where appends the predicates to the WHERE clause in the UpdateQuery. *)
Definition UpdateQuery_Where (q : UpdateQuery) (predicates : list Predicate)
  : UpdateQuery :=
  match q with
  | Build_UpdateQuery n c t a f j w r d cm rm ac =>
      Build_UpdateQuery n c t a f j
        (Build_VariadicPredicate (toplevel w) (Operator w)
           (Predicates w ++ predicates))
        r d cm rm ac
  end.

(** Returning appends the fields to the RETURNING clause. *)
Definition UpdateQuery_Returning (q : UpdateQuery) (fs : list Field)
  : UpdateQuery :=
  match q with
  | Build_UpdateQuery n c t a f j w r d cm rm ac =>
      Build_UpdateQuery n c t a f j w (r ++ fs) d cm rm ac
  end.

(** ReturningOne sets the RETURNING clause to RETURNING 1. *)
Definition UpdateQuery_ReturningOne (q : UpdateQuery) : UpdateQuery :=
  match q with
  | Build_UpdateQuery n c t a f j w _ d cm rm ac =>
      Build_UpdateQuery n c t a f j w [FieldLiteral "1"] d cm rm ac
  end.

(** Returningx sets the rowmapper and accumulator function. *)
Definition UpdateQuery_Returningx (q : UpdateQuery)
    (mapper : option (Row -> M Row)) (accumulator : option (M unit))
  : UpdateQuery :=
  match q with
  | Build_UpdateQuery n c t a f j w r d cm _ _ =>
      Build_UpdateQuery n c t a f j w r d cm mapper accumulator
  end.

(** ReturningRowx sets the rowmapper function. *)
Definition UpdateQuery_ReturningRowx (q : UpdateQuery)
    (mapper : option (Row -> M Row)) : UpdateQuery :=
  match q with
  | Build_UpdateQuery n c t a f j w r d cm _ ac =>
      Build_UpdateQuery n c t a f j w r d cm mapper ac
  end.

(** [extends s s']: the sink [s'] is [s] with text and arguments added at
    the end. *)
Definition extends (s s' : Sink) : Prop :=
  exists t l, s' = (fst s ^^ t, snd s ++ l).

(** The computation [m], when it returns, returns a value whose sink
    [proj a] extends [s0]. *)
Definition Extends {A : Type} (proj : A -> Sink) (s0 : Sink) (m : M A)
  : Prop :=
  forall u a u', m u = Ok a u' -> extends s0 (proj a).

(** Whatever the column mapper raises, if there is one, satisfies [P]. *)
Definition mapperRaises (P : scalar -> Prop) (q : UpdateQuery) : Prop :=
  forall m, ColumnMapper q = Some m ->
  forall c u p u', m c u = Panic p u' -> P p.

(** ** Field lists without aliases *)

(** The field is nil, or its [GetAlias] returns the empty string. *)
Definition aliasFree (f : Field) : bool :=
  match f with
  | FieldNil => true
  | FieldLiteral _ => true
  | FieldColumn c => isEmpty (colAlias c)
  | FieldFunction None => false
  | FieldFunction (Some fi) => isEmpty (fnAlias fi)
  end.

(** A FieldLiteral, or a nil entry of a field list, and the text it
    renders as. *)
Definition literalField (t : option string) : Field :=
  match t with Some x => FieldLiteral x | None => FieldNil end.

Definition literalText (t : option string) : string :=
  match t with Some x => x | None => "NULL" end.

(** strings.Join *)
Fixpoint joinStrings (sep : string) (l : list string) : string :=
  match l with
  | [] => ""
  | [x] => x
  | x :: r => x ^^ sep ^^ joinStrings sep r
  end.

(** Lines 26-39 of FunctionInfo.AppendSQLExclude: the format of a call with
    [n] arguments. *)
Definition FunctionInfo_format (schema name : string) (n : nat) : string :=
  let format :=
    if isEmpty schema then ""
    else if containsSpaceOrTab schema then dquote ^^ schema ^^ dquote ^^ "."
         else schema ^^ "." in
  match n with
  | O => format ^^ name ^^ "()"
  | S k => format ^^ name ^^ "(?" ^^ repeatString ", ?" k ^^ ")"
  end.

End Model.

Arguments Ok {U A} a u.
Arguments Panic {U A} p u.

Notation "x <- c1 ;; c2" := (bind c1 (fun x => c2))
  (at level 100, c1 at next level, right associativity).

(** The message of the error that wraps a failed Scan (line 374). *)
Definition scanMessage : string :=
  "Please check if your mapper function is correct".

(** The error the deferred function of FetchContext (lines 304-317) makes
    of a recovered value while [err] holds nil. *)
Definition fetchError (r : scalar) : option error :=
  match r with
  | SErr (ExitCode v) =>
      if Z.eqb v ExitPeacefully then None else Some (ExitCode v)
  | SErr v => Some v
  | _ => Some (Errorf_v r)
  end.

(** ** Execution: ExecContext (lines 406-474) *)

(** database/sql's [sql.Result], as far as ExecContext uses it: what
    [RowsAffected] returns. *)
Record Result : Type := Build_Result
  { RowsAffected : Z * option error }.

Section Execution.

Context {U : Type}.

(** The [Exec] and [ExecContext] methods of the [DB] interface, given for
    each connection; the result they return may be nil. *)
Variable dbExec : DB -> string -> list scalar -> error + option Result.
Variable dbExecContext :
  DB -> GoContext -> string -> list scalar -> error + option Result.

(** The flag constant [ErowsAffected] of type [ExecFlag], an integer bit
    mask declared outside the available sources. *)
Variable ErowsAffected : Z.

(** How the body of ExecContext ends: by a [return], or by a panic that
    unwinds while the named results hold their values. *)
Inductive ExecOutcome : Type :=
| ExecReturned (rowsAffected : Z) (err : option error) (u : U)
| ExecPanicked (r : scalar) (rowsAffected : Z) (err : option error) (u : U).

(** Lines 459-463: [db.Exec] or [db.ExecContext]. *)
Definition issueExec (ctx : option GoContext) (db : DB) (sql : string)
    (args : list scalar) : error + option Result :=
  match ctx with
  | None => dbExec db sql args
  | Some c => dbExecContext db c sql args
  end.

(** Lines 454-473. *)
Definition execBody (q : UpdateQuery) (ctx : option GoContext) (db : DB)
    (flag : Z) (u : U) : ExecOutcome :=
  match UpdateQuery_AppendSQL q emptySink u with
  | Panic p u' => ExecPanicked p 0 None u'
  | Ok tmp u' =>
      match issueExec ctx db (fst tmp) (snd tmp) with
      | inl err => ExecReturned 0 (Some err) u'
      | inr res =>
          match res with
          | Some r =>
              if negb (Z.eqb (Z.land ErowsAffected flag) 0)
              then match RowsAffected r with
                   | (n, Some e) => ExecReturned n (Some e) u'
                   | (n, None) => ExecReturned n None u'
                   end
              else ExecReturned 0 None u'
          | None => ExecReturned 0 None u'
          end
      end
  end.

(** The deferred function of lines 424-433. *)
Definition recoverExec (o : ExecOutcome) : (Z * option error) * U :=
  match o with
  | ExecReturned n err u => ((n, err), u)
  | ExecPanicked r n err u =>
      match r with
      | SErr v => ((n, Some v), u)
      | _ => ((n, Some (Errorf_v r)), u)
      end
  end.

(** ExecContext will execute the UpdateQuery with the given DB and
    context. *)
Definition ExecContext (q : UpdateQuery) (ctx : option GoContext)
    (db : option DB) (flag : Z) (u : U) : (Z * option error) * U :=
  match match db with Some d => Some d | None => QueryDB q end with
  | None => ((0%Z, Some (ErrorString "DB cannot be nil")), u)
  | Some db => recoverExec (execBody q ctx db flag u)
  end.

(** Exec will execute the UpdateQuery with the given DB. *)
Definition Exec (q : UpdateQuery) (db : option DB) (flag : Z) (u : U)
  : (Z * option error) * U :=
  ExecContext q None db flag u.

End Execution.

(** ** Induction over statement trees *)

Section TreeInduction.

Context {U : Type}.

Variables
  (Pv : value (U := U) -> Prop) (Pf : Field (U := U) -> Prop)
  (Pfi : FunctionInfo (U := U) -> Prop) (Pa : Assignment (U := U) -> Prop)
  (Pp : Predicate (U := U) -> Prop)
  (Pvp : VariadicPredicate (U := U) -> Prop)
  (Pt : Table (U := U) -> Prop) (Pj : JoinTable (U := U) -> Prop)
  (Pc : CTE (U := U) -> Prop) (Pq : UpdateQuery (U := U) -> Prop).

Hypotheses
  (HVNil : Pv VNil)
  (HVLit : forall x, Pv (VLit x))
  (HVField : forall f, Pf f -> Pv (VField f))
  (HVQuery : forall q, Pq q -> Pv (VQuery q))
  (HFieldNil : Pf FieldNil)
  (HFieldLiteral : forall t, Pf (FieldLiteral t))
  (HFieldColumn : forall c, Pf (FieldColumn c))
  (HFieldFunctionNil : Pf (FieldFunction None))
  (HFieldFunction : forall fi, Pfi fi -> Pf (FieldFunction (Some fi)))
  (HFunctionInfo : forall sc n a args,
      Forall Pv args -> Pfi (Build_FunctionInfo sc n a args))
  (HAssignmentNil : Pa AssignmentNil)
  (HFieldAssignment : forall f v, Pf f -> Pv v -> Pa (FieldAssignment f v))
  (HCustomPredicate : forall fmt vals,
      Forall Pv vals -> Pp (CustomPredicate fmt vals))
  (HPVariadic : forall vp, Pvp vp -> Pp (PVariadic vp))
  (HVariadicPredicate : forall t o preds,
      Forall Pp preds -> Pvp (Build_VariadicPredicate t o preds))
  (HTableNil : Pt TableNil)
  (HTableBase : forall b, Pt (TableBase b))
  (HTableQuery : forall q a, Pq q -> Pt (TableQuery q a))
  (HTableCTE : forall c, Pc c -> Pt (TableCTE c))
  (HTableFunctionNil : Pt (TableFunction None))
  (HTableFunction : forall fi, Pfi fi -> Pt (TableFunction (Some fi)))
  (HJoinTable : forall jt t on,
      Pt t -> Pvp on -> Pj (Build_JoinTable jt t on))
  (HCTE : forall n q, Pq q -> Pc (Build_CTE n q))
  (HUpdateQuery : forall n c t a f j wp rf d cm rm ac,
      Forall Pc c -> Forall Pa a -> Pt f -> Forall Pj j -> Pvp wp ->
      Forall Pf rf -> Pq (Build_UpdateQuery n c t a f j wp rf d cm rm ac)).

Definition Forall_of {A : Type} (P : A -> Prop) (f : forall x, P x)
  : forall l, Forall P l :=
  fix go l :=
    match l with
    | [] => Forall_nil P
    | x :: r => Forall_cons x (f x) (go r)
    end.

Fixpoint value_tree_ind (v : value) {struct v} : Pv v :=
  match v with
  | VNil => HVNil
  | VLit x => HVLit x
  | VField f => HVField f (Field_tree_ind f)
  | VQuery q => HVQuery q (UpdateQuery_tree_ind q)
  end
with Field_tree_ind (f : Field) {struct f} : Pf f :=
  match f with
  | FieldNil => HFieldNil
  | FieldLiteral t => HFieldLiteral t
  | FieldColumn c => HFieldColumn c
  | FieldFunction None => HFieldFunctionNil
  | FieldFunction (Some fi) => HFieldFunction fi (FunctionInfo_tree_ind fi)
  end
with FunctionInfo_tree_ind (f : FunctionInfo) {struct f} : Pfi f :=
  match f with
  | Build_FunctionInfo sc n a args =>
      HFunctionInfo sc n a args (Forall_of Pv value_tree_ind args)
  end
with Assignment_tree_ind (a : Assignment) {struct a} : Pa a :=
  match a with
  | AssignmentNil => HAssignmentNil
  | FieldAssignment f v =>
      HFieldAssignment f v (Field_tree_ind f) (value_tree_ind v)
  end
with Predicate_tree_ind (p : Predicate) {struct p} : Pp p :=
  match p with
  | CustomPredicate fmt vals =>
      HCustomPredicate fmt vals (Forall_of Pv value_tree_ind vals)
  | PVariadic vp => HPVariadic vp (VariadicPredicate_tree_ind vp)
  end
with VariadicPredicate_tree_ind (p : VariadicPredicate) {struct p} : Pvp p :=
  match p with
  | Build_VariadicPredicate t o preds =>
      HVariadicPredicate t o preds (Forall_of Pp Predicate_tree_ind preds)
  end
with Table_tree_ind (t : Table) {struct t} : Pt t :=
  match t with
  | TableNil => HTableNil
  | TableBase b => HTableBase b
  | TableQuery q a => HTableQuery q a (UpdateQuery_tree_ind q)
  | TableCTE c => HTableCTE c (CTE_tree_ind c)
  | TableFunction None => HTableFunctionNil
  | TableFunction (Some fi) => HTableFunction fi (FunctionInfo_tree_ind fi)
  end
with JoinTable_tree_ind (j : JoinTable) {struct j} : Pj j :=
  match j with
  | Build_JoinTable jt t on =>
      HJoinTable jt t on (Table_tree_ind t) (VariadicPredicate_tree_ind on)
  end
with CTE_tree_ind (c : CTE) {struct c} : Pc c :=
  match c with
  | Build_CTE n q => HCTE n q (UpdateQuery_tree_ind q)
  end
with UpdateQuery_tree_ind (q : UpdateQuery) {struct q} : Pq q :=
  match q with
  | Build_UpdateQuery n c t a f j wp rf d cm rm ac =>
      HUpdateQuery n c t a f j wp rf d cm rm ac
        (Forall_of Pc CTE_tree_ind c)
        (Forall_of Pa Assignment_tree_ind a)
        (Table_tree_ind f)
        (Forall_of Pj JoinTable_tree_ind j)
        (VariadicPredicate_tree_ind wp)
        (Forall_of Pf Field_tree_ind rf)
  end.

End TreeInduction.

(** ** Sample statements, callbacks and connections

    The caller's store is an integer counter. *)

Module Samples.

Definition users : TableInfo := Build_TableInfo "public" "users" "u".

Definition column (qualifier name : string) : ColumnInfo :=
  Build_ColumnInfo qualifier name "".

(** A connection whose queries produce [n] rows that scan without error. *)
Definition scanInto (v : scalar) (d : list scalar) : error + list scalar :=
  inr (map (fun _ => v) d).

Definition rowsOf (n : nat) : Rows :=
  Build_Rows (repeat (scanInto (SInt 1)) n) None None None false.

Definition dbOf (n : nat) : DB :=
  Build_DB (fun _ _ => inr (rowsOf n)) (fun _ _ _ => inr (rowsOf n)).

(** A connection on which every query fails. *)
Definition dbFailing : DB :=
  Build_DB (fun _ _ => inl (ErrorString "syntax error"))
           (fun _ _ _ => inl (ErrorString "context deadline exceeded")).

(** [func(row *Row) {}] *)
Definition emptyMapper : Row -> M (U := Z) Row := fun r => ret r.

(** [func(row *Row) { row.Int(u.USER_ID) }]: registers one destination on a
    Row without destinations, reads it otherwise. *)
Definition idMapper : Row -> M (U := Z) Row :=
  fun r =>
    match dest r with
    | [] => ret (Build_Row (fields r ++ [column "u" "user_id"])
                   (dest r ++ [SInt 0]) (index r))
    | _ => ret (Build_Row (fields r) (dest r) (S (index r)))
    end.

(** [func() { count++ }] *)
Definition countingAccumulator : M (U := Z) unit :=
  fun u => Ok tt (u + 1)%Z.

(** [func() { panic(v) }] *)
Definition panickingAccumulator (v : scalar) : M (U := Z) unit :=
  fun u => Panic v u.

Definition fetchQuery (mapper : Row -> M Row) (acc : option (M unit))
  : UpdateQuery (U := Z) :=
  Build_UpdateQuery false [] (Some users)
    [FieldAssignment (FieldColumn (column "u" "email")) (VLit (SStr "a@b"))]
    TableNil [] emptyVariadic [] None None (Some mapper) acc.

Definition world0 : World (U := Z) := Build_World 0%Z None [].

(** The Row after the discovery invocation of [idMapper]. *)
Definition discoveredRow : Row :=
  Build_Row [column "u" "user_id"] [SInt 0] 0.

(** What the fetch statement renders to, with the RETURNING list of
    [idMapper] and with the empty one of [emptyMapper]. *)
Definition fetchSink : Sink :=
  ("UPDATE public.users AS u SET email = $1 RETURNING u.user_id",
   [SStr "a@b"]).

Definition fetchSinkEmpty : Sink :=
  ("UPDATE public.users AS u SET email = $1", [SStr "a@b"]).

(** [UPDATE public.users AS u SET name = o.name]: a column of the updated
    table set from a column of another table. *)
Definition setFromOther : UpdateQuery (U := Z) :=
  Build_UpdateQuery false [] (Some users)
    [FieldAssignment (FieldColumn (column "u" "name"))
       (VField (FieldColumn (column "o" "name")))]
    TableNil [] emptyVariadic [] None None None None.

(** [Setx(func(col *Column) { panic(errEmptyEmail) })] *)
Definition errEmptyEmail : scalar :=
  SErr (ErrorString "email cannot be empty").

Definition panickingStatement : UpdateQuery (U := Z) :=
  Build_UpdateQuery false [] (Some users) [] TableNil [] emptyVariadic []
    None (Some (fun _ u => Panic errEmptyEmail u)) None None.

(** [Setx(func(col *Column) { n++; col.SetInt(u.N, n) })]: the mapper
    counts its own invocations in a variable of the caller. *)
Definition countingStatement : UpdateQuery (U := Z) :=
  Build_UpdateQuery false [] (Some users) [] TableNil [] emptyVariadic []
    None
    (Some (fun c u =>
             Ok (Build_Column (mode c)
                   (assignments c ++ [(column "u" "n", SInt (u + 1))]))
                (u + 1)%Z))
    None None.

(** [Setx(func(col *Column) { col.SetInt(u.N, n) })]: the mapper reads a
    variable of the caller. *)
Definition readingStatement : UpdateQuery (U := Z) :=
  Build_UpdateQuery false [] (Some users) [] TableNil [] emptyVariadic []
    None
    (Some (fun c u =>
             Ok (Build_Column (mode c)
                   (assignments c ++ [(column "u" "n", SInt u)])) u))
    None None.

(** A statement with literals in SET, JOIN ... ON, WHERE and RETURNING, a
    nil field, a CTE used as FROM table and a nested statement. *)
Definition selfCTE : CTE (U := Z) :=
  Build_CTE "cte1"
    (Build_UpdateQuery false [] (Some users)
       [FieldAssignment (FieldColumn (column "u" "a")) (VLit (SInt 5))]
       TableNil [] emptyVariadic [FieldLiteral "1"] None None None None).

Definition literalStatement : UpdateQuery (U := Z) :=
  Build_UpdateQuery false [selfCTE] (Some users)
    [FieldAssignment (FieldColumn (column "u" "email")) (VLit (SStr "a@b"));
     FieldAssignment (FieldColumn (column "u" "name"))
       (VQuery setFromOther)]
    (TableCTE selfCTE)
    [Build_JoinTable "LEFT JOIN" (TableBase (Build_TableInfo "" "t3" ""))
       (Build_VariadicPredicate false ""
          [CustomPredicate "? = ?"
             [VField (FieldColumn (column "t3" "id")); VLit (SInt 7)];
           PVariadic
             (Build_VariadicPredicate false "OR"
                [CustomPredicate "? > ?"
                   [VField (FieldColumn (column "u" "x")); VLit (SInt 1)];
                 CustomPredicate "? IS NULL"
                   [VField (FieldColumn (column "u" "y"))]])])]
    (Build_VariadicPredicate false ""
       [CustomPredicate "? = ?"
          [VField (FieldColumn (column "u" "user_id")); VLit (SInt 1)]])
    [FieldColumn (column "u" "user_id"); FieldNil;
     FieldFunction (Functionf "coalesce" [VLit (SInt 3); VNil])]
    None None None None.

(** A connection that answers every query with the cursor [rs]. *)
Definition dbWith (rs : Rows) : DB :=
  Build_DB (fun _ _ => inr rs) (fun _ _ _ => inr rs).

(** A cursor whose first row does not scan. *)
Definition scanError : error :=
  ErrorString "converting NULL to int is unsupported".

Definition rowsFailing : Rows :=
  Build_Rows [fun _ => inl scanError; scanInto (SInt 1)] None None None
    false.

(** A cursor of [n] rows whose iteration ends with an error. *)
Definition cutError : error := ErrorString "unexpected EOF".

Definition rowsCut (n : nat) : Rows :=
  Build_Rows (repeat (scanInto (SInt 1)) n) (Some cutError) None None false.

(** [func(row *Row) { panic(v) }] *)
Definition panickingMapper (v : scalar) : Row -> M (U := Z) Row :=
  fun _ u => Panic v u.

(** A connection whose Exec reports one affected row, and whose ExecContext
    finds the deadline exceeded. *)
Definition execOne (_ : DB) (_ : string) (_ : list scalar)
  : error + option Result :=
  inr (Some (Build_Result (1%Z, None))).

Definition execExpired (_ : DB) (_ : GoContext) (_ : string)
    (_ : list scalar) : error + option Result :=
  inl (ErrorString "context deadline exceeded").

(** [Update(u).Set(nil)] *)
Definition nilAssignmentStatement : UpdateQuery (U := Z) :=
  UpdateQuery_Set (Update (Some users)) [AssignmentNil].

(** [Fields{FieldLiteral("1"), nil, u.USER_ID}] *)
Definition plainFields : list (Field (U := Z)) :=
  [FieldLiteral "1"; FieldNil; FieldColumn (column "u" "user_id")].


(** [Update(u).From(f)] with [f] a nil [*FunctionInfo]. *)
Definition nilFunctionFrom : UpdateQuery (U := Z) :=
  UpdateQuery_From (Update (Some users)) (TableFunction None).

(** A statement without update table: a SET list, a function call as FROM
    table, a join on a nil table and a nil entry in RETURNING. *)
Definition nilStatement : UpdateQuery (U := Z) :=
  Build_UpdateQuery false [] None
    [FieldAssignment (FieldColumn (column "u" "email")) (VLit (SStr "a@b"))]
    (TableFunction
       (Some (Build_FunctionInfo "" "generate_series" "g"
                [VLit (SInt 1); VLit (SInt 3)])))
    [Build_JoinTable JoinTypeLeft TableNil emptyVariadic]
    emptyVariadic [FieldLiteral "1"; FieldNil] None None None None.

End Samples.

Section Properties.

Context {U : Type}.

Implicit Types (q : UpdateQuery (U := U)) (w : World (U := U)) (u : U)
  (s : Sink).

(** ** The fetch protocol *)

Lemma Accumulator_set_ReturningFields q l :
  Accumulator (set_ReturningFields l q) = Accumulator q.
Proof. destruct q; reflexivity. Qed.

Lemma FetchContext_reaches q ctx db0 w mapper r tmp rs u2 :
  reachesCursor q ctx db0 w mapper r tmp rs u2 ->
  FetchContext q ctx db0 w =
  recoverFetch
    (deferClose
       (afterQuery (set_ReturningFields (map FieldColumn (fields r)) q)
          mapper r rs (cursorWorld w tmp rs u2))).
Proof.
  intros (db & u1 & Hdb & Hm & Hdisc & Hsql & Hq).
  unfold FetchContext. rewrite Hdb, Hm. unfold fetchBody.
  cbn [store logEvent]. rewrite Hdisc. cbn [store setStore].
  rewrite Hsql. cbn [store setStore logEvent cursor trace].
  rewrite Hq. unfold cursorWorld, setCursor, logEvent, setStore. cbn.
  rewrite <- app_assoc. reflexivity.
Qed.

Ltac world_simpl :=
  repeat (progress (unfold logEvent, setCursor, setStore, closeRows,
                      rowsClose, rowsErr, rowsExhausted, rowsAdvance,
                      cursorClosed in *; cbn in * ));
  rewrite <- ?app_assoc; cbn.

Lemma cursorClosed_rowsClose w :
  cursor w <> None -> cursorClosed (snd (rowsClose w)) = true.
Proof.
  unfold rowsClose, cursorClosed. destruct (cursor w); [reflexivity|].
  intros H; now elim H.
Qed.

Lemma trace_rowsClose w : trace (snd (rowsClose w)) = trace w ++ [EvClose].
Proof. unfold rowsClose. destruct (cursor w); reflexivity. Qed.

Lemma store_rowsClose w : store (snd (rowsClose w)) = store w.
Proof. unfold rowsClose. destruct (cursor w); reflexivity. Qed.

(** C10.  When the discovery invocation of the mapper registers no scan
    destination, a fetch that has issued its query and holds the cursor
    returns nil at once: the only calls are the discovery invocation, the
    query and the deferred Close; no row is scanned, the accumulator is not
    invoked, and the not-found condition is not reported, whatever the
    result set holds and whether or not an accumulator was supplied. *)
Theorem fetch_without_destinations q ctx db0 w mapper r tmp rs u2 :
  reachesCursor q ctx db0 w mapper r tmp rs u2 ->
  dest r = [] ->
  FetchContext q ctx db0 w =
  (None,
   Build_World u2 (Some (closeRows rs))
     (trace w ++ [EvMapper; EvQuery (fst tmp) (snd tmp); EvClose])).
Proof.
  intros Hreach Hdest.
  rewrite (FetchContext_reaches _ _ _ _ _ _ _ _ _ Hreach).
  unfold afterQuery. rewrite Hdest. cbn.
  unfold logEvent, setCursor. cbn. rewrite <- app_assoc. reflexivity.
Qed.

(** C3, as amended.  A fetch whose mapper binds at least one scan
    destination and whose cursor holds no row: without an accumulator it
    returns sql.ErrNoRows; with an accumulator it never invokes it, leaves
    the caller's variables as the rendering left them, and returns the error
    of Close or else the error the cursor met, nil when there is neither.
    In both cases the cursor is closed. *)
Theorem fetch_zero_rows q ctx db0 w mapper r tmp rs u2 :
  reachesCursor q ctx db0 w mapper r tmp rs u2 ->
  dest r <> [] ->
  remaining rs = [] ->
  (Accumulator q = None ->
   FetchContext q ctx db0 w =
   (Some ErrNoRows,
    Build_World u2
      (Some (Build_Rows [] (tailErr rs) (tailErr rs) (closeErr rs) true))
      (trace w ++ [EvMapper; EvQuery (fst tmp) (snd tmp); EvClose]))) /\
  (Accumulator q <> None ->
   FetchContext q ctx db0 w =
   (match closeErr rs with Some e => Some e | None => tailErr rs end,
    Build_World u2
      (Some (Build_Rows [] (tailErr rs) (tailErr rs) (closeErr rs) true))
      (trace w ++ [EvMapper; EvQuery (fst tmp) (snd tmp); EvClose; EvClose]))).
Proof.
  intros Hreach Hdest Hrows.
  rewrite (FetchContext_reaches _ _ _ _ _ _ _ _ _ Hreach).
  unfold afterQuery. rewrite Hrows, Accumulator_set_ReturningFields.
  destruct (dest r) as [|d0 dl]; [now elim Hdest|].
  split; intros Hacc.
  - rewrite Hacc. world_simpl. reflexivity.
  - destruct (Accumulator q) as [acc|]; [|now elim Hacc].
    cbn. destruct (closeErr rs) eqn:Hclose; world_simpl;
      rewrite ?Hclose; world_simpl; reflexivity.
Qed.

(** The row loop keeps the cursor it was given. *)
Lemma iterate_cursor mapper acc pending :
  forall r n w,
    cursor w <> None ->
    cursor (loopWorld (iterate mapper acc pending r n w)) <> None.
Proof.
  induction pending as [|scan rest IH]; intros r n w Hc; cbn.
  - unfold rowsExhausted.
    destruct (cursor w) eqn:E; cbn; [discriminate|now rewrite E].
  - assert (Hadv : cursor (rowsAdvance rest w) <> None).
    { unfold rowsAdvance.
      destruct (cursor w) eqn:E; cbn; [discriminate|now rewrite E]. }
    destruct (scan (dest r)) as [e|d]; cbn; [exact Hadv|].
    destruct (mapper _ _) as [r' u'|p u']; cbn; [|exact Hadv].
    destruct acc as [a|]; cbn; [|exact Hadv].
    destruct (a u') as [[] u''|p u'']; cbn; [|exact Hadv].
    apply IH. cbn. exact Hadv.
Qed.

(** A panic leaves the row loop only from a callback: the mapper or the
    accumulator raised the value. *)
Lemma iterate_panic_origin mapper acc pending :
  forall r n w p w',
    iterate mapper acc pending r n w = LoopPanic p w' ->
    (exists r0 u0, mapper r0 u0 = Panic p (store w')) \/
    (exists a u0, acc = Some a /\ a u0 = Panic p (store w')).
Proof.
  induction pending as [|scan rest IH]; intros r n w p w' H; cbn in H.
  - discriminate.
  - destruct (scan (dest r)) as [e|d]; [discriminate|].
    destruct (mapper _ _) as [r' u'|p0 u'] eqn:Hm.
    + destruct acc as [a|]; [|discriminate].
      cbn in H. destruct (a u') as [[] u''|p1 u''] eqn:Ha.
      * apply IH in H. exact H.
      * injection H as <- <-. right. exists a, u'. split; [reflexivity|].
        exact Ha.
    + injection H as <- <-. left. eexists _, _. exact Hm.
Qed.


Lemma trace_rowsAdvance rest w : trace (rowsAdvance rest w) = trace w.
Proof. unfold rowsAdvance. destruct (cursor w); reflexivity. Qed.

Lemma trace_rowsExhausted w : trace (rowsExhausted w) = trace w.
Proof. unfold rowsExhausted. destruct (cursor w); reflexivity. Qed.

Lemma rowsEvents_S k n :
  rowsEvents k (S n) = rowEvents (S k) ++ rowsEvents (S k) n.
Proof. reflexivity. Qed.

(** With an accumulator, scans that succeed and callbacks that return, the
    loop visits every row: Scan, mapper, accumulator, row after row. *)
Lemma iterate_accumulating mapper (a : M unit) pending :
  mapperTotal mapper ->
  (forall u, exists u', a u = Ok tt u') ->
  (forall scan, In scan pending -> forall d, exists d', scan d = inr d') ->
  forall r n w, exists w',
    iterate mapper (Some a) pending r n w
    = LoopLeft (n + length pending) w' /\
    trace w' = trace w ++ rowsEvents n (length pending).
Proof.
  intros Hm Ha. induction pending as [|scan rest IH]; intros Hs r n w.
  - exists (rowsExhausted w). cbn. rewrite Nat.add_0_r, trace_rowsExhausted.
    unfold rowsEvents. cbn. now rewrite app_nil_r.
  - cbn [iterate].
    destruct (Hs scan (or_introl eq_refl) (dest r)) as [d Hd]. rewrite Hd.
    destruct (Hm (Build_Row (fields r) d 0)
                (store (logEvent EvMapper
                          (logEvent (EvScan (S n)) (rowsAdvance rest w)))))
      as (r' & u' & Hr).
    rewrite Hr. cbn [store setStore logEvent cursor trace].
    destruct (Ha u') as [u'' Hu]. rewrite Hu.
    edestruct IH as (w' & Hit & Htr).
    { intros sc Hin. apply Hs. now right. }
    exists w'. split.
    + rewrite Hit. f_equal. cbn [length]. lia.
    + rewrite Htr. cbn [length]. rewrite rowsEvents_S.
      unfold setStore, logEvent. cbn [trace].
      rewrite trace_rowsAdvance. unfold rowEvents.
      rewrite <- ?app_assoc. reflexivity.
Qed.

(** Without an accumulator the loop is left after the first row. *)
Lemma iterate_single mapper scan rest r n w :
  mapperTotal mapper ->
  (exists d, scan (dest r) = inr d) ->
  exists w',
    iterate mapper None (scan :: rest) r n w = LoopLeft (S n) w' /\
    trace w' = trace w ++ [EvScan (S n); EvMapper].
Proof.
  intros Hm [d Hd]. cbn [iterate]. rewrite Hd.
  destruct (Hm (Build_Row (fields r) d 0)
              (store (logEvent EvMapper
                        (logEvent (EvScan (S n)) (rowsAdvance rest w)))))
    as (r' & u' & Hr).
  rewrite Hr. eexists. split; [reflexivity|].
  unfold setStore, logEvent. cbn [trace]. rewrite trace_rowsAdvance.
  rewrite <- ?app_assoc. reflexivity.
Qed.

Lemma trace_after_loop w' :
  trace (snd (recoverFetch
                (deferClose
                   match rowsClose w' with
                   | (Some e, w0) => Returned (Some e) w0
                   | (None, w0) => Returned (rowsErr w0) w0
                   end)))
  = trace w' ++ [EvClose; EvClose].
Proof.
  pose proof (trace_rowsClose w') as H.
  destruct (rowsClose w') as [[e|] w0]; cbn in *;
    rewrite trace_rowsClose, H, <- app_assoc; reflexivity.
Qed.

(** C2, as amended.  A fetch whose mapper binds at least one scan
    destination, on a cursor whose scans succeed and with callbacks that
    return: without an accumulator and with at least one row, the mapper
    populates exactly once and nothing but Close follows the first row; with
    an accumulator, each row in cursor order is scanned, mapped and
    accumulated exactly once. *)
Theorem fetch_row_calls q ctx db0 w mapper r tmp rs u2 :
  reachesCursor q ctx db0 w mapper r tmp rs u2 ->
  dest r <> [] ->
  scansSucceed rs ->
  mapperTotal mapper ->
  accumulatorTotal (Accumulator q) ->
  (Accumulator q = None -> remaining rs <> [] ->
   trace (snd (FetchContext q ctx db0 w))
   = trace w ++ [EvMapper; EvQuery (fst tmp) (snd tmp);
                 EvScan 1; EvMapper; EvClose; EvClose]) /\
  (Accumulator q <> None ->
   trace (snd (FetchContext q ctx db0 w))
   = trace w ++ [EvMapper; EvQuery (fst tmp) (snd tmp)]
     ++ rowsEvents 0 (length (remaining rs)) ++ [EvClose; EvClose]).
Proof.
  intros Hreach Hdest Hscan Hm Hacc.
  rewrite (FetchContext_reaches _ _ _ _ _ _ _ _ _ Hreach).
  unfold afterQuery. rewrite Accumulator_set_ReturningFields.
  destruct (dest r) as [|d0 dl] eqn:Hd; [now elim Hdest|].
  split.
  - intros Hnone Hrows. rewrite Hnone.
    destruct (remaining rs) as [|scan rest] eqn:Hrem; [now elim Hrows|].
    destruct (iterate_single mapper scan rest r 0 (cursorWorld w tmp rs u2)
                Hm) as (w' & Hit & Htr).
    { apply Hscan. rewrite Hrem. now left. }
    rewrite Hit, trace_after_loop, Htr. cbn [cursorWorld trace].
    rewrite <- ?app_assoc. reflexivity.
  - intros Hsome. destruct (Accumulator q) as [a|] eqn:Ha; [|now elim Hsome].
    destruct (iterate_accumulating mapper a (remaining rs) Hm) with
      (r := r) (n := 0) (w := cursorWorld w tmp rs u2)
      as (w' & Hit & Htr).
    { intros u. destruct (Hacc a eq_refl u) as [u' Hu]. now exists u'. }
    { exact Hscan. }
    rewrite Hit.
    destruct (0 + length (remaining rs));
      rewrite trace_after_loop, Htr; cbn [cursorWorld trace];
      rewrite <- ?app_assoc; reflexivity.
Qed.

(** ** Rendering *)

Lemma bind_assoc {A B C : Type} (m : M A) (f : A -> M B) (g : B -> M C) u :
  bind (bind m f) g u = bind m (fun x => bind (f x) g) u.
Proof. unfold bind. destruct (m u); reflexivity. Qed.

(** The workers do not read the fields they take as arguments. *)
Lemma UpdateQuery_render_set_nested nest b q :
  UpdateQuery_render nest (set_nested b q) = UpdateQuery_render nest q.
Proof. destruct q; reflexivity. Qed.

Lemma VariadicPredicate_render_set_toplevel top b (p : VariadicPredicate) :
  VariadicPredicate_render top (set_toplevel b p)
  = VariadicPredicate_render (U := U) top p.
Proof. destruct p; reflexivity. Qed.

Lemma AppendSQL_NestThis q :
  UpdateQuery_AppendSQL (NestThis q) = UpdateQuery_render true q.
Proof. destruct q; reflexivity. Qed.

Lemma AppendSQLExclude_set_toplevel (p : VariadicPredicate) :
  VariadicPredicate_AppendSQLExclude (set_toplevel true p)
  = VariadicPredicate_render (U := U) true p.
Proof. destruct p; reflexivity. Qed.

Lemma bind_congr {A B : Type} (m : M A) (k k' : A -> M B) u :
  (forall a u', k a u' = k' a u') -> bind m k u = bind m k' u.
Proof. intros H. unfold bind. destruct (m u); [apply H|reflexivity]. Qed.

Lemma bind_ret_l {A B : Type} (a : A) (k : A -> M B) u :
  bind (ret a) k u = k a u.
Proof. reflexivity. Qed.

Ltac unfold_clauses :=
  unfold appendUpdate, appendSet, appendFrom, appendJoins, appendWhere,
    appendReturning in *.

(** AppendSQL, clause by clause (lines 58-146). *)
Lemma UpdateQuery_render_unfold nest q s u :
  UpdateQuery_render nest q s u =
  (mapped <- runColumnMapper q ;;
   s1 <- (if nest then ret s
          else appendCTEs (CTEs q) (FromTable q) (JoinTables q) s) ;;
   s8 <- appendClauses q mapped s1 ;;
   if nest then ret s8
   else ret (questionToDollarPlaceholders (fst s8), snd s8)) u.
Proof.
  destruct q as [n c t a f j wp rf d cm rm ac].
  cbn [UpdateQuery_render]. unfold runColumnMapper, appendClauses.
  unfold_clauses.
  cbn [ColumnMapper CTEs FromTable JoinTables UpdateTable Assignments
       WherePredicate ReturningFields excludedTableQualifiers].
  rewrite AppendSQLExclude_set_toplevel.
  destruct f as [|b|v alias|cte|fn]; rewrite ?AppendSQL_NestThis;
    repeat (rewrite ?bind_assoc;
            first [rewrite bind_ret_l; cbn beta
                  |apply bind_congr; intros]);
    reflexivity.
Qed.

Lemma bind_ret_r {A : Type} (m : M A) u : bind m (fun x => ret x) u = m u.
Proof. unfold bind, ret. destruct (m u); reflexivity. Qed.

(** C5.  [NestThis] returns a copy that differs in the [nested] flag only.
    Rendering the nested copy runs the column mapper and the clauses from
    UPDATE to RETURNING and nothing else: no WITH prefix, no placeholder
    rewrite.  Rendering the same statement with [nested] unset puts the
    WITH prefix before the clauses and rewrites the placeholders of the
    whole buffer afterwards. *)
Theorem nested_defers_with_and_rewrite q s u :
  (nested (NestThis q) = true /\
   CTEs (NestThis q) = CTEs q /\
   UpdateTable (NestThis q) = UpdateTable q /\
   Assignments (NestThis q) = Assignments q /\
   FromTable (NestThis q) = FromTable q /\
   JoinTables (NestThis q) = JoinTables q /\
   WherePredicate (NestThis q) = WherePredicate q /\
   ReturningFields (NestThis q) = ReturningFields q /\
   QueryDB (NestThis q) = QueryDB q /\
   ColumnMapper (NestThis q) = ColumnMapper q /\
   RowMapper (NestThis q) = RowMapper q /\
   Accumulator (NestThis q) = Accumulator q) /\
  UpdateQuery_AppendSQL (NestThis q) s u
  = (mapped <- runColumnMapper q ;; appendClauses q mapped s) u /\
  UpdateQuery_AppendSQL (set_nested false q) s u
  = (mapped <- runColumnMapper q ;;
     s1 <- appendCTEs (CTEs q) (FromTable q) (JoinTables q) s ;;
     s8 <- appendClauses q mapped s1 ;;
     ret (questionToDollarPlaceholders (fst s8), snd s8)) u.
Proof.
  split; [destruct q; repeat split|]. split.
  - rewrite AppendSQL_NestThis, UpdateQuery_render_unfold.
    apply bind_congr. intros mapped u1.
    change (bind (ret s) ?k u1) with (k s u1). cbn beta.
    apply bind_ret_r.
  - unfold UpdateQuery_AppendSQL.
    replace (nested (set_nested false q)) with false by (now destruct q).
    rewrite UpdateQuery_render_set_nested, UpdateQuery_render_unfold.
    reflexivity.
Qed.

(** C6.  When the column mapper panics during the discovery invocation,
    [ToSQL] recovers: it returns the empty query string, and an argument
    list whose only element is the raised value. *)
Theorem ToSQL_recovers_mapper_panic q mapper u p u' :
  ColumnMapper q = Some mapper ->
  mapper (Build_Column colmodeUpdate []) u = Panic p u' ->
  ToSQL q u = (("", [p]), u').
Proof.
  intros Hcm Hp. unfold ToSQL, UpdateQuery_AppendSQL.
  rewrite UpdateQuery_render_unfold. unfold runColumnMapper, bind.
  rewrite Hcm, Hp. reflexivity.
Qed.




Lemma Forall_All {A : Type} (P R : A -> Prop) l :
  Forall (fun x => P x -> R x) l -> All P l -> Forall R l.
Proof.
  induction 1 as [|x r Hx _ IH]; cbn; intros HP; constructor.
  - apply Hx, HP.
  - apply IH, HP.
Qed.

(** ** Properties of computations that every rendering inherits from the
    column mappers *)

Section Closure.

Variable G : forall A : Type, M (U := U) A -> Prop.
Variable panicOK : Prop.

Hypothesis G_ret : forall A (a : A), G A (ret a).
Hypothesis G_bind : forall A B (m : M A) (k : A -> M B),
    G A m -> (forall a, G B (k a)) -> G B (bind m k).
Hypothesis G_panic : panicOK -> forall A p, G A (panic p).


(** What is known of every statement of the tree. *)
Variable localOK : UpdateQuery (U := U) -> Prop.
Hypothesis localOK_nil : forall q, localOK q -> panicOK \/ nilSafe q.
Hypothesis localOK_mapper : forall q, localOK q ->
    forall m, ColumnMapper q = Some m -> forall c, G Column (m c).

Lemma G_rangeJoin {A : Type} sep (f : A -> Sink -> M Sink) l :
  Forall (fun x => forall s, G Sink (f x s)) l ->
  forall i s, G Sink (rangeJoin sep f i l s).
Proof.
  induction 1 as [|x r Hx _ IH]; intros i s; cbn.
  - apply G_ret.
  - apply G_bind; [apply Hx|]. intros s1. apply IH.
Qed.

Lemma G_foldM {A S : Type} (f : A -> S -> M S) l :
  Forall (fun x => forall st, G S (f x st)) l ->
  forall st, G S (foldM f l st).
Proof.
  induction 1 as [|x r Hx _ IH]; intros st; cbn.
  - apply G_ret.
  - apply G_bind; [apply Hx|]. intros s1. apply IH.
Qed.

Lemma G_expandValues (f : value -> Sink -> M Sink) vals :
  Forall (fun v => forall s, G Sink (f v s)) vals ->
  forall fmt s, G Sink (expandValues f vals fmt s).
Proof.
  induction 1 as [|x r Hx _ IH]; intros fmt s; cbn.
  - apply G_ret.
  - destruct (splitAtQuestion fmt) as [[pre post]|]; [|apply G_ret].
    apply G_bind; [apply Hx|]. intros s1. apply IH.
Qed.

Lemma G_appendCTE n q :
  (forall s, G Sink (UpdateQuery_render true q s)) ->
  forall st,
    G (list string * Sink)
      (appendCTE (UpdateQuery_render true) (Build_CTE n q) st).
Proof.
  intros H st. unfold appendCTE. cbn [cteName cteQuery].
  destruct (inStrings n (fst st)); [apply G_ret|].
  apply G_bind; [apply H|]. intros s1. apply G_ret.
Qed.

Lemma Forall_mp {A : Type} (C R : A -> Prop) l :
  Forall (fun x => C x -> R x) l -> Forall C l -> Forall R l.
Proof.
  induction 1 as [|x r Hx _ IH]; intros HC; constructor;
    inversion HC; subst; auto.
Qed.

Lemma no_nil_assignment (l : list (Assignment (U := U))) :
  existsb isNilAssignment l = false ->
  Forall (fun a => a <> AssignmentNil) l.
Proof.
  induction l as [|a r IH]; cbn; intros H; constructor.
  - intros ->. discriminate.
  - apply IH. destruct (isNilAssignment a); [discriminate|exact H].
Qed.

Lemma no_nil_function (l : list (Field (U := U))) :
  existsb isNilFunction l = false ->
  Forall (fun f => f <> FieldFunction None) l.
Proof.
  induction l as [|a r IH]; cbn; intros H; constructor.
  - intros ->. discriminate.
  - apply IH. destruct (isNilFunction a); [discriminate|exact H].
Qed.

Lemma no_nil_table (l : list (JoinTable (U := U))) :
  existsb (fun j => isNilTable (JoinedTable j)) l = false ->
  Forall (fun j => isNilTable (JoinedTable j) = false) l.
Proof.
  induction l as [|a r IH]; cbn; intros H; constructor.
  - now destruct (isNilTable (JoinedTable a)).
  - apply IH. destruct (isNilTable (JoinedTable a)); [discriminate|exact H].
Qed.

Let Pv (v : value) : Prop :=
  everyQuery_value localOK v ->
  forall excl s, G Sink (appendSQLValue v excl s).
Let Pf (f : Field) : Prop :=
  everyQuery_Field localOK f -> f <> FieldNil ->
  forall excl s, G Sink (Field_AppendSQLExclude f excl s).
Let Pfi (f : FunctionInfo) : Prop :=
  everyQuery_FunctionInfo localOK f ->
  forall excl s, G Sink (FunctionInfo_render f excl s).
Let Pa (a : Assignment) : Prop :=
  everyQuery_Assignment localOK a -> panicOK \/ a <> AssignmentNil ->
  forall excl s, G Sink (Assignment_AppendSQLExclude a excl s).
Let Pp (p : Predicate) : Prop :=
  everyQuery_Predicate localOK p ->
  forall excl s, G Sink (Predicate_AppendSQLExclude p excl s).
Let Pvp (p : VariadicPredicate) : Prop :=
  everyQuery_VariadicPredicate localOK p ->
  forall top excl s, G Sink (VariadicPredicate_render top p excl s).
Let Pt (t : Table) : Prop :=
  everyQuery_Table localOK t ->
  (t <> TableNil -> forall s, G Sink (Table_AppendSQL t s)) /\
  (t <> TableNil -> panicOK \/ isNilTable t = false ->
   G string (Table_GetAlias t)) /\
  (forall q a, t = TableQuery q a ->
               forall s, G Sink (UpdateQuery_render true q s)) /\
  (forall st, G (list string * Sink)
                (appendTableCTE (UpdateQuery_render true) t st)).
Let Pj (j : JoinTable) : Prop :=
  everyQuery_JoinTable localOK j ->
  (panicOK \/ isNilTable (JoinedTable j) = false ->
   forall s, G Sink (JoinTable_AppendSQL j s)) /\
  (forall st, G (list string * Sink)
                (appendTableCTE (UpdateQuery_render true)
                   (JoinedTable j) st)).
Let Pc (c : CTE) : Prop :=
  everyQuery_CTE localOK c ->
  forall st, G (list string * Sink)
               (appendCTE (UpdateQuery_render true) c st).
Let Pq (q : UpdateQuery) : Prop :=
  everyQuery localOK q ->
  forall nest s, G Sink (UpdateQuery_render nest q s).

Ltac by_IH IH Hev :=
  match type of Hev with
  | All ?P _ => eapply Forall_impl; [|exact (Forall_All P _ _ IH Hev)]
  end.

Lemma closure_value_list excl vals :
  Forall Pv vals -> All (everyQuery_value localOK) vals ->
  Forall (fun v => forall s, G Sink (appendSQLValue v excl s)) vals.
Proof.
  intros IH Hev. by_IH IH Hev. intros v Hv s. apply Hv.
Qed.

Lemma render_closure_tree : forall q, Pq q.
Proof.
  apply (UpdateQuery_tree_ind Pv Pf Pfi Pa Pp Pvp Pt Pj Pc Pq);
    unfold Pv, Pf, Pfi, Pa, Pp, Pvp, Pt, Pj, Pc, Pq.
  - (* VNil *) intros _ excl s. apply G_ret.
  - (* VLit *) intros x _ excl s. apply G_ret.
  - (* VField *) intros f IH Hev excl s. cbn [appendSQLValue].
    destruct f; try (apply IH; [exact Hev|discriminate]). apply G_ret.
  - (* VQuery *) intros q IH Hev excl s. cbn [appendSQLValue].
    apply G_bind; [apply IH, Hev|]. intros s1. apply G_ret.
  - (* FieldNil *) intros _ H. now elim H.
  - intros t _ _ excl s. apply G_ret.
  - intros c _ _ excl s. apply G_ret.
  - intros _ _ excl s. apply G_ret.
  - (* FieldFunction *) intros fi IH Hev _ excl s. apply IH, Hev.
  - (* FunctionInfo *) intros sc n a args IH Hev excl s.
    cbn [FunctionInfo_render]. apply G_expandValues.
    apply closure_value_list; assumption.
  - (* AssignmentNil *) intros _ [Hp|Hne] excl s.
    + apply G_panic, Hp.
    + now elim Hne.
  - (* FieldAssignment *) intros f v IHf IHv [Hf Hv] _ excl s.
    cbn [Assignment_AppendSQLExclude]. apply G_bind.
    + destruct f; try (apply IHf; [exact Hf|discriminate]). apply G_ret.
    + intros s1. apply IHv, Hv.
  - (* CustomPredicate *) intros fmt vals IH Hev excl s.
    cbn [Predicate_AppendSQLExclude]. apply G_expandValues.
    apply closure_value_list; assumption.
  - (* PVariadic *) intros vp IH Hev excl s. apply IH, Hev.
  - (* VariadicPredicate *) intros t o preds IH Hev top excl s.
    cbn [VariadicPredicate_render].
    assert (Hall : Forall (fun x => forall s0,
                             G Sink (Predicate_AppendSQLExclude x excl s0))
                     preds).
    { cbn [everyQuery_VariadicPredicate] in Hev. by_IH IH Hev.
      intros x Hx s0. apply Hx. }
    destruct preds as [|p1 [|p2 r]].
    + apply G_ret.
    + inversion Hall; subst. auto.
    + apply G_bind; [apply G_rangeJoin, Hall|]. intros s1. apply G_ret.
  - (* TableNil *) intros _. split; [intros H; now elim H|].
    split; [intros H; now elim H|].
    split; [intros; discriminate|]. intros st. apply G_ret.
  - (* TableBase *) intros b _. split; [intros _ s; apply G_ret|].
    split; [intros _ _; apply G_ret|].
    split; [intros; discriminate|]. intros st. apply G_ret.
  - (* TableQuery *) intros q a IH Hev.
    split; [intros _ s; apply IH, Hev|].
    split; [intros _ _; apply G_ret|].
    split; [|intros st; apply G_ret].
    intros q' a' [= <- <-] s. apply IH, Hev.
  - (* TableCTE *) intros c IH Hev. split; [intros _ s; apply G_ret|].
    split; [intros _ _; apply G_ret|].
    split; [intros; discriminate|]. intros st. apply IH, Hev.
  - (* nil function *) intros _. split; [intros _ s; apply G_ret|].
    split; [|split; [intros; discriminate|intros st; apply G_ret]].
    intros _ [Hp|Hn]; [apply G_panic, Hp|discriminate].
  - (* TableFunction *) intros fi IH Hev.
    split; [intros _ s; apply IH, Hev|].
    split; [intros _ _; apply G_ret|].
    split; [intros; discriminate|]. intros st. apply G_ret.
  - (* JoinTable *) intros jt t on IHt IHon [Ht Hon].
    destruct (IHt Ht) as (Hsql & Halias & Hsub & Hcte). split.
    + intros Hnil s. cbn [JoinedTable] in Hnil.
      cbn [JoinTable_AppendSQL]. apply G_bind.
      * destruct t.
        -- apply G_ret.
        -- apply G_bind; [apply Hsql; discriminate|]. intros.
           apply G_bind; [apply Halias; [discriminate|exact Hnil]|].
           intros. apply G_ret.
        -- apply G_bind; [eapply Hsub; reflexivity|]. intros. apply G_ret.
        -- apply G_bind; [apply Hsql; discriminate|]. intros.
           apply G_bind; [apply Halias; [discriminate|exact Hnil]|].
           intros. apply G_ret.
        -- apply G_bind; [apply Hsql; discriminate|]. intros.
           apply G_bind; [apply Halias; [discriminate|exact Hnil]|].
           intros. apply G_ret.
      * intros s3. destruct (Predicates on); [apply G_ret|]. apply IHon, Hon.
    + apply Hcte.
  - (* CTE *) intros n q IH Hev st. apply G_appendCTE. intros s.
    apply IH, Hev.
  - (* UpdateQuery *)
    intros n c t a f j wp rf d cm rm ac IHc IHa IHf IHj IHwp IHrf Hev nest s.
    destruct Hev as (HL & Hc & Ha & Hf & Hj & Hwp & Hrf).
    pose proof (localOK_nil _ HL) as Hnil.
    pose proof (localOK_mapper _ HL) as Hmap.
    destruct (IHf Hf) as (Hfsql & Hfalias & Hfsub & Hfcte).
    assert (Hfnil : panicOK \/ isNilTable f = false).
    { destruct Hnil as [Hp|(_ & _ & Hn & _)]; [now left|now right]. }
    assert (HJ : Forall Pj j -> All (everyQuery_JoinTable localOK) j ->
                 Forall (fun x =>
                           (panicOK \/ isNilTable (JoinedTable x) = false ->
                            forall s0, G Sink (JoinTable_AppendSQL x s0)) /\
                           (forall st, G (list string * Sink)
                                         (appendTableCTE
                                            (UpdateQuery_render true)
                                            (JoinedTable x) st))) j).
    { intros H1 H2. by_IH H1 H2. intros x Hx. exact Hx. }
    specialize (HJ IHj Hj).
    cbn [UpdateQuery_render]. apply G_bind.
    { destruct cm as [m|]; [|apply G_ret].
      apply G_bind; [apply Hmap; reflexivity|]. intros col. apply G_ret. }
    intros mapped. apply G_bind.
    { destruct nest; [apply G_ret|].
      apply G_bind.
      { apply G_foldM. by_IH IHc Hc. intros x Hx st. apply Hx. }
      intros st1. apply G_bind; [apply Hfcte|]. intros st2.
      apply G_bind; [|intros; apply G_ret].
      apply G_foldM. eapply Forall_impl; [|exact HJ].
      intros x [_ Hx] st. apply Hx. }
    intros s1. apply G_bind.
    { destruct mapped as [l|].
      - destruct l; [apply G_ret|]. apply G_rangeJoin.
        apply Forall_forall. intros x _ s0. apply G_ret.
      - destruct a as [|a0 ar]; [apply G_ret|]. apply G_rangeJoin.
        assert (Hn : Forall (fun x => panicOK \/ x <> AssignmentNil)
                       (a0 :: ar)).
        { destruct Hnil as [Hp|[Hn _]].
          - apply Forall_forall. intros x _. now left.
          - eapply Forall_impl; [|apply no_nil_assignment, Hn].
            intros x Hx. now right. }
        eapply Forall_mp; [|exact Hn]. by_IH IHa Ha.
        intros x Hx Hx' s0. apply Hx, Hx'. }
    intros s4. apply G_bind.
    { cbn [FromTable] in Hfnil. destruct f.
      - apply G_ret.
      - apply G_bind; [apply Hfsql; discriminate|]. intros.
        apply G_bind; [apply Hfalias; [discriminate|exact Hfnil]|].
        intros. apply G_ret.
      - apply G_bind; [eapply Hfsub; reflexivity|]. intros. apply G_ret.
      - apply G_bind; [apply Hfsql; discriminate|]. intros.
        apply G_bind; [apply Hfalias; [discriminate|exact Hfnil]|].
        intros. apply G_ret.
      - apply G_bind; [apply Hfsql; discriminate|]. intros.
        apply G_bind; [apply Hfalias; [discriminate|exact Hfnil]|].
        intros. apply G_ret. }
    intros s5. apply G_bind.
    { destruct j as [|j0 jr]; [apply G_ret|]. apply G_rangeJoin.
      assert (Hn : Forall (fun x => panicOK \/
                                    isNilTable (JoinedTable x) = false)
                     (j0 :: jr)).
      { destruct Hnil as [Hp|(_ & _ & _ & Hn)].
        - apply Forall_forall. intros x _. now left.
        - eapply Forall_impl; [|apply no_nil_table, Hn].
          intros x Hx. now right. }
      eapply Forall_mp; [|exact Hn].
      eapply Forall_impl; [|exact HJ]. intros x [Hx _]. exact Hx. }
    intros s6. apply G_bind.
    { destruct (Predicates wp); [apply G_ret|]. apply IHwp, Hwp. }
    intros s7. apply G_bind.
    { destruct rf as [|f0 fr]; [apply G_ret|]. apply G_rangeJoin.
      assert (Hn : Forall (fun x => panicOK \/ x <> FieldFunction None)
                     (f0 :: fr)).
      { destruct Hnil as [Hp|(_ & Hn & _)].
        - apply Forall_forall. intros x _. now left.
        - eapply Forall_impl; [|apply no_nil_function, Hn].
          intros x Hx. now right. }
      eapply Forall_mp; [|exact Hn]. by_IH IHrf Hrf.
      intros x Hx Hx' s0.
      destruct x as [|t0|c0|[fi|]]; try apply G_ret;
        (apply G_bind; [apply Hx; discriminate|]); intros s';
        (apply G_bind; [|intros; apply G_ret]); cbn [Field_GetAlias];
        try apply G_ret.
      destruct Hx' as [Hp|Hne]; [apply G_panic, Hp|now elim Hne]. }
    intros s8. destruct nest; apply G_ret.
Qed.

(** Every rendering has the property [G] when every column mapper of the
    tree has it (and, unless a panic has it too, no nil Assignment or nil
    function pointer is called). *)
Lemma render_closure q nest s :
  everyQuery localOK q -> G Sink (UpdateQuery_render nest q s).
Proof. intros H. now apply render_closure_tree. Qed.

End Closure.

(** Rendering leaves the caller's variables alone when every column mapper
    of the tree does. *)
Lemma render_keeps_store q nest s u :
  everyQuery mapperKeepsStore q ->
  resStore (UpdateQuery_render nest q s u) = u.
Proof.
  intros H.
  refine (render_closure (fun A (m : M A) => forall u0, resStore (m u0) = u0)
            True _ _ _ mapperKeepsStore _ _ q nest s H u).
  - reflexivity.
  - intros A B m k Hm Hk u0. unfold bind.
    specialize (Hm u0). destruct (m u0) as [a u1|p u1]; cbn in Hm; subst.
    + apply Hk.
    + reflexivity.
  - reflexivity.
  - intros; now left.
  - intros q0 Hq m Hcm c u0. exact (Hq m Hcm c u0).
Qed.

(** C9, as amended.  When every column mapper of the statement leaves the
    caller's variables as they are, [ToSQL] leaves them as they are, and a
    second call on the same value returns the same SQL text and the same
    argument list as the first. *)
Theorem ToSQL_twice q u :
  everyQuery mapperKeepsStore q ->
  snd (ToSQL q u) = u /\
  fst (ToSQL q (snd (ToSQL q u))) = fst (ToSQL q u).
Proof.
  intros H.
  assert (Hs : snd (ToSQL q u) = u).
  { unfold ToSQL, UpdateQuery_AppendSQL.
    pose proof (render_keeps_store q (nested q) emptySink u H) as Hk.
    destruct (UpdateQuery_render (nested q) q emptySink u); exact Hk. }
  split; [exact Hs|]. now rewrite Hs.
Qed.

(** Rendering returns when every column mapper of the tree returns and no
    nil Assignment or nil function pointer is called, in RETURNING or as
    FROM or JOIN table. *)
Lemma render_returns q nest s u :
  everyQuery (fun q' => nilSafe q' /\ mapperReturns q') q ->
  exists s' u', UpdateQuery_render nest q s u = Ok s' u'.
Proof.
  intros H.
  refine (render_closure
            (fun A (m : M A) => forall u0, exists a u', m u0 = Ok a u')
            False _ _ _ (fun q' => nilSafe q' /\ mapperReturns q') _ _
            q nest s H u).
  - intros A a u0. now exists a, u0.
  - intros A B m k Hm Hk u0. unfold bind.
    destruct (Hm u0) as (a & u1 & ->). apply Hk.
  - intros [].
  - intros q0 [Hn _]. now right.
  - intros q0 [_ Hm] m Hcm c u0. exact (Hm m Hcm c u0).
Qed.

Lemma rangeJoin_snoc {A : Type} sep (f : A -> Sink -> M Sink) l x :
  forall i s u,
    rangeJoin sep f i (l ++ [x]) s u
    = (s1 <- rangeJoin sep f i l s ;;
       f x (if Nat.eqb (i + length l) 0 then s1 else WriteString sep s1)) u.
Proof.
  induction l as [|y r IH]; intros i s u; cbn.
  - rewrite Nat.add_0_r. unfold bind, ret.
    destruct (f x _ u); reflexivity.
  - rewrite bind_assoc. apply bind_congr. intros s1 u1.
    rewrite IH. replace (S i + length r) with (i + S (length r)) by lia.
    reflexivity.
Qed.

(** ** Placeholders and arguments *)

Lemma append_assoc (a b c : string) : (a ^^ b) ^^ c = a ^^ (b ^^ c).
Proof. induction a as [|x a IH]; cbn; [reflexivity|now rewrite IH]. Qed.

Lemma append_nil_r (a : string) : a ^^ "" = a.
Proof. induction a as [|x a IH]; cbn; [reflexivity|now rewrite IH]. Qed.

Lemma countQuestion_app (a b : string) :
  countQuestion (a ^^ b) = countQuestion a + countQuestion b.
Proof. induction a as [|x a IH]; cbn; [reflexivity|rewrite IH; lia]. Qed.


Lemma countQuestion_repeat n : countQuestion (repeatString ", ?" n) = n.
Proof. induction n as [|n IH]; cbn in *; [reflexivity|now rewrite IH]. Qed.


































Section Literals.

Let D (q : UpdateQuery (U := U)) : Prop := nilSafe q /\ mapperClean q.
Let R := UpdateQuery_render (U := U) true.
Let L := literals_render (U := U) true.

Let Pv (v : value) : Prop :=
  everyQuery_value D v -> hygienic_value v = true ->
  forall excl, Emits (appendSQLValue v excl) (literals_value v).
Let Pf (f : Field) : Prop :=
  everyQuery_Field D f -> hygienic_Field f = true -> f <> FieldNil ->
  forall excl, Emits (Field_AppendSQLExclude f excl) (literals_Field f).
Let Pfi (f : FunctionInfo) : Prop :=
  everyQuery_FunctionInfo D f -> hygienic_FunctionInfo f = true ->
  forall excl, Emits (FunctionInfo_render f excl) (literals_FunctionInfo f).
Let Pa (a : Assignment) : Prop :=
  everyQuery_Assignment D a -> hygienic_Assignment a = true ->
  a <> AssignmentNil ->
  forall excl,
    Emits (Assignment_AppendSQLExclude a excl) (literals_Assignment a).
Let Pp (p : Predicate) : Prop :=
  everyQuery_Predicate D p -> hygienic_Predicate p = true ->
  forall excl,
    Emits (Predicate_AppendSQLExclude p excl) (literals_Predicate p).
Let Pvp (p : VariadicPredicate) : Prop :=
  everyQuery_VariadicPredicate D p -> hygienic_VariadicPredicate p = true ->
  forall top excl,
    Emits (VariadicPredicate_render top p excl)
      (literals_VariadicPredicate p).
Let Pt (t : Table) : Prop :=
  everyQuery_Table D t -> hygienic_Table t = true ->
  (isNilTable t = false -> Emits (tableSource t) (literals_Table t)) /\
  EmitsSt (appendTableCTE R t) (literals_TableCTE L t).
Let Pj (j : JoinTable) : Prop :=
  everyQuery_JoinTable D j -> hygienic_JoinTable j = true ->
  (isNilTable (JoinedTable j) = false ->
   Emits (JoinTable_AppendSQL j) (literals_JoinTable j)) /\
  EmitsSt (appendTableCTE R (JoinedTable j))
    (literals_TableCTE L (JoinedTable j)).
Let Pc (c : CTE) : Prop :=
  everyQuery_CTE D c -> hygienic_CTE c = true ->
  EmitsSt (appendCTE R c) (literals_CTE L c).
Let Pq (q : UpdateQuery) : Prop :=
  everyQuery D q -> hygienic q = true ->
  Emits (R q) (L q) /\
  forall s u l u',
    literals_render false q u = Ok l u' ->
    exists t,
      UpdateQuery_render false q s u
      = Ok (questionToDollarPlaceholders (fst s ^^ t), snd s ++ l) u' /\
      countQuestion t = length l.




End Literals.





End Properties.

(** * Further properties of the builders, the fetch and the renderers *)

Section Further.

Context {U : Type}.

Implicit Types (q : UpdateQuery (U := U)) (w : World (U := U)) (u : U)
  (s : Sink).

(** ** The builders *)

(** X1.  The appending builders compose: calling [With], [Set], [Where] or
    [Returning] twice gives the statement that one call with both argument
    lists in order gives, and a call without arguments changes nothing. *)
Theorem builders_append q :
  (forall a b, UpdateQuery_With (UpdateQuery_With q a) b
               = UpdateQuery_With q (a ++ b)) /\
  (forall a b, UpdateQuery_Set (UpdateQuery_Set q a) b
               = UpdateQuery_Set q (a ++ b)) /\
  (forall a b, UpdateQuery_Where (UpdateQuery_Where q a) b
               = UpdateQuery_Where q (a ++ b)) /\
  (forall a b, UpdateQuery_Returning (UpdateQuery_Returning q a) b
               = UpdateQuery_Returning q (a ++ b)) /\
  UpdateQuery_With q [] = q /\
  UpdateQuery_Set q [] = q /\
  UpdateQuery_Where q [] = q /\
  UpdateQuery_Returning q [] = q.
Proof.
  destruct q as [n c t a f j [tl op ps] r d cm rm ac]; cbn.
  repeat split; intros; rewrite <- ?app_assoc, ?app_nil_r; reflexivity.
Qed.

(** X2.  A column mapper set with [Setx] replaces the SET list: whatever
    [Set] has appended, before or after, the statement renders as if [Set]
    had not been called. *)
Theorem setx_overrides_set q mapper l s u :
  UpdateQuery_AppendSQL (UpdateQuery_Set (UpdateQuery_Setx q mapper) l) s u
  = UpdateQuery_AppendSQL (UpdateQuery_Setx q mapper) s u /\
  UpdateQuery_AppendSQL (UpdateQuery_Setx (UpdateQuery_Set q l) mapper) s u
  = UpdateQuery_AppendSQL (UpdateQuery_Setx q mapper) s u.
Proof.
  destruct q as [n c t a f j wp r d cm rm ac].
  unfold UpdateQuery_AppendSQL.
  cbn [UpdateQuery_Set UpdateQuery_Setx nested].
  rewrite !UpdateQuery_render_unfold.
  unfold runColumnMapper. cbn [ColumnMapper CTEs FromTable JoinTables].
  split; rewrite !bind_assoc; apply bind_congr; intros col u1;
    rewrite !bind_ret_l; reflexivity.
Qed.

(** ** The fetch protocol *)

(** X3.  A fetch takes its RETURNING list from the row mapper: the fields
    given with [Returning] or [ReturningOne] play no part in it. *)
Theorem fetch_ignores_returning q fs ctx db w :
  FetchContext (UpdateQuery_Returning q fs) ctx db w = FetchContext q ctx db w
  /\ FetchContext (UpdateQuery_ReturningOne q) ctx db w
     = FetchContext q ctx db w.
Proof. destruct q; split; reflexivity. Qed.

Lemma recoverFetch_panicked p w :
  recoverFetch (Panicked p None w) = (fetchError p, w).
Proof.
  destruct p as [z|t|b|[c| | | | |]]; try reflexivity.
  cbn. destruct (Z.eqb c ExitPeacefully); reflexivity.
Qed.

(** X4.  A value raised before the query is issued, by the discovery
    invocation of the row mapper or by the rendering (a column mapper), is
    recovered like one raised during the iteration; no query is issued and
    there is no cursor to close. *)
Theorem fetch_panic_before_query q ctx db0 db w mapper p u' :
  match db0 with Some d => Some d | None => QueryDB q end = Some db ->
  RowMapper q = Some mapper ->
  mapper (Build_Row [] [] 0) (store w) = Panic p u' \/
  (exists r u1,
     mapper (Build_Row [] [] 0) (store w) = Ok r u1 /\
     UpdateQuery_AppendSQL
       (set_ReturningFields (map FieldColumn (fields r)) q) emptySink u1
     = Panic p u') ->
  FetchContext q ctx db0 w
  = (fetchError p, Build_World u' (cursor w) (trace w ++ [EvMapper])).
Proof.
  intros Hdb Hm H. unfold FetchContext. rewrite Hdb, Hm. unfold fetchBody.
  cbn [store logEvent].
  destruct H as [H|(r & u1 & H1 & H2)].
  - rewrite H. now rewrite recoverFetch_panicked.
  - rewrite H1. cbn [store setStore]. rewrite H2.
    now rewrite recoverFetch_panicked.
Qed.

(** X5.  When the connection answers the query with an error, the fetch
    returns that error as it is; the row mapper has been invoked once, for
    discovery, and nothing is scanned or closed. *)
Theorem fetch_query_error q ctx db0 db w mapper r u1 tmp u2 e :
  match db0 with Some d => Some d | None => QueryDB q end = Some db ->
  RowMapper q = Some mapper ->
  mapper (Build_Row [] [] 0) (store w) = Ok r u1 ->
  UpdateQuery_AppendSQL
    (set_ReturningFields (map FieldColumn (fields r)) q) emptySink u1
  = Ok tmp u2 ->
  issueQuery ctx db (fst tmp) (snd tmp) = inl e ->
  FetchContext q ctx db0 w
  = (Some e,
     Build_World u2 (cursor w)
       (trace w ++ [EvMapper; EvQuery (fst tmp) (snd tmp)])).
Proof.
  intros Hdb Hm Hdisc Hsql Hq. unfold FetchContext. rewrite Hdb, Hm.
  unfold fetchBody. cbn [store logEvent]. rewrite Hdisc.
  cbn [store setStore]. rewrite Hsql.
  cbn [store setStore logEvent cursor trace]. rewrite Hq.
  unfold logEvent, setStore. cbn. rewrite <- app_assoc. reflexivity.
Qed.

Lemma snd_recoverFetch (o : Outcome (U := U)) :
  snd (recoverFetch o) = outcomeWorld o.
Proof.
  destruct o as [err w|p err w]; [reflexivity|].
  destruct p as [z|t|b|[c| | | | |]]; try reflexivity.
  cbn. destruct (Z.eqb c ExitPeacefully); reflexivity.
Qed.

Lemma outcomeWorld_deferClose (o : Outcome (U := U)) :
  outcomeWorld (deferClose o) = snd (rowsClose (outcomeWorld o)).
Proof. destruct o; reflexivity. Qed.

Lemma cursor_rowsClose w : cursor w <> None ->
  cursor (snd (rowsClose w)) <> None.
Proof.
  unfold rowsClose. destruct (cursor w); [discriminate|]. intros H; now elim H.
Qed.

Lemma cursor_rowsExhausted w : cursor w <> None ->
  cursor (rowsExhausted w) <> None.
Proof.
  unfold rowsExhausted. destruct (cursor w) eqn:E; cbn; [discriminate|].
  now rewrite E.
Qed.

Lemma afterQuery_cursor q mapper r rs w :
  cursor w <> None ->
  cursor (outcomeWorld (afterQuery q mapper r rs w)) <> None.
Proof.
  intros Hc. unfold afterQuery. destruct (dest r) as [|d0 dl]; [exact Hc|].
  pose proof (iterate_cursor mapper (Accumulator q) (remaining rs) r 0 w Hc)
    as Hit.
  destruct (iterate _ _ _ _ _ _) as [k w'|e w'|p w']; cbn in Hit |- *;
    try exact Hit.
  assert (Hcl : cursor
                  (outcomeWorld
                     match rowsClose w' with
                     | (Some e, w0) => Returned (Some e) w0
                     | (None, w0) => Returned (rowsErr w0) w0
                     end) <> None).
  { pose proof (cursor_rowsClose w' Hit) as H.
    destruct (rowsClose w') as [[e|] w0]; exact H. }
  destruct k; [destruct (Accumulator q)|]; try exact Hcl. exact Hit.
Qed.

(** X6.  Once the connection has answered the query with a cursor, the
    fetch closes it before it returns, whatever the callbacks, the scans and
    the cursor do; Close is the last call of the fetch. *)
Theorem fetch_closes_cursor q ctx db0 w mapper r tmp rs u2 :
  reachesCursor q ctx db0 w mapper r tmp rs u2 ->
  cursorClosed (snd (FetchContext q ctx db0 w)) = true /\
  exists tr, trace (snd (FetchContext q ctx db0 w)) = tr ++ [EvClose].
Proof.
  intros Hreach.
  rewrite (FetchContext_reaches _ _ _ _ _ _ _ _ _ Hreach).
  rewrite snd_recoverFetch, outcomeWorld_deferClose. split.
  - apply cursorClosed_rowsClose, afterQuery_cursor. discriminate.
  - eexists. apply trace_rowsClose.
Qed.


(** ** The properties on the sample statements *)
(** The row loop returns from inside only when a Scan fails; the failed
    Scan is the last call. *)
Lemma iterate_return_origin mapper acc pending :
  forall r n w e w',
    iterate (U := U) mapper acc pending r n w = LoopReturn e w' ->
    (exists scan d e0,
       In scan pending /\ scan d = inl e0 /\ e = Errorf_w scanMessage e0) /\
    exists tr k, trace w' = tr ++ [EvScan k].
Proof.
  induction pending as [|scan rest IH]; intros r n w e w' H; cbn in H.
  - discriminate.
  - destruct (scan (dest r)) as [e0|d] eqn:Hs.
    + injection H as <- <-. split.
      * exists scan, (dest r), e0. repeat split; [now left|exact Hs].
      * eexists _, _. reflexivity.
    + destruct (mapper _ _) as [r' u'|p0 u']; [|discriminate].
      destruct acc as [a|]; [|discriminate].
      cbn in H. destruct (a u') as [[] u''|p1 u'']; [|discriminate].
      apply IH in H. destruct H as [(sc & d0 & e0 & Hin & Hsc & He) Htr].
      split; [|exact Htr]. exists sc, d0, e0. repeat split; auto.
      now right.
Qed.

(** X7.  When a Scan fails, the fetch returns at once an error that wraps
    the error of the Scan: the callbacks are not invoked for that row, the
    failed Scan is followed by Close only, and the cursor is closed. *)
Theorem fetch_scan_failure q ctx db0 w mapper r tmp rs u2 e w2 :
  reachesCursor q ctx db0 w mapper r tmp rs u2 ->
  dest r <> [] ->
  iterate mapper (Accumulator q) (remaining rs) r 0 (cursorWorld w tmp rs u2)
  = LoopReturn e w2 ->
  FetchContext q ctx db0 w = (Some e, snd (rowsClose w2)) /\
  (exists scan d e0,
     In scan (remaining rs) /\ scan d = inl e0 /\
     e = Errorf_w scanMessage e0) /\
  (exists tr k,
     trace (snd (FetchContext q ctx db0 w)) = tr ++ [EvScan k; EvClose]).
Proof.
  intros Hreach Hdest Hloop.
  destruct (iterate_return_origin _ _ _ _ _ _ _ _ Hloop)
    as [Horigin (tr & k & Htr)].
  assert (Hfetch : FetchContext q ctx db0 w = (Some e, snd (rowsClose w2))).
  { rewrite (FetchContext_reaches _ _ _ _ _ _ _ _ _ Hreach).
    unfold afterQuery. rewrite Accumulator_set_ReturningFields, Hloop.
    destruct (dest r) as [|d0 dl]; [now elim Hdest|]. reflexivity. }
  split; [exact Hfetch|]. split; [exact Horigin|].
  exists tr, k. rewrite Hfetch. cbn [snd].
  rewrite trace_rowsClose, Htr, <- app_assoc. reflexivity.
Qed.

Lemma cursor_rowsAdvance rest w rs0 :
  cursor w = Some rs0 ->
  cursor (rowsAdvance rest w)
  = Some (Build_Rows rest (tailErr rs0) (lasterr rs0) (closeErr rs0)
            (closed rs0)).
Proof. intros H. unfold rowsAdvance. rewrite H. reflexivity. Qed.

(** With an accumulator, scans that succeed and callbacks that return, the
    loop leaves the cursor exhausted. *)
Lemma iterate_accumulating_cursor mapper (a : M unit) pending :
  mapperTotal mapper ->
  (forall u, exists u', a u = Ok tt u') ->
  (forall scan, In scan pending -> forall d, exists d', scan d = inr d') ->
  forall r n w rs0,
    cursor w = Some rs0 ->
    exists k w',
      iterate mapper (Some a) pending r n w = LoopLeft k w' /\
      cursor w'
      = Some (Build_Rows [] (tailErr rs0) (tailErr rs0) (closeErr rs0)
                (closed rs0)).
Proof.
  intros Hm Ha. induction pending as [|scan rest IH]; intros Hs r n w rs0 Hc.
  - exists n, (rowsExhausted w). split; [reflexivity|].
    unfold rowsExhausted. rewrite Hc. reflexivity.
  - cbn [iterate].
    destruct (Hs scan (or_introl eq_refl) (dest r)) as [d Hd]. rewrite Hd.
    destruct (Hm (Build_Row (fields r) d 0)
                (store (logEvent EvMapper
                          (logEvent (EvScan (S n)) (rowsAdvance rest w)))))
      as (r' & u' & Hr).
    rewrite Hr. cbn [store setStore logEvent cursor trace].
    destruct (Ha u') as [u'' Hu]. rewrite Hu.
    destruct (IH (fun sc Hin => Hs sc (or_intror Hin)) r' (S n)
                (setStore u''
                   (logEvent EvAccumulator
                      (setStore u'
                         (logEvent EvMapper
                            (logEvent (EvScan (S n))
                               (rowsAdvance rest w))))))
                _ (cursor_rowsAdvance rest w rs0 Hc))
      as (k & w' & Hit & Hcur).
    exists k, w'. split; [exact Hit|]. rewrite Hcur. reflexivity.
Qed.

(** Without an accumulator the loop is left after the first row, with the
    rest of the rows still in the cursor. *)
Lemma iterate_single_cursor mapper scan rest r n w rs0 :
  mapperTotal mapper ->
  (exists d, scan (dest r) = inr d) ->
  cursor w = Some rs0 ->
  exists w',
    iterate mapper None (scan :: rest) r n w = LoopLeft (S n) w' /\
    cursor w'
    = Some (Build_Rows rest (tailErr rs0) (lasterr rs0) (closeErr rs0)
              (closed rs0)).
Proof.
  intros Hm [d Hd] Hc. cbn [iterate]. rewrite Hd.
  destruct (Hm (Build_Row (fields r) d 0)
              (store (logEvent EvMapper
                        (logEvent (EvScan (S n)) (rowsAdvance rest w)))))
    as (r' & u' & Hr).
  rewrite Hr. eexists. split; [reflexivity|].
  cbn [cursor setStore logEvent]. apply cursor_rowsAdvance, Hc.
Qed.

Lemma close_result w' rs' :
  cursor w' = Some rs' ->
  fst (recoverFetch
         (deferClose
            match rowsClose w' with
            | (Some e, w0) => Returned (Some e) w0
            | (None, w0) => Returned (rowsErr w0) w0
            end))
  = match closeErr rs' with Some e => Some e | None => lasterr rs' end.
Proof.
  intros H. unfold rowsClose. rewrite H.
  destruct (closeErr rs') as [e|]; reflexivity.
Qed.

(** X8.  What a fetch returns when its loop runs to its end (the scans
    succeed and the callbacks return): the error of Close if there is one;
    otherwise, with an accumulator, the error that ended the iteration of
    the cursor, and without one, after the first row, the error the cursor
    held when the loop was left.  With neither it returns nil. *)
Theorem fetch_completed_result q ctx db0 w mapper r tmp rs u2 :
  reachesCursor q ctx db0 w mapper r tmp rs u2 ->
  dest r <> [] ->
  scansSucceed rs ->
  mapperTotal mapper ->
  accumulatorTotal (Accumulator q) ->
  (Accumulator q <> None ->
   fst (FetchContext q ctx db0 w)
   = match closeErr rs with Some e => Some e | None => tailErr rs end) /\
  (Accumulator q = None -> remaining rs <> [] ->
   fst (FetchContext q ctx db0 w)
   = match closeErr rs with Some e => Some e | None => lasterr rs end).
Proof.
  intros Hreach Hdest Hscan Hm Hacc.
  rewrite (FetchContext_reaches _ _ _ _ _ _ _ _ _ Hreach).
  unfold afterQuery. rewrite Accumulator_set_ReturningFields.
  destruct (dest r) as [|d0 dl] eqn:Hd; [now elim Hdest|].
  split.
  - intros Hsome. destruct (Accumulator q) as [a|] eqn:Ha; [|now elim Hsome].
    destruct (iterate_accumulating_cursor mapper a (remaining rs) Hm) with
      (r := r) (n := 0) (w := cursorWorld w tmp rs u2) (rs0 := rs)
      as (k & w' & Hit & Hcur).
    { intros u. destruct (Hacc a eq_refl u) as [u' Hu]. now exists u'. }
    { exact Hscan. }
    { reflexivity. }
    rewrite Hit. destruct k; rewrite (close_result w' _ Hcur); reflexivity.
  - intros Hnone Hrows. rewrite Hnone.
    destruct (remaining rs) as [|scan rest] eqn:Hrem; [now elim Hrows|].
    destruct (iterate_single_cursor mapper scan rest r 0
                (cursorWorld w tmp rs u2) rs Hm) as (w' & Hit & Hcur).
    { apply Hscan. rewrite Hrem. now left. }
    { reflexivity. }
    rewrite Hit, (close_result w' _ Hcur). reflexivity.
Qed.

Lemma store_rowsAdvance rest w : store (rowsAdvance rest w) = store w.
Proof. unfold rowsAdvance. destruct (cursor w); reflexivity. Qed.

Lemma store_rowsExhausted w : store (rowsExhausted w) = store w.
Proof. unfold rowsExhausted. destruct (cursor w); reflexivity. Qed.

(** With a mapper that leaves the caller's variables alone, the loop
    applies the accumulator once for each row. *)
Lemma iterate_accumulating_store mapper (a : M unit) (g : U -> U) pending :
  (forall r u, exists r', mapper r u = Ok r' u) ->
  (forall u, a u = Ok tt (g u)) ->
  (forall scan, In scan pending -> forall d, exists d', scan d = inr d') ->
  forall r n w,
    exists k w',
      iterate mapper (Some a) pending r n w = LoopLeft k w' /\
      store w' = Nat.iter (length pending) g (store w).
Proof.
  intros Hm Ha. induction pending as [|scan rest IH]; intros Hs r n w.
  - exists n, (rowsExhausted w). split; [reflexivity|].
    apply store_rowsExhausted.
  - cbn [iterate].
    destruct (Hs scan (or_introl eq_refl) (dest r)) as [d Hd]. rewrite Hd.
    cbn [store logEvent]. rewrite store_rowsAdvance.
    destruct (Hm (Build_Row (fields r) d 0) (store w)) as (r' & Hr).
    rewrite Hr. cbn [store setStore logEvent]. rewrite Ha.
    destruct (IH (fun sc Hin => Hs sc (or_intror Hin)) r' (S n)
                (setStore (g (store w))
                   (logEvent EvAccumulator
                      (setStore (store w)
                         (logEvent EvMapper
                            (logEvent (EvScan (S n))
                               (rowsAdvance rest w)))))))
      as (k & w' & Hit & Hst).
    exists k, w'. split; [exact Hit|]. rewrite Hst. cbn [store setStore length].
    now rewrite Nat.iter_succ_r.
Qed.

Lemma store_after_close w' :
  store (snd (recoverFetch
                (deferClose
                   match rowsClose w' with
                   | (Some e, w0) => Returned (Some e) w0
                   | (None, w0) => Returned (rowsErr w0) w0
                   end)))
  = store w'.
Proof.
  pose proof (store_rowsClose w') as H.
  destruct (rowsClose w') as [[e|] w0]; cbn in *;
    now rewrite store_rowsClose.
Qed.

(** X9.  What a fetch that runs to its end leaves in the caller's
    variables.  With an accumulator and a row mapper that only reads, the
    accumulator has been applied once for each row of the result.  Without
    an accumulator, they are as the row mapper left them when it was
    invoked on the values of the first row, with the read index back
    at 0. *)
Theorem fetch_final_store q ctx db0 w mapper r tmp rs u2 :
  reachesCursor q ctx db0 w mapper r tmp rs u2 ->
  dest r <> [] ->
  scansSucceed rs ->
  (forall a g,
     Accumulator q = Some a ->
     (forall r0 u, exists r', mapper r0 u = Ok r' u) ->
     (forall u, a u = Ok tt (g u)) ->
     store (snd (FetchContext q ctx db0 w))
     = Nat.iter (length (remaining rs)) g u2) /\
  (forall scan rest d r' u',
     Accumulator q = None ->
     remaining rs = scan :: rest ->
     scan (dest r) = inr d ->
     mapper (Build_Row (fields r) d 0) u2 = Ok r' u' ->
     store (snd (FetchContext q ctx db0 w)) = u').
Proof.
  intros Hreach Hdest Hscan.
  rewrite (FetchContext_reaches _ _ _ _ _ _ _ _ _ Hreach).
  unfold afterQuery. rewrite Accumulator_set_ReturningFields.
  destruct (dest r) as [|d0 dl] eqn:Hd; [now elim Hdest|].
  split.
  - intros a g Hacc Hm Ha. rewrite Hacc.
    destruct (iterate_accumulating_store mapper a g (remaining rs) Hm Ha
                Hscan r 0 (cursorWorld w tmp rs u2))
      as (k & w' & Hit & Hst).
    rewrite Hit. destruct k; rewrite store_after_close, Hst; reflexivity.
  - intros scan rest d r' u' Hacc Hrem Hs Hm. rewrite Hacc, Hrem.
    cbn [iterate]. rewrite Hd, Hs.
    cbn [store logEvent]. rewrite store_rowsAdvance.
    cbn [store cursorWorld]. rewrite Hm.
    rewrite store_after_close. reflexivity.
Qed.

Lemma queries_logEvent e w :
  isQueryCall e = false ->
  filter isQueryCall (trace (logEvent e w)) = filter isQueryCall (trace w).
Proof.
  intros H. unfold logEvent. cbn [trace]. rewrite filter_app. cbn.
  rewrite H. apply app_nil_r.
Qed.

(** The row loop issues no query. *)
Lemma iterate_no_query mapper acc pending :
  forall r n w,
    filter isQueryCall
      (trace (loopWorld (iterate (U := U) mapper acc pending r n w)))
    = filter isQueryCall (trace w).
Proof.
  assert (leaf : forall l (w0 : World (U := U)),
             ~ In true (map isQueryCall l) ->
             filter isQueryCall (trace w0 ++ l)
             = filter isQueryCall (trace w0)).
  { intros l w0 H. rewrite filter_app.
    replace (filter isQueryCall l) with (@nil Event);
      [apply app_nil_r|].
    induction l as [|e l IH]; [reflexivity|]. cbn in *.
    destruct (isQueryCall e); [elim H; now left|]. apply IH. tauto. }
  induction pending as [|scan rest IH]; intros r n w; cbn [iterate].
  - cbn. now rewrite trace_rowsExhausted.
  - destruct (scan (dest r)) as [e|d]; cbn [loopWorld].
    { unfold logEvent. cbn [trace]. rewrite trace_rowsAdvance.
      apply leaf. cbn. intuition discriminate. }
    cbn [store logEvent].
    destruct (mapper _ _) as [r' u'|p u']; cbn [loopWorld].
    2:{ unfold setStore, logEvent. cbn [trace]. rewrite trace_rowsAdvance.
        rewrite <- app_assoc. apply leaf. cbn. intuition discriminate. }
    destruct acc as [a|]; cbn [loopWorld].
    2:{ unfold setStore, logEvent. cbn [trace]. rewrite trace_rowsAdvance.
        rewrite <- app_assoc. apply leaf. cbn. intuition discriminate. }
    cbn [store setStore logEvent].
    destruct (a u') as [[] u''|p u'']; cbn [loopWorld].
    + rewrite IH. unfold setStore, logEvent. cbn [trace].
      rewrite trace_rowsAdvance.
      rewrite <- !app_assoc. apply leaf. cbn. intuition discriminate.
    + unfold setStore, logEvent. cbn [trace]. rewrite trace_rowsAdvance.
      rewrite <- !app_assoc. apply leaf. cbn. intuition discriminate.
Qed.

Lemma queries_rowsClose w :
  filter isQueryCall (trace (snd (rowsClose w)))
  = filter isQueryCall (trace w).
Proof. rewrite trace_rowsClose, filter_app. cbn. apply app_nil_r. Qed.

Lemma afterQuery_no_query q mapper r rs w :
  filter isQueryCall (trace (outcomeWorld (afterQuery q mapper r rs w)))
  = filter isQueryCall (trace w).
Proof.
  unfold afterQuery. destruct (dest r) as [|d0 dl]; [reflexivity|].
  pose proof (iterate_no_query mapper (Accumulator q) (remaining rs) r 0 w)
    as Hit.
  destruct (iterate _ _ _ _ _ _) as [k w'|e w'|p w']; cbn in Hit |- *;
    try exact Hit.
  assert (Hcl : filter isQueryCall
                  (trace
                     (outcomeWorld
                        match rowsClose w' with
                        | (Some e, w0) => Returned (Some e) w0
                        | (None, w0) => Returned (rowsErr w0) w0
                        end)) = filter isQueryCall (trace w)).
  { rewrite <- Hit, <- (queries_rowsClose w').
    destruct (rowsClose w') as [[e|] w0]; reflexivity. }
  destruct k; [destruct (Accumulator q)|]; try exact Hcl. exact Hit.
Qed.

(** X10.  A fetch issues at most one query, whatever the callbacks, the
    connection and the cursor do: there is no retry, and the row loop never
    goes back to the connection. *)
Theorem fetch_issues_one_query q ctx db0 w :
  length (filter isQueryCall (trace (snd (FetchContext q ctx db0 w))))
  <= S (length (filter isQueryCall (trace w))).
Proof.
  unfold FetchContext.
  destruct (match db0 with Some d => Some d | None => QueryDB q end)
    as [db|]; [|cbn; lia].
  destruct (RowMapper q) as [mapper|]; [|cbn; lia].
  rewrite snd_recoverFetch. unfold fetchBody. cbn [store logEvent].
  destruct (mapper _ _) as [r u1|p u1]; cbn [store setStore outcomeWorld].
  - destruct (UpdateQuery_AppendSQL _ _ _) as [tmp u2|p u2];
      cbn [store setStore outcomeWorld].
    + destruct (issueQuery ctx db (fst tmp) (snd tmp)) as [e|rs];
        [|rewrite outcomeWorld_deferClose, queries_rowsClose,
            afterQuery_no_query];
        unfold setCursor, setStore, logEvent; cbn [outcomeWorld trace];
        rewrite !filter_app, !length_app; cbn; lia.
    + unfold setStore, logEvent. cbn [trace].
      rewrite !filter_app, !length_app. cbn. lia.
  - unfold setStore, logEvent. cbn [trace].
    rewrite !filter_app, !length_app. cbn. lia.
Qed.

(** ** ExecContext *)

Section ExecProperties.

Variable dbExec : DB -> string -> list scalar -> error + option Result.
Variable dbExecContext :
  DB -> GoContext -> string -> list scalar -> error + option Result.
Variable ErowsAffected : Z.

(** X11.  ExecContext recovers a value raised by the rendering (a column
    mapper): a value implementing error is returned as the error, any other
    value wrapped by [fmt.Errorf("%#v")]; no rows are reported and nothing
    is sent to the connection.  Unlike a fetch, it makes no exception for
    [ExitPeacefully], which is returned as the error like any other
    [ExitCode]. *)
Theorem exec_recovers_panic q ctx db0 db flag u p u' :
  match db0 with Some d => Some d | None => QueryDB q end = Some db ->
  UpdateQuery_AppendSQL q emptySink u = Panic p u' ->
  ExecContext dbExec dbExecContext ErowsAffected q ctx db0 flag u
  = ((0%Z, match p with SErr e => Some e | _ => Some (Errorf_v p) end), u')
  /\ (p = SErr (ExitCode ExitPeacefully) ->
      snd (fst (ExecContext dbExec dbExecContext ErowsAffected q ctx db0
                  flag u))
      = Some (ExitCode ExitPeacefully) /\
      fetchError p = None).
Proof.
  intros Hdb Hp. unfold ExecContext. rewrite Hdb. unfold execBody.
  rewrite Hp. split.
  - destruct p; reflexivity.
  - intros ->. split; reflexivity.
Qed.

(** X12.  ExecContext reports affected rows only when asked to: without
    the [ErowsAffected] bit in the flag the count is 0 whatever the
    connection answers, and [RowsAffected] is not consulted.  With the bit
    set and a result at hand it returns what [RowsAffected] returns, count
    and error; an error of the connection is returned as it is, with
    count 0. *)
Theorem exec_rows_affected q ctx db0 db flag u tmp u' :
  match db0 with Some d => Some d | None => QueryDB q end = Some db ->
  UpdateQuery_AppendSQL q emptySink u = Ok tmp u' ->
  (forall e, issueExec dbExec dbExecContext ctx db (fst tmp) (snd tmp)
             = inl e ->
             ExecContext dbExec dbExecContext ErowsAffected q ctx db0 flag u
             = ((0%Z, Some e), u')) /\
  (forall res, issueExec dbExec dbExecContext ctx db (fst tmp) (snd tmp)
               = inr res ->
               Z.land ErowsAffected flag = 0%Z ->
               ExecContext dbExec dbExecContext ErowsAffected q ctx db0
                 flag u
               = ((0%Z, None), u')) /\
  (issueExec dbExec dbExecContext ctx db (fst tmp) (snd tmp) = inr None ->
   ExecContext dbExec dbExecContext ErowsAffected q ctx db0 flag u
   = ((0%Z, None), u')) /\
  (forall r, issueExec dbExec dbExecContext ctx db (fst tmp) (snd tmp)
             = inr (Some r) ->
             Z.land ErowsAffected flag <> 0%Z ->
             ExecContext dbExec dbExecContext ErowsAffected q ctx db0 flag u
             = (RowsAffected r, u')).
Proof.
  intros Hdb Hsql. unfold ExecContext. rewrite Hdb. unfold execBody.
  rewrite Hsql. repeat split.
  - intros e ->. reflexivity.
  - intros res -> Hflag. rewrite Hflag. destruct res; reflexivity.
  - intros ->. reflexivity.
  - intros r -> Hflag. apply Z.eqb_neq in Hflag. rewrite Hflag. cbn.
    destruct (RowsAffected r) as [n [e|]]; reflexivity.
Qed.

End ExecProperties.

(** ** Field lists and assignment lists *)

Lemma Sink_eta s : (fst s, snd s) = s.
Proof. destruct s; reflexivity. Qed.

(** A loop whose body writes one text per element writes the texts joined
    by the separator. *)
Lemma rangeJoin_texts {A : Type} sep (f : A -> Sink -> M (U := U) Sink)
    (text : A -> string) :
  (forall x s0 u0, f x s0 u0 = Ok (WriteString (text x) s0) u0) ->
  forall l i s u,
    rangeJoin sep f i l s u
    = Ok (fst s ^^ match l with
                   | [] => ""
                   | _ => if Nat.eqb i 0 then "" else sep
                   end ^^ joinStrings sep (map text l), snd s) u.
Proof.
  intros Hf. induction l as [|x r IH]; intros i s u.
  - cbn. now rewrite append_nil_r, Sink_eta.
  - cbn [rangeJoin map]. unfold bind. rewrite Hf, IH.
    unfold WriteString.
    destruct r as [|y r]; destruct (Nat.eqb i 0); cbn [fst snd map joinStrings];
      rewrite ?append_assoc, ?append_nil_r; cbn [String.append];
      rewrite ?append_nil_r; reflexivity.
Qed.

Lemma rangeJoin_map {A B : Type} sep (f : B -> Sink -> M (U := U) Sink)
    (g : A -> B) l :
  forall i s u,
    rangeJoin sep f i (map g l) s u
    = rangeJoin sep (fun x => f (g x)) i l s u.
Proof.
  induction l as [|x r IH]; intros i s u; cbn; [reflexivity|].
  apply bind_congr. intros s1 u1. apply IH.
Qed.

(** X13.  A field list of FieldLiterals and nil entries renders as the
    literal texts joined by a comma and a space, [NULL] standing for each nil
    entry; nothing is added to the arguments, and neither the exclusion set
    nor the aliasing variant makes a difference. *)
Theorem fields_literals_join (ts : list (option string)) excl s u :
  Fields_AppendSQLExclude (map literalField ts) excl s u
  = Ok (fst s ^^ joinStrings ", " (map literalText ts), snd s) u /\
  Fields_AppendSQLExcludeWithAlias (map literalField ts) excl s u
  = Ok (fst s ^^ joinStrings ", " (map literalText ts), snd s) u.
Proof.
  unfold Fields_AppendSQLExclude, Fields_AppendSQLExcludeWithAlias.
  split; rewrite rangeJoin_map;
    rewrite (rangeJoin_texts ", " _ literalText);
    try (destruct ts; reflexivity);
    intros [t|] s0 u0; reflexivity.
Qed.

Lemma rangeJoin_congr {A : Type} sep (f g : A -> Sink -> M (U := U) Sink) l :
  Forall (fun x => forall s0 u0, f x s0 u0 = g x s0 u0) l ->
  forall i s u, rangeJoin sep f i l s u = rangeJoin sep g i l s u.
Proof.
  induction 1 as [|x r Hx _ IH]; intros i s u; cbn [rangeJoin];
    [reflexivity|].
  unfold bind. rewrite Hx. destruct (g x _ u); [apply IH|reflexivity].
Qed.

Lemma writeAlias_empty alias s : isEmpty alias = true -> writeAlias alias s = s.
Proof. intros H. unfold writeAlias. now rewrite H. Qed.

(** X14.  [AppendSQLExcludeWithAlias] is exactly like [AppendSQLExclude]
    on a field list none of whose fields has an alias (each entry is nil, or
    its [GetAlias] returns the empty string). *)
Theorem fields_alias_free (fs : list (Field (U := U))) excl s u :
  forallb aliasFree fs = true ->
  Fields_AppendSQLExcludeWithAlias fs excl s u
  = Fields_AppendSQLExclude fs excl s u.
Proof.
  intros H. unfold Fields_AppendSQLExcludeWithAlias, Fields_AppendSQLExclude.
  apply rangeJoin_congr. rewrite forallb_forall in H. apply Forall_forall.
  intros f Hin s0 u0. specialize (H f Hin).
  destruct f as [|t|c|[fi|]]; cbn in H |- *; try reflexivity;
    try discriminate.
  - unfold bind, write, ret. now rewrite writeAlias_empty.
  - unfold bind, ret.
    destruct (FunctionInfo_render fi excl s0 u0) as [s1 u1|p u1];
      [|reflexivity].
    now rewrite writeAlias_empty.
Qed.

(** A loop one of whose elements always raises never returns normally. *)
Lemma rangeJoin_panics {A : Type} sep (f : A -> Sink -> M (U := U) Sink) l x :
  In x l ->
  (forall s0 u0, exists p u', f x s0 u0 = Panic p u') ->
  forall i s u, exists p u', rangeJoin sep f i l s u = Panic p u'.
Proof.
  intros Hin Hx. induction l as [|y r IH]; [now elim Hin|].
  intros i s u. cbn [rangeJoin]. unfold bind.
  destruct (f y _ u) as [s1 u1|p u1] eqn:Hy.
  - destruct Hin as [->|Hin].
    + destruct (Hx (if Nat.eqb i 0 then s else WriteString sep s) u)
        as (p & u' & Hp). congruence.
    + apply (IH Hin).
  - now exists p, u1.
Qed.

(** X15.  A nil [*FunctionInfo] in a field list: [AppendSQLExclude] writes
    nothing for it (only the separator before it), while
    [AppendSQLExcludeWithAlias], which asks every non-nil entry for its
    alias, never returns normally. *)
Theorem fields_nil_function (fs : list (Field (U := U))) excl s u :
  Fields_AppendSQLExclude (fs ++ [FieldFunction None]) excl s u
  = (s1 <- Fields_AppendSQLExclude fs excl s ;;
     ret (if Nat.eqb (length fs) 0 then s1 else WriteString ", " s1)) u
  /\ (forall fs', In (FieldFunction None) fs' ->
     exists p u', Fields_AppendSQLExcludeWithAlias fs' excl s u = Panic p u').
Proof.
  split.
  - unfold Fields_AppendSQLExclude. now rewrite rangeJoin_snoc.
  - intros fs' Hin. unfold Fields_AppendSQLExcludeWithAlias.
    apply (rangeJoin_panics _ _ _ _ Hin).
    intros s0 u0. now exists nilDereference, u0.
Qed.

Lemma Assignments_nil_raises (l : list (Assignment (U := U))) excl s u :
  In AssignmentNil l ->
  exists p u', Assignments_AppendSQLExclude l excl s u = Panic p u'.
Proof.
  intros Hin. unfold Assignments_AppendSQLExclude.
  apply (rangeJoin_panics _ _ _ _ Hin).
  intros s0 u0. now exists nilDereference, u0.
Qed.

(** X16.  [Assignments.AppendSQLExclude] has no nil check: on a list that
    holds a nil Assignment it never returns normally, where
    [Fields.AppendSQLExclude] renders [NULL] for a nil Field. *)
Theorem assignments_nil_panics (l : list (Assignment (U := U))) excl s u :
  In AssignmentNil l ->
  (exists p u', Assignments_AppendSQLExclude l excl s u = Panic p u') /\
  (forall pre, l = pre ++ [AssignmentNil] -> forall s1 u1,
     Assignments_AppendSQLExclude pre excl s u = Ok s1 u1 ->
     Assignments_AppendSQLExclude l excl s u = Panic nilDereference u1).
Proof.
  intros Hin. split.
  - apply Assignments_nil_raises, Hin.
  - intros pre -> s1 u1 Hpre. unfold Assignments_AppendSQLExclude in *.
    rewrite rangeJoin_snoc. unfold bind. rewrite Hpre. reflexivity.
Qed.

Lemma bind_panics {A B : Type} (m : M (U := U) A) (k : A -> M B) u :
  (forall a u1, exists p u', k a u1 = Panic p u') ->
  exists p u', bind m k u = Panic p u'.
Proof.
  intros Hk. unfold bind. destruct (m u) as [a u1|p u1]; [apply Hk|].
  now exists p, u1.
Qed.

Lemma bind_panics_l {A B : Type} (m : M (U := U) A) (k : A -> M B) u :
  (exists p u', m u = Panic p u') ->
  exists p u', bind m k u = Panic p u'.
Proof. intros (p & u' & H). unfold bind. rewrite H. now exists p, u'. Qed.

(** X17.  [ToSQL] on a statement without column mapper whose SET list
    holds a nil Assignment: the rendering raises, [ToSQL] recovers, and the
    caller gets the empty string and a one-element argument list holding the
    raised value instead of a statement. *)
Theorem ToSQL_nil_assignment q u :
  ColumnMapper q = None ->
  In AssignmentNil (Assignments q) ->
  exists r u', ToSQL q u = (("", [r]), u').
Proof.
  intros Hcm Hin.
  assert (H : exists p u', UpdateQuery_AppendSQL q emptySink u = Panic p u').
  { unfold UpdateQuery_AppendSQL. rewrite UpdateQuery_render_unfold.
    unfold runColumnMapper. rewrite Hcm. rewrite bind_ret_l.
    apply bind_panics. intros s1 u1. apply bind_panics_l.
    unfold appendClauses. apply bind_panics. intros s3 u3.
    apply bind_panics_l. unfold appendSet.
    destruct (Assignments q) as [|a0 al] eqn:Ha; [now elim Hin|].
    destruct (Assignments_nil_raises (a0 :: al)
                (excludedTableQualifiers q) (WriteString " SET " s3) u3 Hin)
      as (p & u' & Hp).
    now exists p, u'. }
  destruct H as (p & u' & H). exists p, u'. unfold ToSQL. now rewrite H.
Qed.

Lemma bind_congr_l {A B : Type} (m m' : M (U := U) A) (k : A -> M B) u :
  m u = m' u -> bind m k u = bind m' k u.
Proof. intros H. unfold bind. now rewrite H. Qed.

Lemma ColumnAssignments_render (l : list (ColumnInfo * scalar)) excl :
  forall i s u,
    rangeJoin (U := U) ", "
      (fun a => ColumnAssignment_AppendSQLExclude a excl) i l s u
    = rangeJoin ", " (fun a => Assignment_AppendSQLExclude a excl) i
        (ColumnAssignments l) s u.
Proof.
  intros i s u. unfold ColumnAssignments. rewrite rangeJoin_map.
  apply rangeJoin_congr. apply Forall_forall. intros [c v] _ s0 u0.
  reflexivity.
Qed.

(** X18.  The two binding styles agree: a column mapper that records the
    assignments [l] on the cursor renders like a [Set] with the same
    assignments, column by column and literal by literal. *)
Theorem setx_renders_like_set q mapper l s u :
  ColumnMapper q = None ->
  Assignments q = [] ->
  (forall c u0, mapper c u0 = Ok (Build_Column (mode c) l) u0) ->
  UpdateQuery_AppendSQL (UpdateQuery_Setx q mapper) s u
  = UpdateQuery_AppendSQL (UpdateQuery_Set q (ColumnAssignments l)) s u.
Proof.
  intros Hcm Ha Hm. destruct q as [n c t a f j wp r d cm rm ac].
  cbn in Hcm, Ha. subst cm a.
  unfold UpdateQuery_AppendSQL. cbn [UpdateQuery_Set UpdateQuery_Setx nested].
  rewrite !UpdateQuery_render_unfold.
  unfold runColumnMapper. cbn [ColumnMapper CTEs FromTable JoinTables].
  rewrite bind_assoc. unfold bind at 1. rewrite Hm. cbn [assignments].
  rewrite !bind_ret_l. apply bind_congr. intros s1 u1.
  apply bind_congr_l.
  unfold appendClauses, appendUpdate, appendSet.
  rewrite !bind_ret_l. apply bind_congr_l.
  cbn [Assignments app excludedTableQualifiers UpdateTable].
  unfold Assignments_AppendSQLExclude.
  destruct l as [|a0 l0]; [reflexivity|].
  rewrite ColumnAssignments_render. reflexivity.
Qed.

(** ** Function calls *)

Lemma splitAtQuestion_some fmt pre post :
  splitAtQuestion fmt = Some (pre, post) ->
  fmt = pre ^^ "?" ^^ post /\ countQuestion fmt = S (countQuestion post).
Proof.
  revert pre post. induction fmt as [|c r IH]; cbn; intros pre post H;
    [discriminate|].
  unfold question in *. destruct (Ascii.eqb c "?") eqn:E.
  - injection H as <- <-. apply Ascii.eqb_eq in E. subst c. now split.
  - destruct (splitAtQuestion r) as [[pre' post']|]; [|discriminate].
    injection H as <- <-. destruct (IH _ _ eq_refl) as [-> Hc].
    split; [reflexivity|]. exact Hc.
Qed.

Lemma splitAtQuestion_none fmt :
  splitAtQuestion fmt = None -> countQuestion fmt = 0.
Proof.
  induction fmt as [|c r IH]; cbn; [reflexivity|].
  unfold question. destruct (Ascii.eqb c "?"); [discriminate|].
  destruct (splitAtQuestion r) as [[pre post]|]; [discriminate|].
  intros _. now apply IH.
Qed.

(** Literal values substituted into a format: the text is the format
    itself, and one value is bound for each marker as long as values are
    left. *)
Lemma expandValues_literals excl (xs : list scalar) :
  forall fmt s u,
    expandValues (U := U) (fun v => appendSQLValue v excl) (map VLit xs)
      fmt s u
    = Ok (fst s ^^ fmt, snd s ++ firstn (countQuestion fmt) xs) u.
Proof.
  induction xs as [|x r IH]; intros fmt s u; cbn [map expandValues].
  - rewrite firstn_nil, app_nil_r. reflexivity.
  - destruct (splitAtQuestion fmt) as [[pre post]|] eqn:E.
    + destruct (splitAtQuestion_some _ _ _ E) as [-> Hc].
      cbn [appendSQLValue]. rewrite bind_ret_l, IH, Hc.
      unfold appendArg, WriteString. cbn [fst snd firstn].
      rewrite !append_assoc, <- app_assoc. reflexivity.
    + rewrite (splitAtQuestion_none _ E). cbn [firstn].
      rewrite app_nil_r. reflexivity.
Qed.

Lemma FunctionInfo_format_markers schema name n :
  n <= countQuestion (FunctionInfo_format schema name n).
Proof.
  unfold FunctionInfo_format. destruct n as [|k]; [lia|].
  rewrite !countQuestion_app, countQuestion_repeat. cbn. lia.
Qed.

(** X19.  A function call whose arguments are literal values renders as
    its format, [schema.name(?, ..., ?)] with one marker per argument, and
    binds the arguments in their order; [Functionf] gives a call without
    schema.  The format has exactly as many markers as there are arguments
    when the schema and the name hold none. *)
Theorem function_call_literals schema name alias (xs : list scalar) excl s u :
  FunctionInfo_AppendSQLExclude
    (Some (Build_FunctionInfo schema name alias (map VLit xs))) excl s u
  = Ok (fst s ^^ FunctionInfo_format schema name (length xs), snd s ++ xs) u
  /\
  FunctionInfo_AppendSQL (Functionf name (map VLit xs)) s u
  = Ok (fst s ^^ FunctionInfo_format "" name (length xs), snd s ++ xs) u
  /\
  countQuestion (FunctionInfo_format schema name (length xs))
  = countQuestion schema + countQuestion name + length xs.
Proof.
  assert (H : forall sch excl0,
             FunctionInfo_AppendSQLExclude
               (Some (Build_FunctionInfo sch name alias (map VLit xs)))
               excl0 s u
             = Ok (fst s ^^ FunctionInfo_format sch name (length xs),
                   snd s ++ xs) u).
  { intros sch excl0. cbn [FunctionInfo_AppendSQLExclude FunctionInfo_render].
    rewrite length_map.
    change (expandValues _ (map VLit xs) ?f s u)
      with (expandValues (fun v => appendSQLValue v excl0) (map VLit xs)
              (FunctionInfo_format sch name (length xs)) s u).
    rewrite expandValues_literals, firstn_all2; [reflexivity|].
    apply FunctionInfo_format_markers. }
  split; [apply H|]. split; [apply H|].
  unfold FunctionInfo_format.
  assert (Hs : countQuestion
                 (if isEmpty schema then ""
                  else if containsSpaceOrTab schema
                       then dquote ^^ schema ^^ dquote ^^ "."
                       else schema ^^ ".") = countQuestion schema).
  { unfold isEmpty. destruct (String.eqb schema "") eqn:E.
    - apply String.eqb_eq in E. now subst.
    - destruct (containsSpaceOrTab schema); rewrite !countQuestion_app;
        cbn; lia. }
  destruct (length xs) as [|k]; rewrite !countQuestion_app, Hs.
  - cbn. lia.
  - rewrite countQuestion_repeat. cbn. lia.
Qed.

(** ** Statement trees *)

(** X20.  A rendering raises nothing of its own: on a statement tree that
    calls no nil Assignment and no nil function pointer, in RETURNING or as
    FROM or JOIN table, whatever a rendering raises has been raised by one
    of the column mappers of the tree. *)
Theorem render_panic_provenance (P : scalar -> Prop) q s u p u' :
  everyQuery (fun q' => nilSafe q' /\ mapperRaises P q') q ->
  UpdateQuery_AppendSQL q s u = Panic p u' ->
  P p.
Proof.
  intros H. unfold UpdateQuery_AppendSQL. revert u p u'.
  refine (render_closure
            (fun A (m : M A) => forall u0 p0 u1, m u0 = Panic p0 u1 -> P p0)
            False _ _ _ (fun q' => nilSafe q' /\ mapperRaises P q') _ _
            q (nested q) s H).
  - intros A a u0 p0 u1 Hp. discriminate.
  - intros A B m k Hm Hk u0 p0 u1. unfold bind.
    destruct (m u0) as [a u2|p2 u2] eqn:E.
    + apply Hk.
    + intros Hp. injection Hp as <- <-. exact (Hm _ _ _ E).
  - intros [].
  - intros q0 [Hn _]. now right.
  - intros q0 [_ Hm] m Hcm c u0 p0 u1. exact (Hm m Hcm c u0 p0 u1).
Qed.

(** X21.  A statement tree without column mappers (and without nil
    Assignment or nil function pointer, in RETURNING or as FROM or JOIN
    table) is a pure value: its rendering always returns, gives the same
    text and arguments whatever the caller's variables hold, and leaves them
    as they are. *)
Theorem render_without_mappers q :
  everyQuery (fun q' => nilSafe q' /\ declarative q') q ->
  (forall s, exists s', forall u, UpdateQuery_AppendSQL q s u = Ok s' u) /\
  exists sql args, forall u, ToSQL q u = ((sql, args), u).
Proof.
  intros H.
  assert (Hr : forall s, exists s',
               forall u, UpdateQuery_AppendSQL q s u = Ok s' u).
  { intros s. unfold UpdateQuery_AppendSQL.
    refine (render_closure
              (fun A (m : M A) => exists a, forall u0, m u0 = Ok a u0)
              False _ _ _ (fun q' => nilSafe q' /\ declarative q') _ _
              q (nested q) s H).
    - intros A a. now exists a.
    - intros A B m k [a Hm] Hk. destruct (Hk a) as [b Hb]. exists b.
      intros u0. unfold bind. now rewrite Hm.
    - intros [].
    - intros q0 [Hn _]. now right.
    - intros q0 [_ Hd] m Hcm. unfold declarative in Hd. congruence. }
  split; [exact Hr|].
  destruct (Hr emptySink) as [[sql args] Hs]. exists sql, args.
  intros u. unfold ToSQL. now rewrite Hs.
Qed.

(** ** Rendering appends *)

Lemma extends_refl s : extends s s.
Proof.
  exists "", []. now rewrite append_nil_r, app_nil_r, Sink_eta.
Qed.

Lemma extends_trans s1 s2 s3 : extends s1 s2 -> extends s2 s3 -> extends s1 s3.
Proof.
  intros (t1 & l1 & ->) (t2 & l2 & ->). exists (t1 ^^ t2), (l1 ++ l2).
  cbn [fst snd]. now rewrite append_assoc, app_assoc.
Qed.

Lemma extends_WriteString t s : extends s (WriteString t s).
Proof. exists t, []. unfold WriteString. now rewrite app_nil_r. Qed.

Lemma extends_appendArg v s : extends s (appendArg v s).
Proof. exists "", [v]. unfold appendArg. now rewrite append_nil_r. Qed.

Lemma extends_writeAlias a s : extends s (writeAlias a s).
Proof.
  unfold writeAlias. destruct (isEmpty a); [apply extends_refl|].
  eapply extends_trans; apply extends_WriteString.
Qed.

Ltac extends_step :=
  unfold id; cbn [fst snd];
  first [apply extends_refl | apply extends_WriteString
        | apply extends_appendArg | apply extends_writeAlias
        | eapply extends_trans; [|apply extends_WriteString]; extends_step
        | eapply extends_trans; [|apply extends_appendArg]; extends_step
        | eapply extends_trans; [|apply extends_writeAlias]; extends_step ].

Lemma Extends_ret {A : Type} (proj : A -> Sink) s0 (a : A) :
  extends s0 (proj a) -> Extends (U := U) proj s0 (ret a).
Proof. intros H u a' u' [= <- <-]. exact H. Qed.

Lemma Extends_panic {A : Type} (proj : A -> Sink) s0 p :
  Extends (U := U) proj s0 (panic p).
Proof. intros u a u' H. discriminate. Qed.

Lemma Extends_bind {A B : Type} (pa : A -> Sink) (pb : B -> Sink) s0
    (m : M (U := U) A) (k : A -> M B) :
  Extends pa s0 m ->
  (forall a, extends s0 (pa a) -> Extends pb (pa a) (k a)) ->
  Extends pb s0 (bind m k).
Proof.
  intros Hm Hk u b u' H. unfold bind in H.
  destruct (m u) as [a u1|p u1] eqn:E; [|discriminate].
  pose proof (Hm _ _ _ E) as Ha.
  eapply extends_trans; [exact Ha|]. eapply Hk; eassumption.
Qed.

(** A computation that returns no sink, followed by one that extends. *)
Lemma Extends_after {A B : Type} (pb : B -> Sink) s0
    (m : M (U := U) A) (k : A -> M B) :
  (forall a, Extends pb s0 (k a)) -> Extends pb s0 (bind m k).
Proof.
  intros Hk. apply (Extends_bind (fun _ => s0) pb); [|intros a _; apply Hk].
  intros u a u' _. apply extends_refl.
Qed.

Lemma Extends_from {A : Type} (proj : A -> Sink) s0 s1 (m : M (U := U) A) :
  extends s0 s1 -> Extends proj s1 m -> Extends proj s0 m.
Proof.
  intros H Hm u a u' E. eapply extends_trans; [exact H|]. eapply Hm, E.
Qed.

Lemma Extends_rangeJoin {A : Type} sep (f : A -> Sink -> M (U := U) Sink) l :
  Forall (fun x => forall s, Extends id s (f x s)) l ->
  forall i s, Extends id s (rangeJoin sep f i l s).
Proof.
  induction 1 as [|x r Hx _ IH]; intros i s; cbn [rangeJoin].
  - apply Extends_ret, extends_refl.
  - apply (Extends_bind id id).
    + eapply Extends_from; [|apply Hx].
      destruct (Nat.eqb i 0); extends_step.
    + intros s1 _. apply IH.
Qed.

Lemma Extends_expandValues (f : value -> Sink -> M (U := U) Sink) vals :
  Forall (fun v => forall s, Extends id s (f v s)) vals ->
  forall fmt s, Extends id s (expandValues f vals fmt s).
Proof.
  induction 1 as [|x r Hx _ IH]; intros fmt s; cbn [expandValues].
  - apply Extends_ret. extends_step.
  - destruct (splitAtQuestion fmt) as [[pre post]|].
    + apply (Extends_bind id id).
      * eapply Extends_from; [|apply Hx]. extends_step.
      * intros s1 _. apply IH.
    + apply Extends_ret. extends_step.
Qed.

Lemma Extends_foldM {A : Type}
    (f : A -> list string * Sink -> M (U := U) (list string * Sink)) l :
  Forall (fun x => forall st, Extends snd (snd st) (f x st)) l ->
  forall st, Extends snd (snd st) (foldM f l st).
Proof.
  induction 1 as [|x r Hx _ IH]; intros st; cbn [foldM].
  - apply Extends_ret, extends_refl.
  - apply (Extends_bind snd snd); [apply Hx|]. intros st1 _. apply IH.
Qed.

Lemma Extends_appendCTE n q :
  (forall s, Extends id s (UpdateQuery_render (U := U) true q s)) ->
  forall st,
    Extends snd (snd st)
      (appendCTE (UpdateQuery_render true) (Build_CTE n q) st).
Proof.
  intros H st. unfold appendCTE. cbn [cteName cteQuery].
  destruct (inStrings n (fst st)); [apply Extends_ret, extends_refl|].
  apply (Extends_bind id snd).
  - eapply Extends_from; [|apply H]. extends_step.
  - intros s1 _. apply Extends_ret. extends_step.
Qed.

Section Appending.

Let Pv (v : value (U := U)) : Prop :=
  forall excl s, Extends id s (appendSQLValue v excl s).
Let Pf (f : Field (U := U)) : Prop :=
  forall excl s, Extends id s (Field_AppendSQLExclude f excl s).
Let Pfi (f : FunctionInfo (U := U)) : Prop :=
  forall excl s, Extends id s (FunctionInfo_render f excl s).
Let Pa (a : Assignment (U := U)) : Prop :=
  forall excl s, Extends id s (Assignment_AppendSQLExclude a excl s).
Let Pp (p : Predicate (U := U)) : Prop :=
  forall excl s, Extends id s (Predicate_AppendSQLExclude p excl s).
Let Pvp (p : VariadicPredicate (U := U)) : Prop :=
  forall top excl s, Extends id s (VariadicPredicate_render top p excl s).
Let Pt (t : Table (U := U)) : Prop :=
  ((forall q a, t <> TableQuery q a) ->
   forall s, Extends id s (Table_AppendSQL t s)) /\
  (forall q a, t = TableQuery q a ->
               forall s, Extends id s (UpdateQuery_render true q s)) /\
  (forall st, Extends snd (snd st)
                (appendTableCTE (UpdateQuery_render true) t st)).
Let Pj (j : JoinTable (U := U)) : Prop :=
  (forall s, Extends id s (JoinTable_AppendSQL j s)) /\
  (forall st, Extends snd (snd st)
                (appendTableCTE (UpdateQuery_render true) (JoinedTable j) st)).
Let Pc (c : CTE (U := U)) : Prop :=
  forall st, Extends snd (snd st) (appendCTE (UpdateQuery_render true) c st).
Let Pq (q : UpdateQuery (U := U)) : Prop :=
  (forall nest s u s' u',
     UpdateQuery_render nest q s u = Ok s' u' ->
     exists s8,
       extends s s8 /\
       s' = if nest then s8
            else (questionToDollarPlaceholders (fst s8), snd s8)) /\
  (forall s u s' u',
     UpdateQuery_render true q s u = Ok s' u' ->
     forall s3, appendUpdate q s u = Ok s3 u -> extends s3 s').

Lemma Pq_nested q : Pq q ->
  forall s, Extends id s (UpdateQuery_render true q s).
Proof.
  intros [H _] s u a u' E. destruct (H true s u a u' E) as (s8 & Hx & ->).
  exact Hx.
Qed.

Lemma Extends_table sub (t : Table (U := U)) s :
  Pt t -> t <> TableNil -> extends s sub ->
  Extends id s
    match t with
    | TableNil => ret s
    | TableQuery v alias =>
        s' <- UpdateQuery_render true v (WriteString "(" sub) ;;
        ret (writeAlias alias (WriteString ")" s'))
    | _ =>
        s' <- Table_AppendSQL t sub ;;
        alias <- Table_GetAlias t ;;
        ret (writeAlias alias s')
    end.
Proof.
  intros (Hsql & Hsub & _) Hne Hx.
  destruct t as [|b|v alias|c|fn]; [now elim Hne| | | |].
  - apply (Extends_bind id id).
    + eapply Extends_from; [exact Hx|]. apply Hsql. discriminate.
    + intros s1 _. apply Extends_after. intros alias. apply Extends_ret.
      extends_step.
  - apply (Extends_bind id id).
    + eapply Extends_from; [|eapply Hsub; reflexivity].
      eapply extends_trans; [exact Hx|]. extends_step.
    + intros s1 _. apply Extends_ret. extends_step.
  - apply (Extends_bind id id).
    + eapply Extends_from; [exact Hx|]. apply Hsql. discriminate.
    + intros s1 _. apply Extends_after. intros alias. apply Extends_ret.
      extends_step.
  - apply (Extends_bind id id).
    + eapply Extends_from; [exact Hx|]. apply Hsql. discriminate.
    + intros s1 _. apply Extends_after. intros alias. apply Extends_ret.
      extends_step.
Qed.

Lemma appending_tree : forall q, Pq q.
Proof.
  apply (UpdateQuery_tree_ind Pv Pf Pfi Pa Pp Pvp Pt Pj Pc Pq);
    unfold Pv, Pf, Pfi, Pa, Pp, Pvp, Pt, Pj, Pc.
  - (* VNil *) intros excl s. apply Extends_ret. extends_step.
  - (* VLit *) intros x excl s. apply Extends_ret. extends_step.
  - (* VField *) intros f IH excl s. cbn [appendSQLValue].
    destruct f; try apply IH. apply Extends_ret. extends_step.
  - (* VQuery *) intros q IH excl s. cbn [appendSQLValue].
    apply (Extends_bind id id).
    + eapply Extends_from; [|apply Pq_nested, IH]. extends_step.
    + intros s1 _. apply Extends_ret. extends_step.
  - (* FieldNil *) intros excl s. apply Extends_panic.
  - intros t excl s. apply Extends_ret. extends_step.
  - intros c excl s. apply Extends_ret. extends_step.
  - intros excl s. apply Extends_ret. extends_step.
  - (* FieldFunction *) intros fi IH excl s. apply IH.
  - (* FunctionInfo *) intros sc n a args IH excl s.
    cbn [FunctionInfo_render]. apply Extends_expandValues.
    eapply Forall_impl; [|exact IH]. intros v Hv s0. apply Hv.
  - (* AssignmentNil *) intros excl s. apply Extends_panic.
  - (* FieldAssignment *) intros f v IHf IHv excl s.
    cbn [Assignment_AppendSQLExclude]. apply (Extends_bind id id).
    + destruct f; try apply IHf. apply Extends_ret. extends_step.
    + intros s1 _. eapply Extends_from; [|apply IHv]. extends_step.
  - (* CustomPredicate *) intros fmt vals IH excl s.
    cbn [Predicate_AppendSQLExclude]. apply Extends_expandValues.
    eapply Forall_impl; [|exact IH]. intros v Hv s0. apply Hv.
  - (* PVariadic *) intros vp IH excl s. apply IH.
  - (* VariadicPredicate *) intros t o preds IH top excl s.
    cbn [VariadicPredicate_render].
    assert (Hall : Forall (fun x => forall s0,
                             Extends id s0
                               (Predicate_AppendSQLExclude x excl s0))
                     preds).
    { eapply Forall_impl; [|exact IH]. intros x Hx s0. apply Hx. }
    destruct preds as [|p1 [|p2 r]].
    + apply Extends_ret. extends_step.
    + inversion Hall; subst. auto.
    + apply (Extends_bind id id).
      * eapply Extends_from; [|apply Extends_rangeJoin, Hall].
        destruct top; extends_step.
      * intros s1 _. apply Extends_ret. destruct top; extends_step.
  - (* TableNil *) split; [intros _ s; apply Extends_panic|].
    split; [intros; discriminate|]. intros st.
    apply Extends_ret, extends_refl.
  - (* TableBase *) intros b.
    split; [intros _ s; apply Extends_ret; extends_step|].
    split; [intros; discriminate|]. intros st.
    apply Extends_ret, extends_refl.
  - (* TableQuery *) intros q a IH.
    split; [intros H; now elim (H q a)|].
    split; [|intros st; apply Extends_ret, extends_refl].
    intros q' a' [= <- <-] s. apply Pq_nested, IH.
  - (* TableCTE *) intros c IH.
    split; [intros _ s; apply Extends_ret; extends_step|].
    split; [intros; discriminate|]. intros st. apply IH.
  - (* nil function *)
    split; [intros _ s; apply Extends_ret, extends_refl|].
    split; [intros; discriminate|]. intros st.
    apply Extends_ret, extends_refl.
  - (* TableFunction *) intros fi IH.
    split; [intros _ s; apply IH|].
    split; [intros; discriminate|]. intros st.
    apply Extends_ret, extends_refl.
  - (* JoinTable *) intros jt t on IHt IHon. split; [|apply IHt].
    intros s. cbn [JoinTable_AppendSQL]. apply (Extends_bind id id).
    + destruct t as [|b|v alias|c|fn].
      * apply Extends_ret. extends_step.
      * apply (Extends_table _ (TableBase b) s IHt); [discriminate|].
        extends_step.
      * apply (Extends_table _ (TableQuery v alias) s IHt); [discriminate|].
        extends_step.
      * apply (Extends_table _ (TableCTE c) s IHt); [discriminate|].
        extends_step.
      * apply (Extends_table _ (TableFunction fn) s IHt); [discriminate|].
        extends_step.
    + intros s3 _. destruct (Predicates on).
      * apply Extends_ret. extends_step.
      * eapply Extends_from; [|apply IHon]. extends_step.
  - (* CTE *) intros n q IH st. apply Extends_appendCTE, Pq_nested, IH.
  - (* UpdateQuery *)
    intros n c t a f j wp rf d cm rm ac IHc IHa IHf IHj IHwp IHrf.
    set (q := Build_UpdateQuery n c t a f j wp rf d cm rm ac).
    assert (Hrest : forall mapped s3,
      Extends id s3
        (s4 <- appendSet q mapped s3 ;;
         s5 <- appendFrom q s4 ;;
         s6 <- appendJoins q s5 ;;
         s7 <- appendWhere q s6 ;;
         appendReturning q s7)).
    { intros mapped s3. unfold q. apply (Extends_bind id id).
      { unfold appendSet. cbn [Assignments].
        destruct mapped as [l|].
        - destruct l; [apply Extends_ret, extends_refl|].
          eapply Extends_from; [|apply Extends_rangeJoin].
          + extends_step.
          + apply Forall_forall. intros x _ s0. apply Extends_ret.
            unfold id. cbn [fst snd]. extends_step.
        - destruct a as [|a0 ar]; [apply Extends_ret, extends_refl|].
          eapply Extends_from;
            [|unfold Assignments_AppendSQLExclude; apply Extends_rangeJoin].
          + extends_step.
          + eapply Forall_impl; [|exact IHa]. intros x Hx s0. apply Hx. }
      intros s4 _. apply (Extends_bind id id).
      { unfold appendFrom. cbn [FromTable].
        destruct f as [|b|v alias|cte|fn].
        - apply Extends_ret, extends_refl.
        - apply (Extends_table _ (TableBase b) s4 IHf); [discriminate|].
          extends_step.
        - rewrite AppendSQL_NestThis.
          apply (Extends_table _ (TableQuery v alias) s4 IHf);
            [discriminate|]. extends_step.
        - apply (Extends_table _ (TableCTE cte) s4 IHf); [discriminate|].
          extends_step.
        - apply (Extends_table _ (TableFunction fn) s4 IHf);
            [discriminate|]. extends_step. }
      intros s5 _. apply (Extends_bind id id).
      { unfold appendJoins, JoinTables_AppendSQL. cbn [JoinTables].
        destruct j as [|j0 jr]; [apply Extends_ret, extends_refl|].
        eapply Extends_from; [|apply Extends_rangeJoin].
        - extends_step.
        - eapply Forall_impl; [|exact IHj]. intros x [Hx _]. exact Hx. }
      intros s6 _. apply (Extends_bind id id).
      { unfold appendWhere. cbn [WherePredicate].
        destruct (Predicates wp); [apply Extends_ret, extends_refl|].
        rewrite AppendSQLExclude_set_toplevel.
        eapply Extends_from; [|apply IHwp]. extends_step. }
      intros s7 _. unfold appendReturning, Fields_AppendSQLExcludeWithAlias.
      cbn [ReturningFields].
      destruct rf as [|f0 fr]; [apply Extends_ret, extends_refl|].
      eapply Extends_from; [|apply Extends_rangeJoin].
      - extends_step.
      - eapply Forall_impl; [|exact IHrf]. intros x Hx s0.
        destruct x as [|t0|c0|fi]; try (apply Extends_ret; extends_step);
          (apply (Extends_bind id id); [apply Hx|]); intros s9 _;
          apply Extends_after; intros alias; apply Extends_ret;
          extends_step. }
    split.
    2:{ intros s u s' u' H s3 H3.
        rewrite UpdateQuery_render_unfold in H. fold q in H.
        unfold bind at 1 in H.
        destruct (runColumnMapper q u) as [mapped u1|p u1]; [|discriminate].
        rewrite bind_ret_l in H. unfold appendClauses in H.
        unfold appendUpdate in H, H3. unfold ret at 1 in H3.
        injection H3 as <-. rewrite bind_assoc, bind_ret_l in H.
        rewrite bind_ret_r in H.
        exact (Hrest mapped _ _ _ _ H). }
    intros nest s u s' u' H.
    assert (Hbody :
      Extends id s
        (mapped <- runColumnMapper q ;;
         s1 <- (if nest then ret s else appendCTEs c f j s) ;;
         appendClauses q mapped s1)).
    { apply Extends_after. intros mapped. apply (Extends_bind id id).
      { destruct nest; [apply Extends_ret, extends_refl|].
        unfold appendCTEs.
        apply (Extends_bind snd id).
        { apply (Extends_foldM _ c). eapply Forall_impl; [|exact IHc].
          intros x Hx st. apply Hx. }
        intros st1 _. apply (Extends_bind snd id); [apply IHf|].
        intros st2 _. apply (Extends_bind snd id).
        { apply (Extends_foldM _ j). eapply Forall_impl; [|exact IHj].
          intros x [_ Hx] st. apply Hx. }
        intros st3 _. apply Extends_ret.
        destruct (fst st3); extends_step. }
      intros s1 _. unfold appendClauses.
      apply (Extends_bind id id).
      { unfold appendUpdate, q. cbn [UpdateTable]. apply Extends_ret.
        destruct t; extends_step. }
      intros s3 _. apply Hrest. }
    rewrite UpdateQuery_render_unfold in H.
    cbn [CTEs FromTable JoinTables q] in H.
    assert (Hsplit :
      forall (body : M Sink) (fin : Sink -> M Sink),
        Extends id s body ->
        bind body fin u = Ok s' u' ->
        exists s8 u8, extends s s8 /\ fin s8 u8 = Ok s' u').
    { intros body fin Hb Hf. unfold bind in Hf.
      destruct (body u) as [s8 u8|p u8] eqn:E; [|discriminate].
      exists s8, u8. split; [exact (Hb _ _ _ E)|exact Hf]. }
    destruct (Hsplit _ (fun s8 => if nest then ret s8
                                  else ret (questionToDollarPlaceholders
                                              (fst s8), snd s8)) Hbody)
      as (s8 & u8 & Hx & Hfin).
    { rewrite <- H. rewrite bind_assoc. apply bind_congr. intros mapped u1.
      rewrite bind_assoc. reflexivity. }
    exists s8. split; [exact Hx|].
    destruct nest; injection Hfin as <- _; reflexivity.
Qed.

End Appending.

(** C8, as amended.  A statement tree whose column mappers return, whose
    SET and RETURNING lists call no nil entry and whose FROM and JOIN
    tables are no nil [*FunctionInfo] renders without failing.  A nil update
    table renders as [UPDATE NULL], in front of whatever the other clauses
    append and alone when there is no other clause; a nil entry of a field
    list renders as [NULL] after the separator. *)
Theorem rendering_succeeds_on_nil q s u :
  everyQuery (fun q' => nilSafe q' /\ mapperReturns q') q ->
  (exists s' u', UpdateQuery_AppendSQL q s u = Ok s' u') /\
  (UpdateTable q = None ->
   exists t l u',
     UpdateQuery_AppendSQL (NestThis q) s u
     = Ok (fst s ^^ "UPDATE NULL" ^^ t, snd s ++ l) u') /\
  (UpdateTable q = None -> ColumnMapper q = None -> Assignments q = [] ->
   FromTable q = TableNil -> JoinTables q = [] ->
   Predicates (WherePredicate q) = [] -> ReturningFields q = [] ->
   UpdateQuery_AppendSQL (NestThis q) s u
   = Ok (WriteString "NULL" (WriteString "UPDATE " s)) u) /\
  (forall fs excl,
     Fields_AppendSQLExclude (fs ++ [FieldNil]) excl s u
     = (s1 <- Fields_AppendSQLExclude fs excl s ;;
        write "NULL"
          (if Nat.eqb (length fs) 0 then s1 else WriteString ", " s1)) u) /\
  (forall fs excl,
     Fields_AppendSQLExcludeWithAlias (fs ++ [FieldNil]) excl s u
     = (s1 <- Fields_AppendSQLExcludeWithAlias fs excl s ;;
        write "NULL"
          (if Nat.eqb (length fs) 0 then s1 else WriteString ", " s1)) u).
Proof.
  intros H. split; [apply render_returns, H|]. split; [|split; [|split]].
  - intros Ht. rewrite AppendSQL_NestThis.
    destruct (render_returns q true s u H) as (s' & u' & E).
    destruct (proj2 (appending_tree q) s u s' u' E
                (WriteString "NULL" (WriteString "UPDATE " s)))
      as (t & l & ->).
    { unfold appendUpdate. now rewrite Ht. }
    exists t, l, u'. rewrite E. unfold WriteString. cbn [fst snd].
    now rewrite !append_assoc.
  - intros Ht Hcm Ha Hf Hj Hw Hr.
    rewrite AppendSQL_NestThis, UpdateQuery_render_unfold.
    unfold runColumnMapper, appendClauses, appendUpdate, appendSet,
      appendFrom, appendJoins, appendWhere, appendReturning.
    rewrite Hcm, Ht, Ha, Hf, Hj, Hw, Hr. reflexivity.
  - intros fs excl. unfold Fields_AppendSQLExclude.
    now rewrite rangeJoin_snoc.
  - intros fs excl. unfold Fields_AppendSQLExcludeWithAlias.
    now rewrite rangeJoin_snoc.
Qed.

(** X22.  AppendSQL only appends.  The arguments already in the slice
    stay in front of the new ones.  On a nested statement the text already
    in the buffer stays in front of the new text; on a statement that is not
    nested the buffer ends up holding the placeholder rewrite of the old
    text followed by the new text, so markers already in the buffer are
    numbered too. *)
Theorem rendering_appends q s u s' u' :
  UpdateQuery_AppendSQL q s u = Ok s' u' ->
  exists t l,
    snd s' = snd s ++ l /\
    fst s' = if nested q then fst s ^^ t
             else questionToDollarPlaceholders (fst s ^^ t).
Proof.
  intros H. unfold UpdateQuery_AppendSQL in H.
  destruct (proj1 (appending_tree q) _ _ _ _ _ H)
    as (s8 & (t & l & ->) & ->).
  exists t, l. destruct (nested q); split; reflexivity.
Qed.

End Further.

Import Samples.

Ltac sample_tree :=
  cbn;
  unfold declarative, nilSafe, mapperClean, mapperReturns, mapperKeepsStore;
  cbn; repeat split; try reflexivity; try discriminate.

Lemma idMapper_reaches acc n :
  reachesCursor (fetchQuery idMapper acc) None (Some (dbOf n)) world0
    idMapper discoveredRow fetchSink (rowsOf n) 0%Z.
Proof. exists (dbOf n), 0%Z. repeat split. Defined.

Lemma emptyMapper_reaches acc n :
  reachesCursor (fetchQuery emptyMapper acc) None (Some (dbOf n)) world0
    emptyMapper (Build_Row [] [] 0) fetchSinkEmpty (rowsOf n) 0%Z.
Proof. exists (dbOf n), 0%Z. repeat split. Defined.

Lemma idMapper_total : mapperTotal idMapper.
Proof.
  intros r u. unfold idMapper. destruct (dest r); eexists _, _; reflexivity.
Defined.

Lemma rowsOf_scans n : scansSucceed (rowsOf n).
Proof.
  intros scan Hin d. apply repeat_spec in Hin. subst scan.
  eexists. reflexivity.
Defined.


(** C2 fails without a row: the mapper binds a destination, there is no
    accumulator, the cursor holds no row, and the mapper is invoked once in
    all (the discovery invocation), not once more for a row. *)
Lemma fetch_row_calls_counterexample :
  idMapper (Build_Row [] [] 0) 0%Z = Ok discoveredRow 0%Z /\
  dest discoveredRow <> [] /\
  Accumulator (fetchQuery idMapper None) = None /\
  length
    (filter isMapperCall
       (trace (snd (FetchContext (fetchQuery idMapper None) None
                      (Some (dbOf 0)) world0)))) = 1.
Proof. repeat split. discriminate. Qed.

(** C2 as amended, on three rows with an accumulator. *)
Lemma fetch_row_calls_witness :
  trace (snd (FetchContext (fetchQuery idMapper (Some countingAccumulator))
                None (Some (dbOf 3)) world0))
  = [EvMapper; EvQuery (fst fetchSink) (snd fetchSink);
     EvScan 1; EvMapper; EvAccumulator;
     EvScan 2; EvMapper; EvAccumulator;
     EvScan 3; EvMapper; EvAccumulator; EvClose; EvClose].
Proof.
  refine (proj2
            (fetch_row_calls
               (fetchQuery idMapper (Some countingAccumulator))
               None (Some (dbOf 3)) world0 idMapper discoveredRow fetchSink
               (rowsOf 3) 0%Z (idMapper_reaches _ 3) ltac:(discriminate)
               (rowsOf_scans 3) idMapper_total _) ltac:(discriminate)).
  intros a Ha u. injection Ha as <-. eexists. reflexivity.
Defined.

(** C3 fails when the mapper binds no destination: no row, no accumulator,
    and the fetch returns nil, not sql.ErrNoRows. *)
Lemma fetch_zero_rows_counterexample :
  remaining (rowsOf 0) = [] /\
  Accumulator (fetchQuery emptyMapper None) = None /\
  fst (FetchContext (fetchQuery emptyMapper None) None (Some (dbOf 0))
         world0) = None /\
  fst (FetchContext (fetchQuery emptyMapper None) None (Some (dbOf 0))
         world0) <> Some ErrNoRows.
Proof. repeat split. discriminate. Qed.

(** C3 as amended, without an accumulator. *)
Lemma fetch_zero_rows_witness :
  fst (FetchContext (fetchQuery idMapper None) None (Some (dbOf 0)) world0)
  = Some ErrNoRows.
Proof.
  rewrite (proj1
             (fetch_zero_rows (fetchQuery idMapper None) None
                (Some (dbOf 0)) world0 idMapper discoveredRow fetchSink
                (rowsOf 0) 0%Z (idMapper_reaches _ 0) ltac:(discriminate)
                eq_refl) eq_refl).
  reflexivity.
Defined.

(** C10 on the empty mapper, with three rows waiting and no accumulator. *)
Lemma fetch_without_destinations_witness :
  FetchContext (fetchQuery emptyMapper None) None (Some (dbOf 3)) world0
  = (None,
     Build_World 0%Z (Some (closeRows (rowsOf 3)))
       [EvMapper; EvQuery (fst fetchSinkEmpty) (snd fetchSinkEmpty);
        EvClose]).
Proof.
  exact (fetch_without_destinations (fetchQuery emptyMapper None) None
           (Some (dbOf 3)) world0 emptyMapper (Build_Row [] [] 0)
           fetchSinkEmpty (rowsOf 3) 0%Z (emptyMapper_reaches _ 3) eq_refl).
Defined.



(** C6 on the statement whose column mapper panics. *)
Lemma ToSQL_recovers_mapper_panic_witness :
  ToSQL panickingStatement 0%Z = (("", [errEmptyEmail]), 0%Z).
Proof.
  exact (ToSQL_recovers_mapper_panic panickingStatement
           (fun _ u => Panic errEmptyEmail u) 0%Z errEmptyEmail 0%Z
           eq_refl eq_refl).
Defined.


(** C8 fails on a column mapper that panics: the rendering does not
    return, and [ToSQL] reports the raised value in place of a statement.
    It fails as well on a nil [*FunctionInfo] as FROM table, whose alias is
    read through the nil pointer. *)
Lemma rendering_succeeds_on_nil_counterexample :
  UpdateQuery_AppendSQL panickingStatement emptySink 0%Z
  = Panic errEmptyEmail 0%Z /\
  ToSQL panickingStatement 0%Z = (("", [errEmptyEmail]), 0%Z) /\
  UpdateQuery_AppendSQL nilFunctionFrom emptySink 0%Z
  = Panic nilDereference 0%Z.
Proof. repeat split. Qed.

(** C8 as amended, on a statement without update table that has a SET
    list, a function call as FROM table, a join on a nil table and a nil
    entry in RETURNING; on the empty statement; and on a field list ending
    in a nil entry. *)
Lemma rendering_succeeds_on_nil_witness :
  (exists s' u',
     UpdateQuery_AppendSQL nilStatement emptySink 0%Z = Ok s' u') /\
  (exists t l u',
     UpdateQuery_AppendSQL (NestThis nilStatement) emptySink 0%Z
     = Ok ("UPDATE NULL" ^^ t, l) u') /\
  ToSQL nilStatement 0%Z
  = (("UPDATE NULL SET u.email = $1 FROM generate_series($2, $3) AS g"
      ^^ " LEFT JOIN NULL RETURNING 1, NULL",
      [SStr "a@b"; SInt 1; SInt 3]), 0%Z) /\
  UpdateQuery_AppendSQL (NestThis emptyUpdateQuery) emptySink 0%Z
  = Ok ("UPDATE NULL", []) 0%Z /\
  Fields_AppendSQLExclude [FieldLiteral "1"; FieldNil] [] emptySink 0%Z
  = Ok ("1, NULL", []) 0%Z.
Proof.
  destruct (rendering_succeeds_on_nil nilStatement emptySink 0%Z
              ltac:(sample_tree)) as (Hret & Hhead & _).
  destruct (rendering_succeeds_on_nil emptyUpdateQuery emptySink 0%Z
              ltac:(sample_tree)) as (_ & _ & Hnull & Hfields & _).
  split; [exact Hret|]. split; [exact (Hhead eq_refl)|].
  split; [reflexivity|]. split.
  - exact (Hnull eq_refl eq_refl eq_refl eq_refl eq_refl eq_refl eq_refl).
  - exact (Hfields [FieldLiteral "1"] []).
Defined.

(** C9 fails on a column mapper that counts its invocations: the second
    call binds another argument than the first. *)
Lemma ToSQL_twice_counterexample :
  fst (ToSQL countingStatement 0%Z)
  = ("UPDATE public.users AS u SET n = $1", [SInt 1]) /\
  fst (ToSQL countingStatement (snd (ToSQL countingStatement 0%Z)))
  = ("UPDATE public.users AS u SET n = $1", [SInt 2]) /\
  fst (ToSQL countingStatement (snd (ToSQL countingStatement 0%Z)))
  <> fst (ToSQL countingStatement 0%Z).
Proof. repeat split. discriminate. Qed.

(** C9 as amended, on a column mapper that only reads. *)
Lemma ToSQL_twice_witness :
  fst (ToSQL readingStatement (snd (ToSQL readingStatement 7%Z)))
  = fst (ToSQL readingStatement 7%Z).
Proof.
  refine (proj2 (ToSQL_twice readingStatement 7%Z _)).
  cbn. repeat split. intros m Hm c u. injection Hm as <-. reflexivity.
Defined.

(** ** The further properties on the samples *)

Lemma idMapper_reaches_with acc rs :
  reachesCursor (fetchQuery idMapper acc) None (Some (dbWith rs)) world0
    idMapper discoveredRow fetchSink rs 0%Z.
Proof. exists (dbWith rs), 0%Z. repeat split. Defined.

Lemma rowsCut_scans n : scansSucceed (rowsCut n).
Proof.
  intros scan Hin d. apply repeat_spec in Hin. subst scan.
  eexists. reflexivity.
Defined.

(** X4 on a row mapper that raises 0: the fetch returns the value wrapped
    by [fmt.Errorf], and the only call is the discovery invocation. *)
Lemma fetch_panic_before_query_witness :
  FetchContext (fetchQuery (panickingMapper (SInt 0)) None) None
    (Some (dbOf 1)) world0
  = (Some (Errorf_v (SInt 0)), Build_World 0%Z None [EvMapper]).
Proof.
  exact (fetch_panic_before_query
           (fetchQuery (panickingMapper (SInt 0)) None) None (Some (dbOf 1))
           (dbOf 1) world0 (panickingMapper (SInt 0)) (SInt 0) 0%Z
           eq_refl eq_refl (or_introl eq_refl)).
Defined.

(** X5 on a connection that rejects the statement. *)
Lemma fetch_query_error_witness :
  FetchContext (fetchQuery idMapper None) None (Some dbFailing) world0
  = (Some (ErrorString "syntax error"),
     Build_World 0%Z None
       [EvMapper; EvQuery (fst fetchSink) (snd fetchSink)]).
Proof.
  exact (fetch_query_error (fetchQuery idMapper None) None (Some dbFailing)
           dbFailing world0 idMapper discoveredRow 0%Z fetchSink 0%Z
           (ErrorString "syntax error") eq_refl eq_refl eq_refl eq_refl
           eq_refl).
Defined.

(** X6 on a fetch whose accumulator raises on the first of two rows. *)
Lemma fetch_closes_cursor_witness :
  cursorClosed
    (snd (FetchContext
            (fetchQuery idMapper (Some (panickingAccumulator (SInt 0))))
            None (Some (dbOf 2)) world0)) = true.
Proof.
  exact (proj1
           (fetch_closes_cursor
              (fetchQuery idMapper (Some (panickingAccumulator (SInt 0))))
              None (Some (dbOf 2)) world0 idMapper discoveredRow fetchSink
              (rowsOf 2) 0%Z (idMapper_reaches _ 2))).
Defined.

(** X7 on a cursor whose first row does not scan: the accumulator has
    counted nothing. *)
Lemma fetch_scan_failure_witness :
  FetchContext (fetchQuery idMapper (Some countingAccumulator)) None
    (Some (dbWith rowsFailing)) world0
  = (Some (Errorf_w scanMessage scanError),
     Build_World 0%Z
       (Some (Build_Rows [scanInto (SInt 1)] None None None true))
       [EvMapper; EvQuery (fst fetchSink) (snd fetchSink); EvScan 1;
        EvClose]).
Proof.
  exact (proj1
           (fetch_scan_failure
              (fetchQuery idMapper (Some countingAccumulator)) None
              (Some (dbWith rowsFailing)) world0 idMapper discoveredRow
              fetchSink rowsFailing 0%Z (Errorf_w scanMessage scanError)
              (loopWorld
                 (iterate idMapper (Some countingAccumulator)
                    (remaining rowsFailing) discoveredRow 0
                    (cursorWorld world0 fetchSink rowsFailing 0%Z)))
              (idMapper_reaches_with _ rowsFailing) ltac:(discriminate)
              eq_refl)).
Defined.

(** X8 on two rows after which the cursor reports an error. *)
Lemma fetch_completed_result_witness :
  fst (FetchContext (fetchQuery idMapper (Some countingAccumulator)) None
         (Some (dbWith (rowsCut 2))) world0) = Some cutError.
Proof.
  refine (proj1
            (fetch_completed_result
               (fetchQuery idMapper (Some countingAccumulator)) None
               (Some (dbWith (rowsCut 2))) world0 idMapper discoveredRow
               fetchSink (rowsCut 2) 0%Z (idMapper_reaches_with _ _)
               ltac:(discriminate) (rowsCut_scans 2) idMapper_total _)
            ltac:(discriminate)).
  intros a Ha u. injection Ha as <-. eexists. reflexivity.
Defined.

(** X11 on the statement whose column mapper raises errEmptyEmail. *)
Lemma exec_recovers_panic_witness :
  ExecContext execOne execExpired 1%Z panickingStatement None
    (Some (dbOf 0)) 0%Z 0%Z
  = ((0%Z, Some (ErrorString "email cannot be empty")), 0%Z).
Proof.
  exact (proj1
           (exec_recovers_panic execOne execExpired 1%Z panickingStatement
              None (Some (dbOf 0)) (dbOf 0) 0%Z 0%Z errEmptyEmail 0%Z
              eq_refl eq_refl)).
Defined.

(** X12 with the flag set: the count of the connection is returned. *)
Lemma exec_rows_affected_witness :
  ExecContext execOne execExpired 1%Z setFromOther None (Some (dbOf 0))
    1%Z 0%Z
  = ((1%Z, None), 0%Z).
Proof.
  refine (proj2 (proj2 (proj2
            (exec_rows_affected execOne execExpired 1%Z setFromOther None
               (Some (dbOf 0)) (dbOf 0) 1%Z 0%Z
               ("UPDATE public.users AS u SET name = o.name", []) 0%Z
               eq_refl eq_refl)))
            (Build_Result (1%Z, None)) eq_refl _).
  discriminate.
Defined.

(** X14 on a list of a literal, a nil entry and a column. *)
Lemma fields_alias_free_witness :
  Fields_AppendSQLExcludeWithAlias plainFields [] emptySink 0%Z
  = Fields_AppendSQLExclude plainFields [] emptySink 0%Z.
Proof. exact (fields_alias_free plainFields [] emptySink 0%Z eq_refl). Defined.

(** X15 on a list of a literal and a nil FunctionInfo pointer. *)
Lemma fields_nil_function_witness :
  exists p u',
    Fields_AppendSQLExcludeWithAlias
      [FieldLiteral "1"; FieldFunction None] [] emptySink 0%Z
    = Panic p u'.
Proof.
  exact (proj2 (fields_nil_function [] [] emptySink 0%Z)
           [FieldLiteral "1"; FieldFunction None]
           (or_intror (or_introl eq_refl))).
Defined.

(** X16 on a list whose second Assignment is nil. *)
Lemma assignments_nil_panics_witness :
  exists p u',
    Assignments_AppendSQLExclude
      [FieldAssignment (FieldLiteral "a") (VLit (SInt 1)); AssignmentNil]
      [] emptySink 0%Z
    = Panic p u'.
Proof.
  exact (proj1
           (assignments_nil_panics
              [FieldAssignment (FieldLiteral "a") (VLit (SInt 1));
               AssignmentNil] [] emptySink 0%Z
              (or_intror (or_introl eq_refl)))).
Defined.

(** X17 on [Update(u).Set(nil)]. *)
Lemma ToSQL_nil_assignment_witness :
  exists r u', ToSQL nilAssignmentStatement 0%Z = (("", [r]), u').
Proof.
  exact (ToSQL_nil_assignment nilAssignmentStatement 0%Z eq_refl
           (or_introl eq_refl)).
Defined.

(** X20 on the statement whose column mapper raises an error value: what
    the rendering raises is an error value. *)
Lemma render_panic_provenance_witness :
  exists e, errEmptyEmail = SErr e.
Proof.
  refine (render_panic_provenance (fun p => exists e, p = SErr e)
            panickingStatement emptySink 0%Z errEmptyEmail 0%Z _ eq_refl).
  cbn. repeat split.
  intros m Hm c u p u' H. injection Hm as <-. injection H as <- _.
  eexists. reflexivity.
Defined.

(** X21 on the sample statement. *)
Lemma render_without_mappers_witness :
  exists sql args, forall u, ToSQL literalStatement u = ((sql, args), u).
Proof.
  exact (proj2 (render_without_mappers literalStatement ltac:(sample_tree))).
Defined.

Lemma idMapper_reads r0 u : exists r', idMapper r0 u = Ok r' u.
Proof. unfold idMapper. destruct (dest r0); eexists; reflexivity. Defined.

(** X9 on three rows and the counting accumulator: it has counted
    three. *)
Lemma fetch_final_store_witness :
  store (snd (FetchContext (fetchQuery idMapper (Some countingAccumulator))
                None (Some (dbOf 3)) world0)) = 3%Z.
Proof.
  exact (proj1
           (fetch_final_store
              (fetchQuery idMapper (Some countingAccumulator)) None
              (Some (dbOf 3)) world0 idMapper discoveredRow fetchSink
              (rowsOf 3) 0%Z (idMapper_reaches _ 3) ltac:(discriminate)
              (rowsOf_scans 3))
           countingAccumulator (fun u => (u + 1)%Z) eq_refl idMapper_reads
           (fun u => eq_refl)).
Defined.

(** X18 on [Setx(func(col *Column) { col.SetInt(u.N, 1) })]. *)
Lemma setx_renders_like_set_witness :
  UpdateQuery_AppendSQL
    (UpdateQuery_Setx (Update (Some users))
       (fun c u => Ok (Build_Column (mode c) [(column "u" "n", SInt 1)]) u))
    emptySink 0%Z
  = UpdateQuery_AppendSQL
      (UpdateQuery_Set (Update (Some users))
         (ColumnAssignments [(column "u" "n", SInt 1)]))
      emptySink 0%Z.
Proof.
  exact (setx_renders_like_set (Update (Some users))
           (fun c u => Ok (Build_Column (mode c) [(column "u" "n", SInt 1)]) u)
           [(column "u" "n", SInt 1)] emptySink 0%Z eq_refl eq_refl
           (fun c u0 => eq_refl)).
Defined.

(** X22 on a statement that is not nested, rendered into a buffer that
    already holds a marker and an argument: the marker is numbered first. *)
Lemma rendering_appends_witness :
  exists t l,
    [SInt 9; SStr "a@b"] = [SInt 9] ++ l /\
    "$1UPDATE public.users AS u SET email = $2"
    = questionToDollarPlaceholders ("?" ^^ t).
Proof.
  exact (rendering_appends (fetchQuery idMapper None) ("?", [SInt 9]) 0%Z
           ("$1UPDATE public.users AS u SET email = $2",
            [SInt 9; SStr "a@b"]) 0%Z eq_refl).
Defined.
